(** * FoCal (Filter Overlap Correction ALgorithm): a shallow embedding of
      [focal.py] and the properties of its specification.

    The Python source is Python 2 on top of numpy.  The embedding keeps

    - floating-point cells as IEEE-754 binary64 values, through the
      Standard Library's executable specification [SpecFloat] (signed
      zeros, signed infinities, one NaN, round-to-nearest-even);
    - integers (indices, counts, shapes) as [Z], with [/] the floor
      division of Python 2 on integers;
    - a 2-D [numpy] array as a list of rows, read with stdpp's lookup and
      rewritten with [imap] or insert;
    - a Python exception as the [Raise] outcome of a small error monad;
    - the in-place mutation of the composite image as explicit state
      passing: [adjust_with_correlation] returns the image it mutated. *)

From Stdlib Require Import ZArith Lia Bool List SpecFloat String.
From stdpp Require Import base option list.
Import ListNotations.

Local Open Scope Z_scope.

(** ** Python exceptions *)

Inductive exn : Set :=
| ZeroDivisionError
| ValueError
| IndexError
| OverflowError.

Inductive result (A : Type) : Type :=
| Ok (a : A)
| Raise (e : exn).

Arguments Ok {A} a.
Arguments Raise {A} e.

Definition bind {A B : Type} (m : result A) (k : A -> result B) : result B :=
  match m with
  | Ok a => k a
  | Raise e => Raise e
  end.

Notation "'let!' x ':=' m 'in' k" := (bind m (fun x => k))
  (at level 10, x pattern, m at level 100, k at level 200).

(** ** IEEE-754 binary64, as numpy's [float64] and Python's [float] *)

Module F64.

Definition prec : Z := 53.
Definition emax : Z := 1024.

Definition float : Set := spec_float.

Definition zero : float := S754_zero false.
Definition inf : float := S754_infinity false.
Definition neg_inf : float := S754_infinity true.
Definition nan : float := S754_nan.

Definition sub : float -> float -> float := SFsub prec emax.
Definition mul : float -> float -> float := SFmul prec emax.

(** The comparisons of IEEE-754: every comparison with a NaN is false,
    and the two zeros are equal. *)
Definition eqb : float -> float -> bool := SFeqb.
Definition leb : float -> float -> bool := SFleb.
Definition neqb (x y : float) : bool := negb (eqb x y).

Definition is_nan (x : float) : bool :=
  match x with S754_nan => true | _ => false end.

(** Conversion of an integer to the nearest float (exact below 2^53). *)
Definition of_Z (z : Z) : float := binary_normalize prec emax z 0 false.

(** Python's [int(x)] on a float: truncation toward zero;
    [OverflowError] on an infinity and [ValueError] on a NaN. *)
Definition to_int (x : float) : result Z :=
  match x with
  | S754_zero _ => Ok 0
  | S754_infinity _ => Raise OverflowError
  | S754_nan => Raise ValueError
  | S754_finite s m e =>
      let a := match e with
               | Z0 => Zpos m
               | Zpos p => Zpos m * 2 ^ e
               | Zneg p => Zpos m / 2 ^ (Zpos p)
               end in
      Ok (if s then - a else a)
  end.

End F64.

Abbreviation float := F64.float.

(** ** numpy arrays of rank 2 *)

Abbreviation ndarray := (list (list float)).

(** [a.shape] of a rank-2 array.  An array without rows is given zero
    columns. *)
Definition shape (a : ndarray) : Z * Z :=
  (Z.of_nat (length a),
   match a with [] => 0 | row :: _ => Z.of_nat (length row) end).

(** Every row has the width that [shape] reports. *)
Definition rectangular (a : ndarray) : Prop :=
  Forall (fun row => Z.of_nat (length row) = snd (shape a)) a.

Definition get2 (a : ndarray) (i j : nat) : option float :=
  match a !! i with
  | Some row => row !! j
  | None => None
  end.

Definition set2 (a : ndarray) (i j : nat) (v : float) : ndarray :=
  match a !! i with
  | Some row => <[i := <[j := v]> row]> a
  | None => a
  end.

(** A scalar index into an axis of length [n]: negative indices count
    from the end, anything else out of range is an [IndexError]. *)
Definition index (n i : Z) : result nat :=
  if (0 <=? i) && (i <? n) then Ok (Z.to_nat i)
  else if (- n <=? i) && (i <? 0) then Ok (Z.to_nat (i + n))
  else Raise IndexError.

(** [a[i, j]] *)
Definition getitem (a : ndarray) (c : Z * Z) : result float :=
  let! i := index (fst (shape a)) (fst c) in
  let! j := index (snd (shape a)) (snd c) in
  match get2 a i j with
  | Some x => Ok x
  | None => Raise IndexError
  end.

(** A slice bound [b] of [a[b:...]] on an axis of length [n]: negative
    bounds count from the end, and every bound is clipped to the axis. *)
Definition slice_bound (n b : Z) : Z :=
  if b <? 0 then Z.max 0 (b + n) else Z.min b n.

(** A rectangular region [lo_r:hi_r, lo_c:hi_c], bounds already clipped. *)
Record window : Set := Window {
  lo_r : Z; hi_r : Z; lo_c : Z; hi_c : Z
}.

(** The region selected by [a[r0:r1, c0:c1]]. *)
Definition slice (a : ndarray) (r0 r1 c0 c1 : Z) : window :=
  let '(h, w) := shape a in
  Window (slice_bound h r0) (slice_bound h r1)
         (slice_bound w c0) (slice_bound w c1).

Definition win_rows (w : window) : Z := Z.max 0 (hi_r w - lo_r w).
Definition win_cols (w : window) : Z := Z.max 0 (hi_c w - lo_c w).

Definition in_window (w : window) (i j : Z) : bool :=
  (lo_r w <=? i) && (i <? hi_r w) && (lo_c w <=? j) && (j <? hi_c w).

(** The values of a region, as the array [a[r0:r1, c0:c1]]. *)
Definition view (a : ndarray) (w : window) : ndarray :=
  map (fun row => take (Z.to_nat (win_cols w)) (drop (Z.to_nat (lo_c w)) row))
      (take (Z.to_nat (win_rows w)) (drop (Z.to_nat (lo_r w)) a)).

(** numpy broadcasting of an operand of shape [(kr, kc)] against a
    destination of shape [(wr, wc)]: an axis must agree or have length 1. *)
Definition broadcastable (kr kc wr wc : Z) : bool :=
  ((kr =? wr) || (kr =? 1)) && ((kc =? wc) || (kc =? 1)).

Definition bcast (k d : Z) : Z := if k =? 1 then 0 else d.

(** [numpy.where(a == v)] on a rank-2 array: the (row, column) pairs of
    the matching cells, in row-major order, relative to [a] itself. *)
Definition where_eq (a : ndarray) (v : float) : list (nat * nat) :=
  concat (imap (fun i row =>
            omap (fun x => x)
                 (imap (fun j x => if F64.eqb x v then Some (i, j) else None) row))
          a).

(** [a[idx] = v] with [idx] a pair of index arrays, as [where] returns. *)
Definition fancy_set (a : ndarray) (idx : list (nat * nat)) (v : float)
  : ndarray :=
  foldl (fun acc ij => set2 acc (fst ij) (snd ij) v) a idx.

(** [a[idx] -= v]: the cells are read, the difference is computed, and the
    results are stored back. *)
Definition fancy_isub (a : ndarray) (idx : list (nat * nat)) (v : float)
  : ndarray :=
  foldl (fun acc ij =>
           match get2 a (fst ij) (snd ij) with
           | Some x => set2 acc (fst ij) (snd ij) (F64.sub x v)
           | None => acc
           end) a idx.

(** [numpy.argmax] on the flattened array: the first index of the
    maximum, a NaN being maximal (the scan stops at the first NaN). *)
Fixpoint argmax_from (best_i : nat) (best : float) (i : nat) (l : list float)
  : nat :=
  match l with
  | [] => best_i
  | x :: l' =>
      if F64.is_nan best then best_i
      else if negb (F64.leb x best) then argmax_from i x (S i) l'
      else argmax_from best_i best (S i) l'
  end.

Definition argmax (a : ndarray) : result Z :=
  match concat a with
  | [] => Raise ValueError
  | x :: l => Ok (Z.of_nat (argmax_from 0 x 1 l))
  end.

(** [numpy.unravel_index(idx, shape)] for a rank-2 shape. *)
Definition unravel_index (idx : Z) (shp : Z * Z) : result (Z * Z) :=
  if (0 <=? idx) && (idx <? fst shp * snd shp)
  then Ok (idx / snd shp, idx mod snd shp)
  else Raise ValueError.

(** ** CoordinateMapper *)

(** Modelled from the spec: [idx2coord] is imported from the package's
    [__init__] module, which is not among the sources; the specification
    has it unravel a flat index into (row, column) with the given row
    stride. *)
Definition idx2coord (idx width : Z) : Z * Z := (idx / width, idx mod width).

Definition local_coords_to_global_idx (coords : Z * Z) (cell_type : Z)
    (local_img_shape global_img_shape : Z * Z) : Z :=
  let row_add := cell_type / 2 in
  let col_add := cell_type mod 2 in
  let global_coords := (fst coords + row_add * fst local_img_shape,
                        snd coords + col_add * snd local_img_shape) in
  let global_idx :=
    fst global_coords * snd global_img_shape + snd global_coords in
  global_idx.

Definition global_to_single_coords (coords single_shape : Z * Z) : Z * Z :=
  let row_count := fst coords / fst single_shape in
  let col_count := snd coords / snd single_shape in
  let new_row := fst coords - fst single_shape * row_count in
  let new_col := snd coords - snd single_shape * col_count in
  (new_row, new_col).

Definition cell_type_from_global_coords (coords single_shape : Z * Z) : Z :=
  let row_type := fst coords / fst single_shape in
  let col_type := snd coords / snd single_shape in
  let cell_type := row_type * 2 + col_type in
  cell_type.

(** ** In-place updates of a region *)

(** An update that rewrites every cell in place, from its position and
    its value. *)
Definition map_cells (g : nat -> nat -> float -> float) (a : ndarray)
  : ndarray :=
  imap (fun i row => imap (g i) row) a.

(** [img[w] = op(img[w], rhs)] for an operand [rhs] of shape [(kr, kc)],
    broadcast over the region; a shape that does not broadcast is numpy's
    [ValueError], raised before any cell is written. *)
Definition update_window (op : float -> float -> float) (img : ndarray)
    (w : window) (kr kc : Z) (rhs : ndarray) : result ndarray :=
  if broadcastable kr kc (win_rows w) (win_cols w) then
    Ok (map_cells (fun i j x =>
          if in_window w (Z.of_nat i) (Z.of_nat j) then
            match get2 rhs (Z.to_nat (bcast kr (Z.of_nat i - lo_r w)))
                           (Z.to_nat (bcast kc (Z.of_nat j - lo_c w))) with
            | Some y => op x y
            | None => x
            end
          else x) img)
  else Raise ValueError.

(** [img[w] -= rhs] *)
Definition isub_window : ndarray -> window -> Z -> Z -> ndarray -> result ndarray :=
  update_window F64.sub.

(** [img[w] = rhs] *)
Definition assign_window : ndarray -> window -> Z -> Z -> ndarray -> result ndarray :=
  update_window (fun _ y => y).

(** [v * a] *)
Definition scale (v : float) (a : ndarray) : ndarray :=
  map (map (F64.mul v)) a.

(** [img[c] -= v] at one cell. *)
Definition isub_item (img : ndarray) (c : Z * Z) (v : float) : result ndarray :=
  let! i := index (fst (shape img)) (fst c) in
  let! j := index (snd (shape img)) (snd c) in
  match get2 img i j with
  | Some x => Ok (set2 img i j (F64.sub x v))
  | None => Raise IndexError
  end.

(** ** OverlapCorrector: [Focal.adjust_with_correlation] *)

(** The regions of the image and of the correlation kernel that the
    correction touches, with the coordinates of the maximum
    (lines 186-217 of [focal.py]). *)
Record zone : Set := Zone {
  zone_row : Z; zone_col : Z;
  up_lim : Z; left_lim : Z; down_lim : Z; right_lim : Z;
  max_img_row : Z; max_img_col : Z; min_img_row : Z; min_img_col : Z;
  min_knl_row : Z; min_knl_col : Z; max_knl_row : Z; max_knl_col : Z
}.

Definition correlation_zone (img correlation : ndarray) (max_idx : Z) : zone :=
  let '(img_height, img_width) := shape img in
  let correlation_width := fst (shape correlation) in
  let half_correlation_width := correlation_width / 2 in
  let half_img_width := img_width / 2 in
  let half_img_height := img_height / 2 in
  let '(row, col) := idx2coord max_idx img_width in
  let row_idx := row / half_img_height in
  let col_idx := col / half_img_width in
  let up_lim := row_idx * half_img_height in
  let left_lim := col_idx * half_img_width in
  let down_lim := (row_idx + 1) * half_img_height in
  let right_lim := (col_idx + 1) * half_img_width in
  let max_img_row := Z.min (down_lim - 1) (row + half_correlation_width + 1) in
  let max_img_col := Z.min (right_lim - 1) (col + half_correlation_width + 1) in
  let min_img_row := Z.max up_lim (row - half_correlation_width) in
  let min_img_col := Z.max left_lim (col - half_correlation_width) in
  let max_img_row_diff := max_img_row - row in
  let max_img_col_diff := max_img_col - col in
  let min_img_row_diff := row - min_img_row in
  let min_img_col_diff := col - min_img_col in
  let min_knl_row := half_correlation_width - min_img_row_diff in
  let min_knl_col := half_correlation_width - min_img_col_diff in
  let max_knl_row := half_correlation_width + max_img_row_diff in
  let max_knl_col := half_correlation_width + max_img_col_diff in
  Zone row col up_lim left_lim down_lim right_lim
       max_img_row max_img_col min_img_row min_img_col
       min_knl_row min_knl_col max_knl_row max_knl_col.

(** [img[min_img_row:max_img_row, min_img_col:max_img_col]] *)
Definition img_window (img : ndarray) (z : zone) : window :=
  slice img (min_img_row z) (max_img_row z) (min_img_col z) (max_img_col z).

(** [correlation[min_knl_row:max_knl_row, min_knl_col:max_knl_col]] *)
Definition knl_window (correlation : ndarray) (z : zone) : window :=
  slice correlation (min_knl_row z) (max_knl_row z)
                    (min_knl_col z) (max_knl_col z).

(** Lines 219-221: [c_i = c_i - c_max <K_i, K_max>]. *)
Definition subtract_correlation (img correlation : ndarray) (z : zone)
    (max_val : float) : result ndarray :=
  let kw := knl_window correlation z in
  isub_window img (img_window img z) (win_rows kw) (win_cols kw)
              (scale max_val (view correlation kw)).

(** Lines 223-230: the indices that [numpy.where] returns are those of
    the cells inside the sliced region, counted from the corner of the
    region; they are then used to index the whole image. *)
Definition mark_weird (img : ndarray) (z : zone) (weird : float) : ndarray :=
  let indices := where_eq (view img (img_window img z)) weird in
  let img := fancy_set img indices F64.zero in
  let img := fancy_isub img indices F64.inf in
  img.

Definition adjust_with_correlation (img correlation : ndarray) (max_idx : Z)
    (max_val : float) (is_max_val_layer : bool) : result ndarray :=
  let z := correlation_zone img correlation max_idx in
  let! img := subtract_correlation img correlation z max_val in
  let img := mark_weird img z F64.inf in
  let img := mark_weird img z F64.nan in
  if is_max_val_layer
  then isub_item img (zone_row z, zone_col z) F64.inf
  else Ok img.

(** ** SpikeSelector: [Focal.focal] *)

(** One entry [[local_idx, max_val, cell_type]] of the returned list. *)
Record spike : Set := Spike {
  local_index : Z;
  value : float;
  channel : Z
}.

(** What a run leaves behind: the returned list and the text written to
    [sys.stderr]. *)
Record outcome : Set := Outcome {
  ordered_spikes : list spike;
  stderr : list string
}.

Definition wrong_max_value : string :=
  String (Ascii.ascii_of_nat 10) "Wrong max value in FoCal!".

(** [numpy.sum(a != 0)] *)
Definition count_nonzero (a : ndarray) : Z :=
  Z.of_nat (length (List.filter (fun x => F64.neqb x F64.zero) (concat a))).

(** [numpy.zeros(shape)] *)
Definition zeros (shp : Z * Z) : ndarray :=
  replicate (Z.to_nat (fst shp)) (replicate (Z.to_nat (snd shp)) F64.zero).

(** [xrange(n)] of Python 2 accepts only a C long (64 bits here) and is
    empty for a negative [n]; the result is the number of iterations. *)
Definition xrange (n : Z) : result nat :=
  if (- 2 ^ 63 <=? n) && (n <? 2 ^ 63) then Ok (Z.to_nat n)
  else Raise OverflowError.

(** Line 98: [percent = (count*100.)/float(total_spikes-1)], a division of
    Python floats.  Only its exception is kept; the text sent to
    [sys.stdout] is not part of the model. *)
Definition progress (count total_spikes : Z) : result unit :=
  if total_spikes - 1 =? 0 then Raise ZeroDivisionError else Ok tt.

Section Focal.

(** [self.correlations[a][b]]: the correlation of the kernels of layers
    [a] and [b], computed outside [focal.py]. *)
Variable correlations : Z -> Z -> ndarray.

(** Lines 84-92: the four images side by side, zeros replaced by -inf. *)
Fixpoint fill_big_image (height width : Z) (big_image : ndarray)
    (cell_type : Z) (spike_images : list ndarray) : result ndarray :=
  match spike_images with
  | [] => Ok big_image
  | image :: rest =>
      let big_coords := [(0, 0); (0, width); (height, 0); (height, width)] in
      match big_coords !! Z.to_nat cell_type with
      | None => Raise IndexError
      | Some (row, col) =>
          let tmp_img := image in
          let tmp_img :=
            fancy_set tmp_img (where_eq tmp_img F64.zero) F64.neg_inf in
          let! big_image :=
            assign_window big_image
              (slice big_image row (row + height) col (col + width))
              (fst (shape tmp_img)) (snd (shape tmp_img)) tmp_img in
          fill_big_image height width big_image (cell_type + 1) rest
      end
  end.

(** Lines 127-139: the correction of every layer after a spike. *)
Fixpoint correct_overlaps (img_shape big_shape single_coords : Z * Z)
    (cell_type : Z) (max_val : float) (big_image : ndarray)
    (overlap_cell_types : list Z) : result ndarray :=
  match overlap_cell_types with
  | [] => Ok big_image
  | overlap_cell_type :: rest =>
      let overlap_idx :=
        local_coords_to_global_idx single_coords overlap_cell_type
                                   img_shape big_shape in
      let is_max_val_layer := overlap_cell_type =? cell_type in
      let! big_image :=
        adjust_with_correlation big_image
          (correlations cell_type overlap_cell_type)
          overlap_idx max_val is_max_val_layer in
      correct_overlaps img_shape big_shape single_coords cell_type max_val
                       big_image rest
  end.

(** [range(n)] *)
Definition range (n : nat) : list Z := map Z.of_nat (seq 0 n).

(** Lines 95-139: the main loop, [cycles] iterations from [count] on. *)
Fixpoint focal_loop (img_shape big_shape : Z * Z) (num_images : nat)
    (total_spikes : Z) (cycles : nat) (count : Z) (big_image : ndarray)
    (ordered_spikes : list spike) : result outcome :=
  match cycles with
  | O => Ok (Outcome ordered_spikes [])
  | S cycles' =>
      let '(height, width) := img_shape in
      let! _ := progress count total_spikes in
      let! max_idx := argmax big_image in
      let! max_coords := unravel_index max_idx big_shape in
      let! max_val := getitem big_image max_coords in
      if F64.eqb max_val F64.inf || F64.eqb max_val F64.neg_inf
         || F64.eqb max_val F64.nan
      then Ok (Outcome ordered_spikes [wrong_max_value])
      else
        let single_coords :=
          if (fst max_coords <? height) && (snd max_coords <? width)
          then max_coords
          else global_to_single_coords max_coords img_shape in
        let local_idx := fst single_coords * width + snd single_coords in
        let cell_type := cell_type_from_global_coords max_coords img_shape in
        let ordered_spikes :=
          ordered_spikes ++ [Spike local_idx max_val cell_type] in
        let! big_image :=
          correct_overlaps img_shape big_shape single_coords cell_type
                           max_val big_image (range num_images) in
        focal_loop img_shape big_shape num_images total_spikes cycles'
                   (count + 1) big_image ordered_spikes
  end.

(** Lines 75-79: how many non-zero cells the images hold. *)
Definition total_nonzero (spike_images : list ndarray) : Z :=
  foldl (fun max_cycles image => max_cycles + count_nonzero image)
        0 spike_images.

(** Line 82: [numpy.int(spikes_per_unit*max_cycles)]. *)
Definition budget (spikes_per_unit : float) (max_cycles : Z) : result Z :=
  F64.to_int (F64.mul spikes_per_unit (F64.of_Z max_cycles)).

Definition focal (spike_images : list ndarray) (spikes_per_unit : float)
  : result outcome :=
  match spike_images with
  | [] => Raise IndexError
  | image0 :: _ =>
      let ordered_spikes := [] in
      let img_shape := shape image0 in
      let '(height, width) := img_shape in
      let num_images := length spike_images in
      let max_cycles := total_nonzero spike_images in
      let total_spikes := max_cycles in
      let! max_cycles := budget spikes_per_unit max_cycles in
      let big_shape := (height * 2, width * 2) in
      let big_image := zeros big_shape in
      let! big_image :=
        fill_big_image height width big_image 0 spike_images in
      let! cycles := xrange max_cycles in
      focal_loop img_shape big_shape num_images total_spikes cycles 0
                 big_image ordered_spikes
  end.

End Focal.

(** ** Predicates and reference functions of the specification *)

(** A square kernel of odd side, every entry of which is a zero. *)
Definition zero_kernel (correlation : ndarray) : Prop :=
  (exists k, shape correlation = (2 * k + 1, 2 * k + 1)) /\
  forall i j c, get2 correlation i j = Some c -> exists s, c = S754_zero s.

(** Neither an infinity nor a NaN. *)
Definition finite (x : float) : bool :=
  match x with
  | S754_zero _ | S754_finite _ _ _ => true
  | S754_infinity _ | S754_nan => false
  end.

(** A cell that the corrections without cross-talk leave as it is: not
    the negative zero and not +inf. *)
Definition clean (x : float) : Prop := x <> S754_zero true /\ x <> F64.inf.

(** A cell as the search expects it: a number or the sentinel -inf. *)
Definition searchable (x : float) : bool :=
  match x with
  | S754_zero false | S754_finite _ _ _ | S754_infinity true => true
  | _ => false
  end.

Definition all_cells (P : float -> Prop) (a : ndarray) : Prop :=
  forall i j x, get2 a i j = Some x -> P x.

(** The shape of the composite image of four [H] by [W] layers. *)
Definition composite (H W : Z) (tile : ndarray) : Prop :=
  shape tile = (H * 2, W * 2) /\ rectangular tile.

(** The composite image of four [H] by [W] layers during the search. *)
Definition tile_ok (H W : Z) (tile : ndarray) : Prop :=
  shape tile = (H * 2, W * 2) /\ rectangular tile /\
  all_cells (fun x => searchable x = true) tile.

(** [tile[r, c] -= inf] on a cell that exists. *)
Definition mark_cell (tile : ndarray) (r c : Z) : ndarray :=
  match get2 tile (Z.to_nat r) (Z.to_nat c) with
  | Some x => set2 tile (Z.to_nat r) (Z.to_nat c) (F64.sub x F64.inf)
  | None => tile
  end.

(** The search without cross-talk: [focal_loop] with the corrections
    reduced to the marking of the cell of the maximum. *)
Fixpoint select_loop (img_shape big_shape : Z * Z) (num_images : nat)
    (total_spikes : Z) (cycles : nat) (count : Z) (big_image : ndarray)
    (ordered_spikes : list spike) : result outcome :=
  match cycles with
  | O => Ok (Outcome ordered_spikes [])
  | S cycles' =>
      let '(height, width) := img_shape in
      let! _ := progress count total_spikes in
      let! max_idx := argmax big_image in
      let! max_coords := unravel_index max_idx big_shape in
      let! max_val := getitem big_image max_coords in
      if F64.eqb max_val F64.inf || F64.eqb max_val F64.neg_inf
         || F64.eqb max_val F64.nan
      then Ok (Outcome ordered_spikes [wrong_max_value])
      else
        let single_coords :=
          if (fst max_coords <? height) && (snd max_coords <? width)
          then max_coords
          else global_to_single_coords max_coords img_shape in
        let local_idx := fst single_coords * width + snd single_coords in
        let cell_type := cell_type_from_global_coords max_coords img_shape in
        let ordered_spikes :=
          ordered_spikes ++ [Spike local_idx max_val cell_type] in
        let big_image :=
          if bool_decide (cell_type ∈ range num_images)
          then mark_cell big_image (fst max_coords) (snd max_coords)
          else big_image in
        select_loop img_shape big_shape num_images total_spikes cycles'
                    (count + 1) big_image ordered_spikes
  end.

(** The values of the spikes never increase along the list. *)
Definition non_increasing (spikes : list spike) : Prop :=
  forall i j a b, (i < j)%nat ->
    spikes !! i = Some a -> spikes !! j = Some b ->
    F64.leb (value b) (value a) = true.

(** Valid response maps: every map is a full [H] by [W] array of finite
    numbers. *)
Definition valid_images (H W : Z) (spike_images : list ndarray) : Prop :=
  Forall (fun image =>
            shape image = (H, W) /\ rectangular image /\
            all_cells (fun x => finite x = true) image) spike_images.

(** Below zero: a negative number or -inf. *)
Definition negative (x : float) : bool :=
  match x with
  | S754_finite true _ _ | S754_infinity true => true
  | _ => false
  end.

(** A canonical mantissa and exponent, in arithmetic terms: at most 53
    digits, exactly 53 above the smallest exponent. *)
Definition canon (m : positive) (e : Z) : Prop :=
  Z.pos m < 2 ^ 53 /\ -1074 <= e /\ (2 ^ 52 <= Z.pos m \/ e = -1074).

(** A float that the format can hold. *)
Definition valid (x : float) : Prop :=
  valid_binary F64.prec F64.emax x = true.

(** The order of the magnitudes of two canonical floats, read on the
    exponents first. *)
Definition mag_le (m1 : positive) (e1 : Z) (m2 : positive) (e2 : Z) : Prop :=
  e1 < e2 \/ (e1 = e2 /\ (m1 <= m2)%positive).

(** Zero, a positive number or +inf. *)
Definition nonneg (x : float) : bool :=
  match x with
  | S754_zero _ | S754_finite false _ _ | S754_infinity false => true
  | _ => false
  end.

(** A number or -inf: neither NaN nor +inf. *)
Definition below_inf (x : float) : bool :=
  match x with
  | S754_zero _ | S754_finite _ _ _ | S754_infinity true => true
  | _ => false
  end.

(** A kernel whose entries are numbers of the format, none negative. *)
Definition nonneg_kernel (correlation : ndarray) : Prop :=
  all_cells (fun c => valid c /\ finite c = true /\ nonneg c = true)
            correlation.

(** A square kernel of odd side. *)
Definition square_odd (correlation : ndarray) : Prop :=
  exists k, shape correlation = (2 * k + 1, 2 * k + 1).

(** A spike that is not negative is not followed by a larger one. *)
Definition no_rise (spikes : list spike) : Prop :=
  forall i a b,
    spikes !! i = Some a -> spikes !! S i = Some b ->
    F64.leb F64.zero (value a) = true ->
    F64.leb (value b) (value a) = true.

(** Response maps whose cells are, beyond finite, numbers that the format
    can hold (a canonical mantissa and exponent). *)
Definition representable_images (spike_images : list ndarray) : Prop :=
  Forall (all_cells valid) spike_images.

(** Line 91 on one cell: a zero becomes the sentinel -inf. *)
Definition sentinel (x : float) : float :=
  if F64.eqb x F64.zero then F64.neg_inf else x.

(** Maps of one shape: every map is a full [H] by [W] array. *)
Definition same_shape (H W : Z) (spike_images : list ndarray) : Prop :=
  Forall (fun image => shape image = (H, W) /\ rectangular image)
         spike_images.

(** A spike as the caller reads it: a layer among the four, an index into
    an [H] by [W] map, and a value that is not an infinity. *)
Definition well_formed (H W : Z) (s : spike) : Prop :=
  0 <= channel s <= 3 /\ 0 <= local_index s < H * W /\
  F64.eqb (value s) F64.inf = false /\
  F64.eqb (value s) F64.neg_inf = false.

(** The cell that a spike names: in the map of its layer, at the row and
    the column of its index ([idx2coord(local_index, width)]). *)
Definition named_cell (W : Z) (spike_images : list ndarray) (s : spike)
  : option float :=
  match spike_images !! Z.to_nat (channel s) with
  | Some image =>
      get2 image (Z.to_nat (local_index s / W))
                 (Z.to_nat (local_index s mod W))
  | None => None
  end.

(** What identifies a spike: its layer and its index. *)
Definition key (s : spike) : Z * Z := (channel s, local_index s).

(** The indices of the non-zero cells of a flattened map, counted from
    [k]. *)
Fixpoint nonzero_from (k : Z) (l : list float) : list Z :=
  match l with
  | [] => []
  | x :: l' =>
      if F64.neqb x F64.zero then k :: nonzero_from (k + 1) l'
      else nonzero_from (k + 1) l'
  end.

(** The (layer, index) pairs of the non-zero cells of the maps, the
    layers counted from [c]. *)
Fixpoint keys_from (c : Z) (spike_images : list ndarray) : list (Z * Z) :=
  match spike_images with
  | [] => []
  | image :: rest =>
      map (pair c) (nonzero_from 0 (concat image)) ++ keys_from (c + 1) rest
  end.

(** ** Concrete inputs of the scenarios *)

Module Scenario.

(** A 3 by 3 kernel with [c] at its centre and zeros around it. *)
Definition kernel (c : float) : ndarray :=
  [[F64.zero; F64.zero; F64.zero];
   [F64.zero; c; F64.zero];
   [F64.zero; F64.zero; F64.zero]].

(** A 3 by 3 kernel with [c] everywhere. *)
Definition flat_kernel (c : float) : ndarray :=
  [[c; c; c]; [c; c; c]; [c; c; c]].

(** Kernels without cross-talk. *)
Definition no_correlation (a b : Z) : ndarray := kernel F64.zero.

(** Kernels whose only non-zero entry is the centre of the correlation
    of layer 0 with layer 1. *)
Definition layers_0_1 (c : float) (a b : Z) : ndarray :=
  if (a =? 0) && (b =? 1) then kernel c else kernel F64.zero.

(** Kernels of mutual suppression: a 1 at the centre of every kernel. *)
Definition unit_correlation (a b : Z) : ndarray := kernel (F64.of_Z 1).

(** Kernels without a negative entry: 2 at the centre of the correlation
    of layers 1 and 2, zero kernels for a layer with itself, and 1 at
    the centre of every other kernel. *)
Definition mixed_correlation (a b : Z) : ndarray :=
  if (a =? 1) && (b =? 2) then kernel (F64.of_Z 2)
  else if a =? b then kernel F64.zero
  else kernel (F64.of_Z 1).

(** An [h] by [w] map whose only non-zero cell is [v] at [(r, c)]. *)
Definition single_cell (h w : Z) (r c : nat) (v : Z) : ndarray :=
  set2 (zeros (h, w)) r c (F64.of_Z v).

Definition blank (h w : Z) : ndarray := zeros (h, w).

Definition one : float := F64.of_Z 1.
Definition two : float := F64.of_Z 2.

(** 1.25, a fraction above 1. *)
Definition five_quarters : float :=
  S754_finite false 5629499534213120 (-52).

(** The largest power of two among the floats, 2^1023. *)
Definition huge : float := F64.of_Z (2 ^ 1023).

(** A 2 by 2 map. *)
Definition map2 (a b c d : float) : ndarray := [[a; b]; [c; d]].

(** A 4 by 4 composite image of small numbers. *)
Definition image4 : ndarray :=
  let n := F64.of_Z in
  [[n 5; n 6; n 7; n 8];
   [n 1; n 2; n 3; n 4];
   [n 1; n 2; n 1; n 4];
   [n 1; n 2; n 3; n 4]].

(** A 6 by 6 composite image: 5 everywhere, but for 1, -inf, 1, 1 in the
    rows 3-4 and columns 3-4. *)
Definition image6 : ndarray :=
  let n := F64.of_Z in
  [[n 5; n 5; n 5; n 5; n 5; n 5];
   [n 5; n 5; n 5; n 5; n 5; n 5];
   [n 5; n 5; n 5; n 5; n 5; n 5];
   [n 5; n 5; n 5; n 1; F64.neg_inf; n 5];
   [n 5; n 5; n 5; n 1; n 1; n 5];
   [n 5; n 5; n 5; n 5; n 5; n 5]].

End Scenario.

(** ** Coordinates *)

Lemma quadrant_div (H r k : Z) : 0 <= r < H -> 0 <= k -> (r + k * H) / H = k.
Proof.
  intros Hr Hk. rewrite Z.div_add by lia. rewrite Z.div_small by lia. lia.
Qed.

Lemma cell_type_cases (c : Z) : 0 <= c <= 3 ->
  (c / 2 = 0 \/ c / 2 = 1) /\ (c mod 2 = 0 \/ c mod 2 = 1).
Proof.
  intros Hc.
  assert (c = 0 \/ c = 1 \/ c = 2 \/ c = 3) as [->|[->|[->| ->]]] by lia;
    vm_compute; lia.
Qed.

(** * Properties *)

(** ** Arrays *)

Section ArrayFacts.

Implicit Types (a img : ndarray) (i j : nat) (x v : float).

Lemma bind_Ok {A B : Type} (m : result A) (k : A -> result B) (b : B) :
  bind m k = Ok b -> exists r, m = Ok r /\ k r = Ok b.
Proof. destruct m as [r|e]; cbn; [eauto | discriminate]. Qed.

Lemma get2_Some a i j x :
  get2 a i j = Some x <-> exists row, a !! i = Some row /\ row !! j = Some x.
Proof.
  unfold get2. destruct (a !! i) as [row|]; split.
  - eauto.
  - intros (row' & Heq & Hj). congruence.
  - discriminate.
  - intros (row' & Heq & _). discriminate.
Qed.

Lemma get2_set2 a i j v i' j' :
  get2 (set2 a i j v) i' j' =
  (fun x => if (Nat.eqb i i' && Nat.eqb j j')%bool then v else x)
    <$> get2 a i' j'.
Proof.
  unfold set2, get2.
  destruct (a !! i) as [row|] eqn:Hi.
  - destruct (Nat.eqb_spec i i') as [<-|Hne].
    + rewrite list_lookup_insert_eq by (eapply lookup_lt_Some; eassumption).
      rewrite Hi. cbn [andb].
      destruct (Nat.eqb_spec j j') as [<-|Hnj].
      * destruct (row !! j) as [x|] eqn:Hj.
        -- rewrite list_lookup_insert_eq
             by (eapply lookup_lt_Some; eassumption).
           reflexivity.
        -- rewrite list_insert_ge by (apply lookup_ge_None; assumption).
           rewrite Hj. reflexivity.
      * rewrite list_lookup_insert_ne by assumption.
        destruct (row !! j'); reflexivity.
    + rewrite list_lookup_insert_ne by assumption. cbn [andb].
      destruct (a !! i') as [row'|]; [|reflexivity].
      destruct (row' !! j'); reflexivity.
  - destruct (Nat.eqb_spec i i') as [<-|Hne].
    + rewrite Hi. reflexivity.
    + cbn [andb]. destruct (a !! i') as [row'|]; [|reflexivity].
      destruct (row' !! j'); reflexivity.
Qed.

Lemma shape_set2 a i j v : shape (set2 a i j v) = shape a.
Proof.
  unfold set2. destruct (a !! i) as [row|] eqn:Hi; [|reflexivity].
  unfold shape. rewrite length_insert. f_equal.
  destruct a as [|r0 a']; [reflexivity|].
  destruct i as [|i]; cbn in *.
  - injection Hi as ->. rewrite length_insert. reflexivity.
  - reflexivity.
Qed.

Lemma get2_map_cells g a i j :
  get2 (map_cells g a) i j = g i j <$> get2 a i j.
Proof.
  unfold get2, map_cells. rewrite list_lookup_imap.
  destruct (a !! i) as [row|]; cbn; [|reflexivity].
  apply list_lookup_imap.
Qed.

Lemma shape_map_cells g a : shape (map_cells g a) = shape a.
Proof.
  unfold shape, map_cells. rewrite length_imap. f_equal.
  destruct a as [|r0 a']; [reflexivity|]. cbn. rewrite length_imap.
  reflexivity.
Qed.

Lemma map_cells_id g a :
  (forall i j x, get2 a i j = Some x -> g i j x = x) -> map_cells g a = a.
Proof.
  intros Hid. apply list_eq. intros i. unfold map_cells.
  rewrite list_lookup_imap.
  destruct (a !! i) as [row|] eqn:Hi; cbn; [|reflexivity].
  f_equal. apply list_eq. intros j. rewrite list_lookup_imap.
  destruct (row !! j) as [x|] eqn:Hj; cbn; [|reflexivity].
  f_equal. apply Hid. apply get2_Some. eauto.
Qed.

Lemma update_window_Ok op img w kr kc rhs img' :
  update_window op img w kr kc rhs = Ok img' ->
  broadcastable kr kc (win_rows w) (win_cols w) = true /\
  img' = map_cells
           (fun i j x =>
              if in_window w (Z.of_nat i) (Z.of_nat j) then
                match get2 rhs (Z.to_nat (bcast kr (Z.of_nat i - lo_r w)))
                               (Z.to_nat (bcast kc (Z.of_nat j - lo_c w)))
                with
                | Some y => op x y
                | None => x
                end
              else x) img.
Proof.
  unfold update_window.
  destruct (broadcastable _ _ _ _); [|discriminate].
  intros [= <-]. split; reflexivity.
Qed.

(** Writing through a list of indices. *)
Lemma mem_cons_pair (i j i0 j0 : nat) (idx : list (nat * nat)) :
  bool_decide ((i, j) ∈ (i0, j0) :: idx) =
  ((Nat.eqb i0 i && Nat.eqb j0 j) || bool_decide ((i, j) ∈ idx))%bool.
Proof.
  destruct (Nat.eqb_spec i0 i) as [->|Hi];
    [destruct (Nat.eqb_spec j0 j) as [->|Hj]|]; cbn [andb orb].
  - apply bool_decide_eq_true_2. left.
  - apply bool_decide_ext. rewrite elem_of_cons. split; [|auto].
    intros [[= ?]|?]; [congruence | assumption].
  - apply bool_decide_ext. rewrite elem_of_cons. split; [|auto].
    intros [[= ? ?]|?]; [congruence | assumption].
Qed.

Lemma get2_fancy_set a idx v i j :
  get2 (fancy_set a idx v) i j =
  (fun x => if bool_decide ((i, j) ∈ idx) then v else x) <$> get2 a i j.
Proof.
  unfold fancy_set. revert a.
  induction idx as [|[i0 j0] idx IH]; intros a; cbn [foldl fst snd].
  - destruct (get2 a i j); reflexivity.
  - rewrite IH, get2_set2, mem_cons_pair.
    destruct (get2 a i j) as [x|]; cbn; [|reflexivity]. f_equal.
    destruct (Nat.eqb i0 i && Nat.eqb j0 j)%bool,
             (bool_decide ((i, j) ∈ idx)); reflexivity.
Qed.

Lemma shape_fancy_set a idx v : shape (fancy_set a idx v) = shape a.
Proof.
  unfold fancy_set. revert a.
  induction idx as [|ij idx IH]; intros a; cbn [foldl]; [reflexivity|].
  rewrite IH. apply shape_set2.
Qed.

Lemma get2_fancy_isub a idx v i j :
  get2 (fancy_isub a idx v) i j =
  (fun x => if bool_decide ((i, j) ∈ idx) then F64.sub x v else x)
    <$> get2 a i j.
Proof.
  unfold fancy_isub.
  set (step := fun (acc : ndarray) (ij : nat * nat) =>
                 match get2 a (fst ij) (snd ij) with
                 | Some x => set2 acc (fst ij) (snd ij) (F64.sub x v)
                 | None => acc
                 end).
  assert (Hgen : forall acc,
    get2 (foldl step acc idx) i j =
    (fun y => if bool_decide ((i, j) ∈ idx)
              then match get2 a i j with
                   | Some x => F64.sub x v
                   | None => y
                   end
              else y) <$> get2 acc i j).
  { induction idx as [|[i0 j0] idx IH]; intros acc; cbn [foldl].
    - destruct (get2 acc i j); reflexivity.
    - rewrite IH, mem_cons_pair. unfold step. cbn [fst snd].
      destruct (get2 a i0 j0) as [x0|] eqn:H0.
      + rewrite get2_set2.
        destruct (get2 acc i j) as [y|]; cbn; [|reflexivity]. f_equal.
        destruct (Nat.eqb_spec i0 i) as [->|Hi];
          [destruct (Nat.eqb_spec j0 j) as [->|Hj]|]; cbn [andb orb];
          try reflexivity.
        rewrite H0. destruct (bool_decide _); reflexivity.
      + destruct (get2 acc i j) as [y|]; cbn; [|reflexivity]. f_equal.
        destruct (Nat.eqb_spec i0 i) as [->|Hi];
          [destruct (Nat.eqb_spec j0 j) as [->|Hj]|]; cbn [andb orb];
          try reflexivity.
        rewrite H0. destruct (bool_decide _); reflexivity. }
  rewrite Hgen. destruct (get2 a i j); reflexivity.
Qed.

Lemma shape_fancy_isub a idx v : shape (fancy_isub a idx v) = shape a.
Proof.
  unfold fancy_isub.
  assert (Hgen : forall a0 acc,
    shape (foldl (fun acc ij =>
                    match get2 a0 (fst ij) (snd ij) with
                    | Some x => set2 acc (fst ij) (snd ij) (F64.sub x v)
                    | None => acc
                    end) acc idx) = shape acc).
  { intros a0. induction idx as [|ij idx IH]; intros acc; cbn [foldl];
      [reflexivity|].
    rewrite IH. destruct (get2 a0 _ _); [apply shape_set2 | reflexivity]. }
  apply Hgen.
Qed.

End ArrayFacts.

(** ** [numpy.where] and views *)

Section WhereFacts.

Implicit Types (a img : ndarray) (i j p q : nat) (x v : float).

Lemma elem_of_where_eq a v p q :
  (p, q) ∈ where_eq a v <->
  exists x, get2 a p q = Some x /\ F64.eqb x v = true.
Proof.
  unfold where_eq. rewrite list_elem_of_In, in_concat. split.
  - intros (l & Hl & Hpq).
    apply list_elem_of_In, elem_of_lookup_imap in Hl
      as (i & row & -> & Hrow).
    apply list_elem_of_In, list_elem_of_omap in Hpq as (o & Ho & Heq).
    cbn in Heq. subst o.
    apply elem_of_lookup_imap in Ho as (j & x & Hx & Hj).
    destruct (F64.eqb x v) eqn:Hxv; [|discriminate].
    injection Hx as -> ->. exists x. split; [|assumption].
    apply get2_Some. eauto.
  - intros (x & Hget & Hxv). apply get2_Some in Hget as (row & Hrow & Hj).
    eexists. split.
    + apply list_elem_of_In. eapply elem_of_lookup_imap_2. exact Hrow.
    + apply list_elem_of_In, list_elem_of_omap.
      exists (Some (p, q)). split; [|reflexivity].
      apply elem_of_lookup_imap. exists q, x. rewrite Hxv. auto.
Qed.

(** No float compares equal to a NaN, so [numpy.where(a == numpy.nan)]
    never finds a cell. *)
Lemma eqb_nan x : F64.eqb x F64.nan = false.
Proof. destruct x; reflexivity. Qed.

Lemma where_eq_nan a : where_eq a F64.nan = [].
Proof.
  apply elem_of_nil_inv. intros [p q] Hin.
  apply elem_of_where_eq in Hin as (x & _ & Hx).
  rewrite eqb_nan in Hx. discriminate.
Qed.

Lemma where_eq_none a v :
  (forall p q x, get2 a p q = Some x -> F64.eqb x v = false) ->
  where_eq a v = [].
Proof.
  intros Hno. apply elem_of_nil_inv. intros [p q] Hin.
  apply elem_of_where_eq in Hin as (x & Hget & Hx).
  rewrite (Hno _ _ _ Hget) in Hx. discriminate.
Qed.

Lemma get2_view a (w : window) p q :
  0 <= lo_r w -> 0 <= lo_c w ->
  get2 (view a w) p q =
  if (Z.of_nat p <? win_rows w) && (Z.of_nat q <? win_cols w)
  then get2 a (Z.to_nat (lo_r w) + p) (Z.to_nat (lo_c w) + q)
  else None.
Proof.
  intros Hr Hc. unfold view, get2.
  rewrite list_lookup_fmap.
  destruct (Z.ltb_spec (Z.of_nat p) (win_rows w)) as [Hp|Hp]; cbn [andb].
  - rewrite lookup_take_lt by lia. rewrite lookup_drop.
    destruct (a !! _) as [row|]; cbn;
      [|destruct (_ <? _); reflexivity].
    destruct (Z.ltb_spec (Z.of_nat q) (win_cols w)) as [Hq|Hq].
    + rewrite lookup_take_lt by lia. apply lookup_drop.
    + apply lookup_take_ge. lia.
  - rewrite lookup_take_ge by lia. reflexivity.
Qed.

Lemma sub_zero_inf : F64.sub F64.zero F64.inf = F64.neg_inf.
Proof. reflexivity. Qed.

(** What lines 223-226 (and 228-230) do to the image: every index
    found in the region is a position of the whole image. *)
Lemma get2_mark_weird img z v i j :
  get2 (mark_weird img z v) i j =
  (fun x => if bool_decide ((i, j) ∈ where_eq (view img (img_window img z)) v)
            then F64.neg_inf else x) <$> get2 img i j.
Proof.
  unfold mark_weird. rewrite get2_fancy_isub, get2_fancy_set.
  destruct (get2 img i j) as [x|]; cbn; [|reflexivity].
  destruct (bool_decide _); reflexivity.
Qed.

Lemma shape_mark_weird img z v : shape (mark_weird img z v) = shape img.
Proof.
  unfold mark_weird. rewrite shape_fancy_isub. apply shape_fancy_set.
Qed.

Lemma mark_weird_nan img z : mark_weird img z F64.nan = img.
Proof. unfold mark_weird. rewrite where_eq_nan. reflexivity. Qed.

End WhereFacts.

(** ** The zone of a correction inside the composite image *)

Section ZoneFacts.

(** The composite image of four [H] by [W] layers, and a position in it. *)
Variables (H W : Z) (img correlation : ndarray) (max_idx : Z).
Hypothesis H_pos : 0 < H.
Hypothesis W_pos : 0 < W.
Hypothesis img_shape : shape img = (H * 2, W * 2).
Hypothesis idx_range : 0 <= max_idx < (H * 2) * (W * 2).

Let z := correlation_zone img correlation max_idx.
Let h := fst (shape correlation) / 2.

Lemma half_width_nonneg : 0 <= h.
Proof. subst h. unfold shape. cbn [fst]. apply Z.div_pos; lia. Qed.

Lemma zone_unfold :
  z = let row := max_idx / (W * 2) in
      let col := max_idx mod (W * 2) in
      let up := row / H * H in
      let left := col / W * W in
      let down := (row / H + 1) * H in
      let right := (col / W + 1) * W in
      let max_r := Z.min (down - 1) (row + h + 1) in
      let max_c := Z.min (right - 1) (col + h + 1) in
      let min_r := Z.max up (row - h) in
      let min_c := Z.max left (col - h) in
      Zone row col up left down right max_r max_c min_r min_c
           (h - (row - min_r)) (h - (col - min_c))
           (h + (max_r - row)) (h + (max_c - col)).
Proof.
  subst z h. unfold correlation_zone. rewrite img_shape.
  unfold idx2coord. rewrite !Z.div_mul by lia. reflexivity.
Qed.

Lemma zone_position :
  zone_row z = max_idx / (W * 2) /\ zone_col z = max_idx mod (W * 2) /\
  0 <= zone_row z < H * 2 /\ 0 <= zone_col z < W * 2.
Proof.
  rewrite zone_unfold. cbn [zone_row zone_col].
  repeat split; try reflexivity.
  - apply Z.div_pos; lia.
  - apply Z.div_lt_upper_bound; lia.
  - apply Z.mod_pos_bound; lia.
  - apply Z.mod_pos_bound; lia.
Qed.

(** The quadrant of the position: its limits are multiples of the layer
    size and enclose the position. *)
Lemma zone_quadrant :
  (up_lim z = 0 \/ up_lim z = H) /\ down_lim z = up_lim z + H /\
  up_lim z <= zone_row z < down_lim z /\
  (left_lim z = 0 \/ left_lim z = W) /\ right_lim z = left_lim z + W /\
  left_lim z <= zone_col z < right_lim z.
Proof.
  destruct zone_position as (Hr & Hc & Hrow & Hcol).
  rewrite Hr in Hrow. rewrite Hc in Hcol.
  rewrite zone_unfold. cbn [up_lim down_lim left_lim right_lim zone_row zone_col].
  set (row := max_idx / (W * 2)) in *. set (col := max_idx mod (W * 2)) in *.
  assert (Hqr : 0 <= row / H < 2).
  { split; [apply Z.div_pos; lia | apply Z.div_lt_upper_bound; lia]. }
  assert (Hqc : 0 <= col / W < 2).
  { split; [apply Z.div_pos; lia | apply Z.div_lt_upper_bound; lia]. }
  pose proof (Z.mul_div_le row H H_pos).
  pose proof (Z.mul_succ_div_gt row H H_pos).
  pose proof (Z.mul_div_le col W W_pos).
  pose proof (Z.mul_succ_div_gt col W W_pos).
  repeat split; try lia.
  - assert (row / H = 0 \/ row / H = 1) as [-> | ->] by lia; lia.
  - assert (col / W = 0 \/ col / W = 1) as [-> | ->] by lia; lia.
Qed.

(** The region of the image: clipped to the quadrant, and short of its
    last row and last column. *)
Lemma zone_image_region :
  min_img_row z = Z.max (up_lim z) (zone_row z - h) /\
  max_img_row z = Z.min (down_lim z - 1) (zone_row z + h + 1) /\
  min_img_col z = Z.max (left_lim z) (zone_col z - h) /\
  max_img_col z = Z.min (right_lim z - 1) (zone_col z + h + 1).
Proof. rewrite zone_unfold. cbn. repeat split; reflexivity. Qed.

Lemma zone_kernel_region :
  min_knl_row z = h - (zone_row z - min_img_row z) /\
  max_knl_row z = h + (max_img_row z - zone_row z) /\
  min_knl_col z = h - (zone_col z - min_img_col z) /\
  max_knl_col z = h + (max_img_col z - zone_col z).
Proof. rewrite zone_unfold. cbn. repeat split; reflexivity. Qed.

Lemma slice_bound_id (n b : Z) : 0 <= b <= n -> slice_bound n b = b.
Proof. intros Hb. unfold slice_bound. destruct (Z.ltb_spec b 0); lia. Qed.

(** No bound of the image slice needs clipping. *)
Lemma img_window_eq :
  img_window img z =
  Window (min_img_row z) (max_img_row z) (min_img_col z) (max_img_col z).
Proof.
  pose proof half_width_nonneg as Hh.
  destruct zone_quadrant as (Hup & Hdown & Hrow & Hleft & Hright & Hcol).
  destruct zone_image_region as (Hminr & Hmaxr & Hminc & Hmaxc).
  unfold img_window, slice. rewrite img_shape.
  rewrite !slice_bound_id by lia. reflexivity.
Qed.

Lemma img_window_rows :
  win_rows (img_window img z) = max_img_row z - min_img_row z /\
  win_cols (img_window img z) = max_img_col z - min_img_col z /\
  0 <= max_img_row z - min_img_row z <= H - 1 /\
  0 <= max_img_col z - min_img_col z <= W - 1.
Proof.
  pose proof half_width_nonneg as Hh.
  destruct zone_quadrant as (Hup & Hdown & Hrow & Hleft & Hright & Hcol).
  destruct zone_image_region as (Hminr & Hmaxr & Hminc & Hmaxc).
  rewrite img_window_eq. unfold win_rows, win_cols. cbn [lo_r hi_r lo_c hi_c].
  lia.
Qed.

(** The facts about the zone that the later proofs use. *)
Lemma zone_spec :
  (0 <= zone_row z < H * 2 /\ 0 <= zone_col z < W * 2) /\
  ((up_lim z = 0 \/ up_lim z = H) /\ down_lim z = up_lim z + H /\
   up_lim z <= zone_row z < down_lim z) /\
  ((left_lim z = 0 \/ left_lim z = W) /\ right_lim z = left_lim z + W /\
   left_lim z <= zone_col z < right_lim z) /\
  (min_img_row z = Z.max (up_lim z) (zone_row z - h) /\
   max_img_row z = Z.min (down_lim z - 1) (zone_row z + h + 1) /\
   min_img_col z = Z.max (left_lim z) (zone_col z - h) /\
   max_img_col z = Z.min (right_lim z - 1) (zone_col z + h + 1)) /\
  img_window img z =
    Window (min_img_row z) (max_img_row z) (min_img_col z) (max_img_col z) /\
  0 <= h.
Proof.
  destruct zone_position as (_ & _ & Hrow & Hcol).
  destruct zone_quadrant as (Hup & Hdown & Hr & Hleft & Hright & Hc).
  pose proof zone_image_region. pose proof img_window_eq.
  pose proof half_width_nonneg. tauto.
Qed.

(** A square kernel of odd side: the slice of the kernel has the shape
    of the slice of the image. *)
Lemma knl_window_eq (k : Z) :
  shape correlation = (2 * k + 1, 2 * k + 1) ->
  knl_window correlation z =
  Window (min_knl_row z) (max_knl_row z) (min_knl_col z) (max_knl_col z) /\
  max_knl_row z - min_knl_row z = max_img_row z - min_img_row z /\
  max_knl_col z - min_knl_col z = max_img_col z - min_img_col z /\
  0 <= min_knl_row z /\ 0 <= min_knl_col z.
Proof.
  intros Hshape.
  assert (Hk : h = k).
  { subst h. rewrite Hshape. cbn [fst].
    assert (0 <= 2 * k + 1).
    { pose proof (f_equal fst Hshape) as Hf. unfold shape in Hf.
      cbn [fst] in Hf. lia. }
    rewrite Z.mul_comm, Z.div_add_l by lia. rewrite Z.div_small; lia. }
  pose proof half_width_nonneg as Hh.
  destruct zone_quadrant as (Hup & Hdown & Hrow & Hleft & Hright & Hcol).
  destruct zone_image_region as (Hminr & Hmaxr & Hminc & Hmaxc).
  destruct zone_kernel_region as (Hkminr & Hkmaxr & Hkminc & Hkmaxc).
  unfold knl_window, slice. rewrite Hshape.
  rewrite !slice_bound_id by lia. repeat split; lia.
Qed.

End ZoneFacts.

(** ** One call of [adjust_with_correlation] *)

Section AdjustFacts.

Variables (H W : Z) (img correlation : ndarray) (max_idx : Z).
Variable max_val : float.
Hypothesis H_pos : 0 < H.
Hypothesis W_pos : 0 < W.
Hypothesis img_shape : shape img = (H * 2, W * 2).
Hypothesis idx_range : 0 <= max_idx < (H * 2) * (W * 2).

Let z := correlation_zone img correlation max_idx.

Lemma img_window_shape (a b : ndarray) (z0 : zone) :
  shape a = shape b -> img_window a z0 = img_window b z0.
Proof. intros Heq. unfold img_window, slice. rewrite Heq. reflexivity. Qed.

Lemma index_in_range (n i : Z) : 0 <= i < n -> index n i = Ok (Z.to_nat i).
Proof.
  intros Hi. unfold index.
  destruct (Z.leb_spec 0 i); [|lia]. destruct (Z.ltb_spec i n); [|lia].
  reflexivity.
Qed.

(** The subtraction rewrites the cells of the region and nothing else. *)
Lemma subtract_correlation_Ok (img1 : ndarray) :
  subtract_correlation img correlation z max_val = Ok img1 ->
  shape img1 = shape img /\
  forall i j,
    get2 img1 i j =
    (fun x =>
       if in_window (img_window img z) (Z.of_nat i) (Z.of_nat j) then
         let kw := knl_window correlation z in
         match get2 (scale max_val (view correlation kw))
                 (Z.to_nat (bcast (win_rows kw)
                    (Z.of_nat i - lo_r (img_window img z))))
                 (Z.to_nat (bcast (win_cols kw)
                    (Z.of_nat j - lo_c (img_window img z)))) with
         | Some y => F64.sub x y
         | None => x
         end
       else x) <$> get2 img i j.
Proof.
  unfold subtract_correlation, isub_window. intros Hok.
  apply update_window_Ok in Hok as [_ ->]. split.
  - apply shape_map_cells.
  - intros i j. apply get2_map_cells.
Qed.

(** The indices that [numpy.where] finds in the region lie within the
    extent of the region, counted from the corner of the image. *)
Lemma where_in_region (a : ndarray) (v : float) (p q : nat) :
  shape a = shape img ->
  (p, q) ∈ where_eq (view a (img_window a z)) v ->
  Z.of_nat p < max_img_row z - min_img_row z /\
  Z.of_nat q < max_img_col z - min_img_col z /\
  exists x, get2 a (Z.to_nat (min_img_row z) + p)
                   (Z.to_nat (min_img_col z) + q) = Some x /\
            F64.eqb x v = true.
Proof.
  intros Hshape Hin.
  destruct (zone_spec H W img correlation max_idx H_pos W_pos
              img_shape idx_range)
    as (_ & (Hup & Hdown & Hrow) & (Hleft & Hright & Hcol) &
        (Hminr & Hmaxr & Hminc & Hmaxc) & Hweq & Hh).
  fold z in Hup, Hdown, Hrow, Hleft, Hright, Hcol, Hminr, Hmaxr, Hminc,
    Hmaxc, Hweq.
  rewrite (img_window_shape a img z Hshape) in Hin.
  apply elem_of_where_eq in Hin as (x & Hget & Hx).
  rewrite get2_view in Hget by (rewrite Hweq; cbn [lo_r lo_c]; lia).
  rewrite Hweq in Hget. unfold win_rows, win_cols in Hget.
  cbn [lo_r hi_r lo_c hi_c] in Hget.
  rewrite !Z.max_r in Hget by lia.
  destruct (Z.ltb_spec (Z.of_nat p) (max_img_row z - min_img_row z));
    [|discriminate].
  destruct (Z.ltb_spec (Z.of_nat q) (max_img_col z - min_img_col z));
    [|discriminate].
  cbn [andb] in Hget. eauto.
Qed.

(** The stages of a call that returns. *)
Lemma adjust_with_correlation_Ok (is_max_val_layer : bool)
    (img' : ndarray) :
  adjust_with_correlation img correlation max_idx max_val is_max_val_layer
    = Ok img' ->
  exists img1,
    subtract_correlation img correlation z max_val = Ok img1 /\
    let img2 := mark_weird img1 z F64.inf in
    if is_max_val_layer then
      exists x,
        get2 img2 (Z.to_nat (zone_row z)) (Z.to_nat (zone_col z)) = Some x /\
        img' = set2 img2 (Z.to_nat (zone_row z)) (Z.to_nat (zone_col z))
                    (F64.sub x F64.inf)
    else img' = img2.
Proof.
  unfold adjust_with_correlation. fold z. intros Hok.
  apply bind_Ok in Hok as (img1 & Hsub & Hrest).
  exists img1. split; [assumption|]. cbn zeta.
  rewrite mark_weird_nan in Hrest.
  destruct is_max_val_layer; [|congruence].
  destruct (subtract_correlation_Ok img1 Hsub) as [Hshape _].
  destruct (zone_spec H W img correlation max_idx H_pos W_pos
              img_shape idx_range) as ((Hrow & Hcol) & _).
  fold z in Hrow, Hcol.
  unfold isub_item in Hrest. cbn [fst snd] in Hrest.
  rewrite shape_mark_weird, Hshape, img_shape in Hrest.
  cbn [fst snd] in Hrest.
  rewrite !index_in_range in Hrest by assumption. cbn [bind] in Hrest.
  destruct (get2 _ _ _) as [x|]; [|discriminate].
  exists x. split; [reflexivity | congruence].
Qed.

End AdjustFacts.

Lemma get2_in_range (a : ndarray) (n m : Z) (i j : nat) :
  rectangular a -> shape a = (n, m) ->
  Z.of_nat i < n -> Z.of_nat j < m -> exists x, get2 a i j = Some x.
Proof.
  intros Hrect Hshape Hi Hj.
  pose proof (f_equal fst Hshape) as Hn. cbn [fst shape] in Hn.
  destruct (lookup_lt_is_Some_2 a i) as [row Hrow]; [lia|].
  unfold rectangular in Hrect. rewrite Forall_forall in Hrect.
  pose proof (Hrect row (list_elem_of_lookup_2 _ _ _ Hrow)) as Hlen.
  rewrite Hshape in Hlen. cbn [snd] in Hlen.
  destruct (lookup_lt_is_Some_2 row j) as [x Hx]; [lia|].
  exists x. apply get2_Some. eauto.
Qed.

(** A call on a composite image with a square kernel of odd side returns. *)
Lemma adjust_with_correlation_returns (H W k : Z) (img correlation : ndarray)
    (max_idx : Z) (max_val : float) (is_max_val_layer : bool) :
  0 < H -> 0 < W -> shape img = (H * 2, W * 2) -> rectangular img ->
  0 <= max_idx < (H * 2) * (W * 2) ->
  shape correlation = (2 * k + 1, 2 * k + 1) ->
  exists img',
    adjust_with_correlation img correlation max_idx max_val is_max_val_layer
    = Ok img'.
Proof.
  intros H_pos W_pos img_shape Hrect idx_range Hknl.
  set (z := correlation_zone img correlation max_idx).
  destruct (zone_spec H W img correlation max_idx H_pos W_pos
              img_shape idx_range)
    as ((Hrow & Hcol) & _ & _ & _ & Hweq & _).
  destruct (knl_window_eq H W img correlation max_idx H_pos W_pos
              img_shape idx_range k Hknl) as (Hkw & Hkr & Hkc & _).
  destruct (img_window_rows H W img correlation max_idx H_pos W_pos
              img_shape idx_range) as (Hwr & Hwc & Hr & Hc).
  fold z in Hrow, Hcol, Hweq, Hkw, Hkr, Hkc, Hwr, Hwc, Hr, Hc.
  assert (Hsub : exists img1,
             subtract_correlation img correlation z max_val = Ok img1).
  { unfold subtract_correlation, isub_window, update_window.
    assert (Hb : broadcastable (win_rows (knl_window correlation z))
                   (win_cols (knl_window correlation z))
                   (win_rows (img_window img z))
                   (win_cols (img_window img z)) = true).
    { rewrite Hwr, Hwc, Hkw. unfold win_rows, win_cols, broadcastable.
      cbn [lo_r hi_r lo_c hi_c].
      rewrite !Z.max_r by lia. rewrite Hkr, Hkc, !Z.eqb_refl. reflexivity. }
    rewrite Hb. eauto. }
  destruct Hsub as [img1 Hsub].
  unfold adjust_with_correlation. fold z. rewrite Hsub. cbn [bind].
  rewrite mark_weird_nan.
  destruct is_max_val_layer; [|eauto].
  destruct (subtract_correlation_Ok img correlation max_idx max_val img1 Hsub)
    as [Hshape Hcells].
  unfold isub_item. cbn [fst snd].
  rewrite shape_mark_weird, Hshape, img_shape. cbn [fst snd].
  rewrite !index_in_range by assumption. cbn [bind].
  destruct (get2_in_range img (H * 2) (W * 2) (Z.to_nat (zone_row z))
              (Z.to_nat (zone_col z)) Hrect img_shape) as [x Hx]; [lia..|].
  rewrite get2_mark_weird, Hcells, Hx. cbn. eauto.
Qed.

(** C10.  The correlation subtraction of [adjust_with_correlation] never
    modifies the last row or the last column of the target quadrant: the
    exclusive upper bounds of its window are
    [min(down_lim - 1, row + half + 1)] and
    [min(right_lim - 1, col + half + 1)], so for every position of the
    spike and every kernel the cells of the bottom row and of the
    rightmost column of the quadrant come out of the subtraction
    unchanged, and out of the whole call as well unless the cell is the
    spike's own cell being marked; with a square kernel of odd side the
    call does return. *)
Theorem subtraction_spares_last_row_and_column
    (H W : Z) (img correlation : ndarray) (max_idx : Z) (max_val : float)
    (is_max_val_layer : bool) :
  0 < H -> 0 < W -> shape img = (H * 2, W * 2) -> rectangular img ->
  0 <= max_idx < (H * 2) * (W * 2) ->
  let z := correlation_zone img correlation max_idx in
  let half := fst (shape correlation) / 2 in
  let last_row_or_column (i j : nat) :=
    (Z.of_nat i = down_lim z - 1 /\ left_lim z <= Z.of_nat j < right_lim z) \/
    (Z.of_nat j = right_lim z - 1 /\ up_lim z <= Z.of_nat i < down_lim z) in
  hi_r (img_window img z) = Z.min (down_lim z - 1) (zone_row z + half + 1) /\
  hi_c (img_window img z) = Z.min (right_lim z - 1) (zone_col z + half + 1) /\
  (forall img1,
      subtract_correlation img correlation z max_val = Ok img1 ->
      forall i j, last_row_or_column i j -> get2 img1 i j = get2 img i j) /\
  (forall img',
      adjust_with_correlation img correlation max_idx max_val
                              is_max_val_layer = Ok img' ->
      forall i j, last_row_or_column i j ->
        (is_max_val_layer = true ->
         (Z.of_nat i, Z.of_nat j) <> (zone_row z, zone_col z)) ->
        get2 img' i j = get2 img i j) /\
  (forall k, shape correlation = (2 * k + 1, 2 * k + 1) ->
     exists img',
       adjust_with_correlation img correlation max_idx max_val
                               is_max_val_layer = Ok img').
Proof.
  intros H_pos W_pos img_shape Hrect idx_range z half last.
  destruct (zone_spec H W img correlation max_idx H_pos W_pos
              img_shape idx_range)
    as ((Hrow & Hcol) & (Hup & Hdown & Hr) & (Hleft & Hright & Hc) &
        (Hminr & Hmaxr & Hminc & Hmaxc) & Hweq & Hh).
  fold z in Hrow, Hcol, Hup, Hdown, Hr, Hleft, Hright, Hc, Hminr, Hmaxr,
    Hminc, Hmaxc, Hweq.
  assert (Hout : forall i j, last i j ->
            in_window (img_window img z) (Z.of_nat i) (Z.of_nat j) = false).
  { intros i j Hij. rewrite Hweq. unfold in_window. cbn [lo_r hi_r lo_c hi_c].
    destruct Hij as [[Hi _]|[Hj _]].
    - destruct (Z.ltb_spec (Z.of_nat i) (max_img_row z)); [lia|].
      rewrite andb_false_r. reflexivity.
    - destruct (Z.ltb_spec (Z.of_nat j) (max_img_col z)); [lia|].
      rewrite andb_false_r. reflexivity. }
  assert (Hsubtract : forall img1,
            subtract_correlation img correlation z max_val = Ok img1 ->
            forall i j, last i j -> get2 img1 i j = get2 img i j).
  { intros img1 Hsub i j Hij.
    destruct (subtract_correlation_Ok img correlation max_idx max_val img1 Hsub)
      as [_ Hcells].
    fold z in Hcells. rewrite Hcells, (Hout i j Hij).
    destruct (get2 img i j); reflexivity. }
  split; [rewrite Hweq; exact Hmaxr|].
  split; [rewrite Hweq; exact Hmaxc|].
  split; [exact Hsubtract|]. split.
  - intros img' Hok i j Hij Hown.
    destruct (adjust_with_correlation_Ok H W img correlation max_idx max_val
                H_pos W_pos img_shape idx_range is_max_val_layer img' Hok)
      as (img1 & Hsub & Hlast).
    fold z in Hsub, Hlast. cbn zeta in Hlast.
    destruct (subtract_correlation_Ok img correlation max_idx max_val img1 Hsub)
      as [Hshape _].
    assert (Hweird : get2 (mark_weird img1 z F64.inf) i j = get2 img i j).
    { rewrite get2_mark_weird, (Hsubtract img1 Hsub i j Hij).
      rewrite bool_decide_eq_false_2;
        [destruct (get2 img i j); reflexivity|].
      intros Hin.
      destruct (where_in_region H W img correlation max_idx H_pos W_pos
                  img_shape idx_range img1 F64.inf i j Hshape Hin)
        as (Hp & Hq & _).
      fold z in Hp, Hq. destruct Hij as [[Hi _]|[Hj _]]; lia. }
    destruct is_max_val_layer.
    + destruct Hlast as (x & _ & ->). rewrite get2_set2.
      specialize (Hown eq_refl).
      destruct (Nat.eqb_spec (Z.to_nat (zone_row z)) i) as [Hi|Hi];
        [destruct (Nat.eqb_spec (Z.to_nat (zone_col z)) j) as [Hj|Hj]|];
        cbn [andb].
      * exfalso. apply Hown. f_equal; lia.
      * rewrite Hweird. destruct (get2 img i j); reflexivity.
      * rewrite Hweird. destruct (get2 img i j); reflexivity.
    + subst img'. exact Hweird.
  - intros k Hknl.
    exact (adjust_with_correlation_returns H W k img correlation max_idx
             max_val is_max_val_layer H_pos W_pos img_shape Hrect idx_range
             Hknl).
Qed.

(** ** Kernels without cross-talk *)

Section ZeroKernel.

Lemma mul_finite_zero (v : float) (s : bool) :
  finite v = true -> exists s', F64.mul v (S754_zero s) = S754_zero s'.
Proof. destruct v; cbn; try discriminate; eauto. Qed.

Lemma sub_any_zero (x : float) (s : bool) :
  x <> S754_zero true -> F64.sub x (S754_zero s) = x.
Proof.
  intros Hx. destruct x as [[]|[]| |]; try reflexivity.
  - congruence.
  - destruct s; reflexivity.
Qed.

Lemma get2_scale (v : float) (a : ndarray) (p q : nat) :
  get2 (scale v a) p q = F64.mul v <$> get2 a p q.
Proof.
  unfold scale, get2. rewrite list_lookup_fmap.
  destruct (a !! p) as [row|]; cbn; [|reflexivity].
  apply list_lookup_fmap.
Qed.

Lemma get2_view_cell (a : ndarray) (w : window) (p q : nat) (y : float) :
  get2 (view a w) p q = Some y -> exists i j, get2 a i j = Some y.
Proof.
  unfold view. intros Hget.
  apply get2_Some in Hget as (row & Hrow & Hy).
  rewrite list_lookup_fmap in Hrow.
  destruct (take _ (drop _ a) !! p) as [row0|] eqn:Hrow0; [|discriminate].
  injection Hrow as <-. cbn beta in Hy.
  apply lookup_take_Some in Hrow0 as [Hrow0 _].
  apply lookup_take_Some in Hy as [Hy _].
  rewrite lookup_drop in Hrow0. rewrite lookup_drop in Hy.
  eexists _, _. apply get2_Some. eauto.
Qed.

Variables (H W : Z) (img correlation : ndarray) (max_idx : Z).
Variable max_val : float.
Hypothesis H_pos : 0 < H.
Hypothesis W_pos : 0 < W.
Hypothesis img_shape : shape img = (H * 2, W * 2).
Hypothesis img_rect : rectangular img.
Hypothesis idx_range : 0 <= max_idx < (H * 2) * (W * 2).
Hypothesis knl_zero : zero_kernel correlation.
Hypothesis val_finite : finite max_val = true.
Hypothesis img_clean : all_cells clean img.

Let z := correlation_zone img correlation max_idx.

(** Without cross-talk the subtraction leaves every cell as it was. *)
Lemma subtract_zero_kernel :
  subtract_correlation img correlation z max_val = Ok img.
Proof.
  destruct knl_zero as [[k Hk] Hcells].
  destruct (adjust_with_correlation_returns H W k img correlation max_idx
              max_val false H_pos W_pos img_shape img_rect idx_range Hk)
    as [img' Hok].
  apply adjust_with_correlation_Ok with (H := H) (W := W) in Hok;
    try assumption.
  destruct Hok as (img1 & Hsub & _). fold z in Hsub. rewrite Hsub.
  f_equal. revert Hsub.
  unfold subtract_correlation, isub_window. intros Hsub.
  apply update_window_Ok in Hsub as [_ ->].
  apply map_cells_id. intros i j x Hx.
  destruct (in_window _ _ _); [|reflexivity].
  destruct (get2 (scale _ _) _ _) as [y|] eqn:Hy; [|reflexivity].
  rewrite get2_scale in Hy.
  destruct (get2 (view _ _) _ _) as [c|] eqn:Hc; [|discriminate].
  injection Hy as <-.
  apply get2_view_cell in Hc as (i0 & j0 & Hc).
  destruct (Hcells _ _ _ Hc) as [s ->].
  destruct (mul_finite_zero max_val s val_finite) as [s' ->].
  apply sub_any_zero. exact (proj1 (img_clean _ _ _ Hx)).
Qed.

Lemma mark_inf_clean : mark_weird img z F64.inf = img.
Proof.
  unfold mark_weird. rewrite where_eq_none; [reflexivity|].
  intros p q x Hx. apply get2_view_cell in Hx as (i & j & Hx).
  destruct (img_clean _ _ _ Hx) as [_ Hinf].
  destruct x as [s|s| |s m e]; try reflexivity.
  destruct s; [reflexivity|]. exfalso. exact (Hinf eq_refl).
Qed.

(** The whole call then only marks the cell of the maximum, and only in
    the layer the maximum came from. *)
Lemma adjust_zero_kernel (is_max_val_layer : bool) :
  exists x,
    get2 img (Z.to_nat (zone_row z)) (Z.to_nat (zone_col z)) = Some x /\
    adjust_with_correlation img correlation max_idx max_val
                            is_max_val_layer =
    Ok (if is_max_val_layer
        then set2 img (Z.to_nat (zone_row z)) (Z.to_nat (zone_col z))
                  (F64.sub x F64.inf)
        else img).
Proof.
  destruct (zone_spec H W img correlation max_idx H_pos W_pos
              img_shape idx_range) as ((Hrow & Hcol) & _).
  fold z in Hrow, Hcol.
  destruct (get2_in_range img (H * 2) (W * 2) (Z.to_nat (zone_row z))
              (Z.to_nat (zone_col z)) img_rect img_shape) as [x Hx];
    [lia..|].
  exists x. split; [assumption|].
  unfold adjust_with_correlation. fold z.
  rewrite subtract_zero_kernel. cbn [bind].
  rewrite mark_inf_clean, mark_weird_nan.
  destruct is_max_val_layer; [|reflexivity].
  unfold isub_item. cbn [fst snd]. rewrite img_shape. cbn [fst snd].
  rewrite !index_in_range by assumption. cbn [bind].
  rewrite Hx. reflexivity.
Qed.

End ZeroKernel.

(** ** The order of the floats *)

Section FloatOrder.

Ltac cases_compare :=
  repeat match goal with
  | H : context [Pos.compare_cont Eq ?a ?b] |- _ =>
      change (Pos.compare_cont Eq a b) with (Pos.compare a b) in H
  | |- context [Pos.compare_cont Eq ?a ?b] =>
      change (Pos.compare_cont Eq a b) with (Pos.compare a b)
  end;
  repeat match goal with
  | H : context [Z.compare ?a ?b] |- _ =>
      destruct (Z.compare_spec a b); cbn in H
  | |- context [Z.compare ?a ?b] =>
      destruct (Z.compare_spec a b); cbn
  | H : context [Pos.compare ?a ?b] |- _ =>
      destruct (Pos.compare_spec a b); cbn in H
  | |- context [Pos.compare ?a ?b] =>
      destruct (Pos.compare_spec a b); cbn
  end;
  try discriminate; try reflexivity; try lia.

Lemma leb_refl (x : float) : F64.is_nan x = false -> F64.leb x x = true.
Proof.
  unfold F64.leb, SFleb, SFcompare.
  destruct x as [[]|[]| |[] m e]; cbn; intros; try discriminate;
    try reflexivity; cases_compare.
Qed.

Lemma leb_total (x y : float) :
  F64.is_nan x = false -> F64.is_nan y = false ->
  F64.leb x y = false -> F64.leb y x = true.
Proof.
  unfold F64.leb, SFleb, SFcompare.
  destruct x as [[]|[]| |[] mx ex], y as [[]|[]| |[] my ey]; cbn; intros;
    try discriminate; try reflexivity; cases_compare.
Qed.

Lemma leb_trans (x y z : float) :
  F64.leb x y = true -> F64.leb y z = true -> F64.leb x z = true.
Proof.
  unfold F64.leb, SFleb, SFcompare.
  destruct x as [[]|[]| |[] mx ex], y as [[]|[]| |[] my ey],
           z as [[]|[]| |[] mz ez]; cbn; intros;
    try discriminate; try reflexivity; cases_compare.
Qed.

Lemma leb_not_nan (x y : float) :
  F64.leb x y = true -> F64.is_nan x = false /\ F64.is_nan y = false.
Proof.
  unfold F64.leb, SFleb, SFcompare.
  destruct x as [[]|[]| |[] mx ex], y as [[]|[]| |[] my ey]; cbn; intros;
    try discriminate; split; reflexivity.
Qed.

Lemma neg_inf_least (x : float) :
  F64.is_nan x = false -> F64.leb F64.neg_inf x = true.
Proof. destruct x as [[]|[]| |[] m e]; cbn; intros; congruence. Qed.

End FloatOrder.

(** ** Rounding to binary64 *)

Section Rounding.

Local Abbreviation fexp := (SpecFloat.fexp F64.prec F64.emax).
Local Abbreviation emin := (SpecFloat.emin F64.prec F64.emax).

Lemma emin_value : emin = -1074.
Proof. reflexivity. Qed.

Lemma fexp_value (x : Z) : fexp x = Z.max (x - 53) (-1074).
Proof. reflexivity. Qed.

Lemma digits2_bounds (m : positive) :
  2 ^ (Z.pos (digits2_pos m) - 1) <= Z.pos m < 2 ^ Z.pos (digits2_pos m).
Proof.
  induction m as [m IH|m IH|]; cbn [digits2_pos].
  - rewrite Pos2Z.inj_succ. change (Z.pos m~1) with (2 * Z.pos m + 1).
    replace (Z.succ (Z.pos (digits2_pos m)) - 1)
      with (Z.succ (Z.pos (digits2_pos m) - 1)) by lia.
    rewrite !Z.pow_succ_r by lia.
    destruct IH as [IH1 IH2]. revert IH1 IH2.
    generalize (2 ^ (Z.pos (digits2_pos m) - 1))
               (2 ^ Z.pos (digits2_pos m)). lia.
  - rewrite Pos2Z.inj_succ. change (Z.pos m~0) with (2 * Z.pos m).
    replace (Z.succ (Z.pos (digits2_pos m)) - 1)
      with (Z.succ (Z.pos (digits2_pos m) - 1)) by lia.
    rewrite !Z.pow_succ_r by lia.
    destruct IH as [IH1 IH2]. revert IH1 IH2.
    generalize (2 ^ (Z.pos (digits2_pos m) - 1))
               (2 ^ Z.pos (digits2_pos m)). lia.
  - cbn. lia.
Qed.

(** The number of binary digits is determined by the enclosing powers. *)
Lemma digits2_unique (m : positive) (d : Z) :
  2 ^ (d - 1) <= Z.pos m < 2 ^ d -> Z.pos (digits2_pos m) = d.
Proof.
  intros [Hlo Hhi]. pose proof (digits2_bounds m) as [Hlo' Hhi'].
  destruct (Z.lt_trichotomy (Z.pos (digits2_pos m)) d) as [Hlt|[Heq|Hgt]];
    [|assumption|].
  - assert (2 ^ Z.pos (digits2_pos m) <= 2 ^ (d - 1))
      by (apply Z.pow_le_mono_r; lia). lia.
  - assert (0 < d \/ d <= 0) as [Hd|Hd] by lia.
    + assert (2 ^ d <= 2 ^ (Z.pos (digits2_pos m) - 1))
        by (apply Z.pow_le_mono_r; lia). lia.
    + assert (2 ^ d <= 1).
      { destruct (Z.eq_dec d 0) as [->|Hne]; [cbn; lia|].
        rewrite Z.pow_neg_r by lia. lia. }
      lia.
Qed.

(** [iter_pos] is plain iteration. *)
Lemma iter_pos_nat {A : Type} (f : A -> A) (p : positive) (x : A) :
  SpecFloat.iter_pos f p x = Nat.iter (Pos.to_nat p) f x.
Proof.
  revert x. induction p as [p IH|p IH|]; intros x; cbn [SpecFloat.iter_pos].
  - rewrite !IH, Pos2Nat.inj_xI.
    replace (S (2 * Pos.to_nat p))%nat
      with (Pos.to_nat p + (Pos.to_nat p + 1))%nat by lia.
    rewrite !Nat.iter_add. reflexivity.
  - rewrite !IH, Pos2Nat.inj_xO.
    replace (2 * Pos.to_nat p)%nat
      with (Pos.to_nat p + Pos.to_nat p)%nat by lia.
    rewrite Nat.iter_add. reflexivity.
  - reflexivity.
Qed.

Lemma shr_1_spec (m : Z) (r s : bool) :
  0 <= m ->
  shr_m (shr_1 (Build_shr_record m r s)) = m / 2 /\
  shr_r (shr_1 (Build_shr_record m r s)) = Z.odd m.
Proof.
  intros Hm. destruct m as [|[p|p|]|p]; try lia; cbn [shr_1 shr_m shr_r].
  - split; reflexivity.
  - split; [|reflexivity]. change (Z.pos p~1) with (2 * Z.pos p + 1).
    rewrite (Z.mul_comm 2), Z.div_add_l by lia. reflexivity.
  - split; [|reflexivity]. change (Z.pos p~0) with (2 * Z.pos p).
    rewrite (Z.mul_comm 2), Z.div_mul by lia. reflexivity.
  - split; reflexivity.
Qed.

Lemma shr_iter_spec (n : nat) (m : Z) :
  0 <= m ->
  shr_m (Nat.iter (S n) shr_1 (Build_shr_record m false false))
    = m / 2 ^ Z.of_nat (S n) /\
  shr_r (Nat.iter (S n) shr_1 (Build_shr_record m false false))
    = Z.odd (m / 2 ^ Z.of_nat n).
Proof.
  intros Hm. induction n as [|n IH].
  - change (Nat.iter 1 shr_1 (Build_shr_record m false false))
      with (shr_1 (Build_shr_record m false false)).
    destruct (shr_1_spec m false false Hm) as [H1 H2].
    rewrite H1, H2. rewrite Z.div_1_r. split; reflexivity.
  - change (Nat.iter (S (S n)) shr_1 (Build_shr_record m false false))
      with (shr_1 (Nat.iter (S n) shr_1 (Build_shr_record m false false))).
    destruct (Nat.iter (S n) shr_1 _) as [m' r' s'].
    cbn [shr_m shr_r] in IH. destruct IH as [IHm IHr].
    assert (Hm' : 0 <= m') by (rewrite IHm; apply Z.div_pos; lia).
    destruct (shr_1_spec m' r' s' Hm') as [H1 H2].
    rewrite H1, H2, IHm. split; [|reflexivity].
    rewrite Z.div_div by lia.
    rewrite (Nat2Z.inj_succ (S n)), Z.pow_succ_r by lia.
    f_equal. lia.
Qed.

Lemma odd_div_pow (m : Z) (n : nat) :
  0 <= m -> Z.odd (m / 2 ^ Z.of_nat n) = true ->
  m mod 2 ^ Z.of_nat (S n) <> 0.
Proof.
  intros Hm Hodd Hmod.
  apply Z.mod_divide in Hmod; [|apply Z.pow_nonzero; lia].
  destruct Hmod as [q ->].
  rewrite Nat2Z.inj_succ, Z.pow_succ_r in Hodd by lia.
  replace (q * (2 * 2 ^ Z.of_nat n)) with (q * 2 * 2 ^ Z.of_nat n) in Hodd
    by ring.
  rewrite Z.div_mul in Hodd by (apply Z.pow_nonzero; lia).
  rewrite Z.odd_mul in Hodd. cbn in Hodd. rewrite andb_false_r in Hodd.
  discriminate.
Qed.

Lemma round_nearest_even_cases (mrs : shr_record) :
  round_nearest_even (shr_m mrs) (loc_of_shr_record mrs) = shr_m mrs \/
  (round_nearest_even (shr_m mrs) (loc_of_shr_record mrs) = shr_m mrs + 1 /\
   shr_r mrs = true).
Proof.
  destruct mrs as [m [] []]; cbn; auto.
  destruct (Z.even m); auto.
Qed.

(** Shifting right by [k] places and rounding: the mantissa is divided
    by [2^k], and goes up by one only when the division is inexact. *)
Lemma shr_spec (m e k : Z) :
  0 <= m -> 0 <= k ->
  exists mrs,
    shr (Build_shr_record m false false) e k = (mrs, e + k) /\
    shr_m mrs = m / 2 ^ k /\
    (round_nearest_even (shr_m mrs) (loc_of_shr_record mrs) = m / 2 ^ k \/
     (round_nearest_even (shr_m mrs) (loc_of_shr_record mrs) = m / 2 ^ k + 1
      /\ m mod 2 ^ k <> 0)).
Proof.
  intros Hm Hk. destruct k as [|p|p]; [| |lia].
  - exists (Build_shr_record m false false). cbn [shr shr_m].
    rewrite Z.add_0_r, Z.pow_0_r, Z.div_1_r. auto.
  - cbn [shr]. rewrite iter_pos_nat.
    destruct (Pos2Nat.is_succ p) as [n Hn]. rewrite Hn.
    destruct (shr_iter_spec n m Hm) as [H1 H2].
    assert (Hp : Z.pos p = Z.of_nat (S n)) by lia.
    eexists. split; [reflexivity|]. rewrite Hp.
    split; [assumption|]. rewrite H1.
    destruct (round_nearest_even_cases
                (Nat.iter (S n) shr_1 (Build_shr_record m false false)))
      as [Heq|[Heq Hr]]; rewrite H1 in Heq; [auto|].
    right. split; [assumption|].
    apply odd_div_pow; [assumption|]. rewrite <- H2. assumption.
Qed.

End Rounding.

Section RoundAux.

Local Abbreviation fexp := (SpecFloat.fexp F64.prec F64.emax).

Lemma shr_nonpos (mrs : shr_record) (e n : Z) : n <= 0 -> shr mrs e n = (mrs, e).
Proof. intros Hn. destruct n as [|p|p]; [reflexivity|lia|reflexivity]. Qed.

Lemma digits_le_53 (p : positive) :
  Z.pos p < 2 ^ 53 -> Z.pos (digits2_pos p) <= 53.
Proof.
  intros Hp. pose proof (digits2_bounds p) as [Hlo _].
  destruct (Z.le_gt_cases (Z.pos (digits2_pos p)) 53) as [|Hgt]; [assumption|].
  assert (2 ^ 53 <= 2 ^ (Z.pos (digits2_pos p) - 1))
    by (apply Z.pow_le_mono_r; lia).
  lia.
Qed.

(** The outcome of [binary_round_aux] on a positive mantissa whose
    exponent is not above the exponent of its format. *)
Lemma binary_round_aux_pos (s : bool) (m : positive) (e : Z) :
  let e1 := fexp (Z.pos (digits2_pos m) + e) in
  let m1 := Z.pos m / 2 ^ (e1 - e) in
  e <= e1 ->
  (0 <= m1 < 2 ^ 53 /\ (2 ^ 52 <= m1 \/ e1 = -1074) /\ -1074 <= e1) /\
  exists m2,
    (m2 = m1 \/ (m2 = m1 + 1 /\ Z.pos m mod 2 ^ (e1 - e) <> 0)) /\
    binary_round_aux F64.prec F64.emax s (Z.pos m) e loc_Exact =
    if m2 =? 0 then S754_zero s
    else if m2 <? 2 ^ 53
         then if e1 <=? 971 then S754_finite s (Z.to_pos m2) e1
              else S754_infinity s
         else if e1 + 1 <=? 971 then S754_finite s (Z.to_pos (2 ^ 52)) (e1 + 1)
              else S754_infinity s.
Proof.
  intros e1 m1 He.
  pose proof (digits2_bounds m) as [Hlo Hhi].
  set (d := Z.pos (digits2_pos m)) in *.
  assert (Hd : 1 <= d) by (subst d; lia).
  assert (He1 : e1 = Z.max (d + e - 53) (-1074)) by reflexivity.
  assert (Hk : 0 <= e1 - e) by lia.
  assert (Hpk : 0 < 2 ^ (e1 - e)) by (apply Z.pow_pos_nonneg; lia).
  assert (Hm1 : 0 <= m1 < 2 ^ 53).
  { split; [apply Z.div_pos; lia|].
    apply Z.div_lt_upper_bound; [assumption|].
    rewrite <- Z.pow_add_r by lia.
    apply Z.lt_le_trans with (2 ^ d); [assumption|].
    apply Z.pow_le_mono_r; lia. }
  assert (Hnorm : 2 ^ 52 <= m1 \/ e1 = -1074).
  { destruct (Z.eq_dec e1 (-1074)) as [|Hne]; [auto|]. left.
    assert (Hke : e1 - e = d - 53) by lia.
    subst m1. rewrite Hke.
    apply Z.div_le_lower_bound; [apply Z.pow_pos_nonneg; lia|].
    rewrite <- Z.pow_add_r by lia.
    replace (d - 53 + 52) with (d - 1) by lia. assumption. }
  split; [split; [assumption|split; [assumption|lia]]|].
  unfold binary_round_aux, shr_fexp. cbn [shr_record_of_loc].
  change (Zdigits2 (Z.pos m)) with d. fold e1.
  destruct (shr_spec (Z.pos m) e (e1 - e) ltac:(lia) Hk)
    as (mrs & Hshr & Hmrs & Hround).
  rewrite Hshr. replace (e + (e1 - e)) with e1 by lia.
  fold m1 in Hmrs, Hround.
  exists (round_nearest_even (shr_m mrs) (loc_of_shr_record mrs)).
  split; [exact Hround|].
  set (m2 := round_nearest_even (shr_m mrs) (loc_of_shr_record mrs)) in *.
  assert (Hm2 : 0 <= m2 <= 2 ^ 53) by (destruct Hround as [->|[-> _]]; lia).
  destruct (Z.eqb_spec m2 0) as [Hz|Hnz].
  - rewrite Hz. cbn [Zdigits2].
    rewrite shr_nonpos by (rewrite fexp_value; lia). reflexivity.
  - destruct m2 as [|p2|p2] eqn:Hp2; [lia| |lia].
    cbn [Zdigits2].
    destruct (Z.ltb_spec (Z.pos p2) (2 ^ 53)) as [Hlt|Hge].
    + pose proof (digits_le_53 p2 Hlt).
      rewrite shr_nonpos by (rewrite fexp_value; lia).
      cbn [shr_m]. reflexivity.
    + assert (Heq : Z.pos p2 = 2 ^ 53) by lia.
      assert (Hd2 : Z.pos (digits2_pos p2) = 54).
      { apply digits2_unique. rewrite Heq. split; [reflexivity|].
        apply Z.pow_lt_mono_r; lia. }
      rewrite Hd2.
      assert (Hk2 : fexp (54 + e1) - e1 = 1) by (rewrite fexp_value; lia).
      rewrite Hk2.
      destruct (shr_spec (Z.pos p2) e1 1 ltac:(lia) ltac:(lia))
        as (mrs2 & Hshr2 & Hmrs2 & _).
      rewrite Hshr2, Hmrs2, Heq. reflexivity.
Qed.

End RoundAux.

Section Canonical.

Local Abbreviation fexp := (SpecFloat.fexp F64.prec F64.emax).

Lemma canonical_canon (m : positive) (e : Z) :
  canonical_mantissa F64.prec F64.emax m e = true <-> canon m e.
Proof.
  unfold canonical_mantissa, canon. rewrite Z.eqb_eq, fexp_value.
  pose proof (digits2_bounds m) as [Hlo Hhi].
  set (d := Z.pos (digits2_pos m)) in *.
  assert (Hd : 1 <= d) by (subst d; lia).
  split.
  - intros Heq. assert (Hd53 : d <= 53) by lia.
    split; [|split; [lia|]].
    + apply Z.lt_le_trans with (2 ^ d); [assumption|].
      apply Z.pow_le_mono_r; lia.
    + destruct (Z.eq_dec e (-1074)) as [|Hne]; [auto|]. left.
      assert (d = 53) as Hd' by lia. rewrite Hd' in Hlo. exact Hlo.
  - intros (Hlt & He & Hnorm).
    assert (Hd53 : d <= 53).
    { destruct (Z.le_gt_cases d 53) as [|Hgt]; [assumption|].
      assert (2 ^ 53 <= 2 ^ (d - 1)) by (apply Z.pow_le_mono_r; lia). lia. }
    destruct Hnorm as [Hnorm|Hnorm]; [|lia].
    assert (d = 53); [|lia].
    destruct (Z.eq_dec d 53) as [|Hne]; [assumption|].
    assert (2 ^ d <= 2 ^ 52) by (apply Z.pow_le_mono_r; lia). lia.
Qed.

Lemma valid_finite (s : bool) (m : positive) (e : Z) :
  valid (S754_finite s m e) <-> canon m e /\ e <= 971.
Proof.
  unfold valid, valid_binary, bounded. rewrite andb_true_iff.
  rewrite canonical_canon, Z.leb_le. reflexivity.
Qed.

End Canonical.

Section RoundBounds.

Local Abbreviation fexp := (SpecFloat.fexp F64.prec F64.emax).

Variables (s : bool) (m : positive) (e : Z).
Hypothesis exponent_low : e <= fexp (Z.pos (digits2_pos m) + e).

Let r := binary_round_aux F64.prec F64.emax s (Z.pos m) e loc_Exact.

(** The result, with the magnitude it stands for: [m3 * 2^e3] is the
    rounded mantissa at the exponent of the format. *)
Lemma binary_round_aux_outcome :
  let e1 := fexp (Z.pos (digits2_pos m) + e) in
  let m1 := Z.pos m / 2 ^ (e1 - e) in
  exists m2,
    (m2 = m1 \/ (m2 = m1 + 1 /\ Z.pos m mod 2 ^ (e1 - e) <> 0)) /\
    ((m2 = 0 /\ r = S754_zero s) \/
     exists m3 e3,
       canon m3 e3 /\ e1 <= e3 /\ Z.pos m3 * 2 ^ (e3 - e1) = m2 /\
       r = if e3 <=? 971 then S754_finite s m3 e3 else S754_infinity s).
Proof.
  intros e1 m1.
  destruct (binary_round_aux_pos s m e exponent_low)
    as ((Hm1 & Hnorm & He1) & m2 & Hm2 & Hr).
  fold e1 m1 r in Hm1, Hnorm, He1, Hm2, Hr.
  exists m2. split; [assumption|].
  assert (Hrange : 0 <= m2 <= 2 ^ 53) by (destruct Hm2 as [->|[-> _]]; lia).
  destruct (Z.eqb_spec m2 0) as [Hz|Hnz]; [left; auto|]. right.
  destruct (Z.ltb_spec m2 (2 ^ 53)) as [Hlt|Hge].
  - exists (Z.to_pos m2), e1.
    rewrite Z2Pos.id by lia. rewrite Z.sub_diag, Z.pow_0_r, Z.mul_1_r.
    repeat split; try lia; try assumption.
  - exists (Z.to_pos (2 ^ 52)), (e1 + 1).
    replace (e1 + 1 - e1) with 1 by lia.
    repeat split; try lia; try assumption.
Qed.

Lemma binary_round_aux_valid : valid r.
Proof.
  destruct binary_round_aux_outcome as (m2 & _ & [[_ ->]|Hfin]);
    [reflexivity|].
  destruct Hfin as (m3 & e3 & Hcanon & _ & _ & ->).
  destruct (Z.leb_spec e3 971); [|reflexivity].
  apply valid_finite. auto.
Qed.

(** Rounding does not go above a float that is not below the exact
    value, nor below a float that is not above it.  Magnitudes are
    compared at a common exponent [c]. *)
Lemma binary_round_aux_upper (M : positive) (E c : Z) :
  canon M E -> E <= 971 -> c <= e -> c <= E ->
  Z.pos m * 2 ^ (e - c) <= Z.pos M * 2 ^ (E - c) ->
  r = S754_zero s \/
  exists m3 e3, r = S754_finite s m3 e3 /\ canon m3 e3 /\ mag_le m3 e3 M E.
Proof.
  intros (HM & HE & HMnorm) HEmax Hce HcE Hle.
  destruct (binary_round_aux_pos s m e exponent_low)
    as ((Hm1 & Hnorm & He1) & _).
  destruct binary_round_aux_outcome as (m2 & Hm2 & [[_ Hr]|Hfin]);
    [left; assumption|].
  destruct Hfin as (m3 & e3 & Hcanon & He3 & Hval & Hr). right.
  set (e1 := fexp (Z.pos (digits2_pos m) + e)) in *.
  set (m1 := Z.pos m / 2 ^ (e1 - e)) in *.
  assert (HP : 0 < 2 ^ (e1 - e)) by (apply Z.pow_pos_nonneg; lia).
  assert (HA : 0 < 2 ^ (e - c)) by (apply Z.pow_pos_nonneg; lia).
  assert (HB : 0 < 2 ^ (E - c)) by (apply Z.pow_pos_nonneg; lia).
  pose proof (Z.mul_div_le (Z.pos m) (2 ^ (e1 - e)) HP) as Hfloor.
  fold m1 in Hfloor.
  (* the rounded mantissa, at exponent [e1], is not above [M * 2^E] *)
  assert (Hbound : m2 * 2 ^ (e1 - e) * 2 ^ (e - c) <= Z.pos M * 2 ^ (E - c)).
  { destruct Hm2 as [->|[-> Hinexact]]; [nia|].
    assert (Hstrict : 2 ^ (e1 - e) * m1 < Z.pos m).
    { pose proof (Z.div_mod (Z.pos m) (2 ^ (e1 - e)) ltac:(lia)) as Hdm.
      pose proof (Z.mod_pos_bound (Z.pos m) (2 ^ (e1 - e)) HP).
      fold m1 in Hdm. lia. }
    destruct (Z.le_gt_cases e1 E) as [HeE|HeE].
    - assert (HQ : 0 < 2 ^ (E - e1)) by (apply Z.pow_pos_nonneg; lia).
      assert (Hsplit : 2 ^ (E - c) = 2 ^ (E - e1) * 2 ^ (e1 - e) * 2 ^ (e - c)).
      { rewrite <- !Z.pow_add_r by lia. f_equal. lia. }
      rewrite Hsplit in *.
      assert (Hm : Z.pos m <= Z.pos M * 2 ^ (E - e1) * 2 ^ (e1 - e)).
      { apply Z.mul_le_mono_pos_r with (p := 2 ^ (e - c)); [assumption|].
        lia. }
      assert (m1 < Z.pos M * 2 ^ (E - e1)).
      { apply Z.mul_lt_mono_pos_l with (p := 2 ^ (e1 - e)); [assumption|].
        lia. }
      assert ((m1 + 1) * 2 ^ (e1 - e)
              <= Z.pos M * 2 ^ (E - e1) * 2 ^ (e1 - e))
        by (apply Z.mul_le_mono_nonneg_r; lia).
      replace (Z.pos M * (2 ^ (E - e1) * 2 ^ (e1 - e) * 2 ^ (e - c)))
        with (Z.pos M * 2 ^ (E - e1) * 2 ^ (e1 - e) * 2 ^ (e - c)) by ring.
      apply Z.mul_le_mono_nonneg_r; lia.
    - exfalso.
      assert (HR : 2 <= 2 ^ (e1 - E)).
      { change 2 with (2 ^ 1) at 1. apply Z.pow_le_mono_r; lia. }
      assert (Hsplit : 2 ^ (e1 - e) * 2 ^ (e - c) = 2 ^ (e1 - E) * 2 ^ (E - c)).
      { rewrite <- !Z.pow_add_r by lia. f_equal. lia. }
      assert (H52 : 2 ^ 52 <= m1) by (destruct Hnorm; [assumption|lia]).
      assert (m1 * (2 ^ (e1 - E) * 2 ^ (E - c)) <= Z.pos M * 2 ^ (E - c))
        by (rewrite <- Hsplit; nia).
      assert (m1 * 2 ^ (e1 - E) <= Z.pos M) by nia.
      assert (2 ^ 53 = 2 ^ 52 * 2) by reflexivity. nia. }
  (* hence the same for [m3 * 2^e3] *)
  assert (HQ3 : 0 < 2 ^ (e3 - e1)) by (apply Z.pow_pos_nonneg; lia).
  rewrite <- Hval in Hbound.
  assert (He3E : e3 <= E).
  { destruct (Z.le_gt_cases e3 E) as [|Hgt]; [assumption|]. exfalso.
    destruct Hcanon as (_ & _ & Hn3).
    assert (H52 : 2 ^ 52 <= Z.pos m3) by (destruct Hn3; [assumption|lia]).
    assert (HR : 2 <= 2 ^ (e3 - E)).
    { change 2 with (2 ^ 1) at 1. apply Z.pow_le_mono_r; lia. }
    assert (Hsplit : 2 ^ (e3 - e1) * 2 ^ (e1 - e) * 2 ^ (e - c)
                     = 2 ^ (e3 - E) * 2 ^ (E - c)).
    { rewrite <- !Z.pow_add_r by lia. f_equal. lia. }
    assert (Z.pos m3 * (2 ^ (e3 - E) * 2 ^ (E - c)) <= Z.pos M * 2 ^ (E - c))
      by (rewrite <- Hsplit; nia).
    assert (Z.pos m3 * 2 ^ (e3 - E) <= Z.pos M) by nia.
    assert (2 ^ 53 = 2 ^ 52 * 2) by reflexivity. nia. }
  exists m3, e3. rewrite Hr.
  destruct (Z.leb_spec e3 971); [|lia].
  split; [reflexivity|]. split; [assumption|].
  unfold mag_le.
  destruct (Z.eq_dec e3 E) as [Heq|Hne]; [right|left; lia].
  split; [assumption|]. subst e3.
  assert (Hsplit : 2 ^ (E - e1) * 2 ^ (e1 - e) * 2 ^ (e - c) = 2 ^ (E - c)).
  { rewrite <- !Z.pow_add_r by lia. f_equal. lia. }
  assert (Z.pos m3 * 2 ^ (E - c) <= Z.pos M * 2 ^ (E - c))
    by (rewrite <- Hsplit at 1; nia).
  nia.
Qed.

Lemma binary_round_aux_lower (M : positive) (E c : Z) :
  canon M E -> c <= e -> c <= E ->
  Z.pos M * 2 ^ (E - c) <= Z.pos m * 2 ^ (e - c) ->
  r = S754_infinity s \/
  exists m3 e3, r = S754_finite s m3 e3 /\ canon m3 e3 /\ mag_le M E m3 e3.
Proof.
  intros (HM & HE & HMnorm) Hce HcE Hle.
  destruct (binary_round_aux_pos s m e exponent_low)
    as ((Hm1 & Hnorm & He1) & _).
  destruct binary_round_aux_outcome as (m2 & Hm2 & Hout).
  set (e1 := fexp (Z.pos (digits2_pos m) + e)) in *.
  set (m1 := Z.pos m / 2 ^ (e1 - e)) in *.
  assert (HP : 0 < 2 ^ (e1 - e)) by (apply Z.pow_pos_nonneg; lia).
  assert (HA : 0 < 2 ^ (e - c)) by (apply Z.pow_pos_nonneg; lia).
  assert (HB : 0 < 2 ^ (E - c)) by (apply Z.pow_pos_nonneg; lia).
  (* the truncated mantissa, at exponent [e1], is not below [M * 2^E] *)
  assert (Hbound : Z.pos M * 2 ^ (E - c) <= m1 * 2 ^ (e1 - e) * 2 ^ (e - c)).
  { destruct (Z.le_gt_cases e1 E) as [HeE|HeE].
    - assert (HQ : 0 < 2 ^ (E - e1)) by (apply Z.pow_pos_nonneg; lia).
      assert (Hsplit : 2 ^ (E - c) = 2 ^ (E - e1) * 2 ^ (e1 - e) * 2 ^ (e - c)).
      { rewrite <- !Z.pow_add_r by lia. f_equal. lia. }
      rewrite Hsplit in *.
      assert (Hm : Z.pos M * 2 ^ (E - e1) * 2 ^ (e1 - e) <= Z.pos m).
      { apply Z.mul_le_mono_pos_r with (p := 2 ^ (e - c)); [assumption|].
        lia. }
      assert (Z.pos M * 2 ^ (E - e1) <= m1).
      { apply Z.div_le_lower_bound; [assumption|]. lia. }
      replace (Z.pos M * (2 ^ (E - e1) * 2 ^ (e1 - e) * 2 ^ (e - c)))
        with (Z.pos M * 2 ^ (E - e1) * 2 ^ (e1 - e) * 2 ^ (e - c)) by ring.
      apply Z.mul_le_mono_nonneg_r; [lia|].
      apply Z.mul_le_mono_nonneg_r; lia.
    - assert (HR : 2 <= 2 ^ (e1 - E)).
      { change 2 with (2 ^ 1) at 1. apply Z.pow_le_mono_r; lia. }
      assert (Hsplit : 2 ^ (e1 - e) * 2 ^ (e - c) = 2 ^ (e1 - E) * 2 ^ (E - c)).
      { rewrite <- !Z.pow_add_r by lia. f_equal. lia. }
      assert (H52 : 2 ^ 52 <= m1) by (destruct Hnorm; [assumption|lia]).
      rewrite <- Z.mul_assoc, Hsplit.
      assert (2 ^ 53 = 2 ^ 52 * 2) by reflexivity.
      assert (Z.pos M <= m1 * 2 ^ (e1 - E)) by nia. nia. }
  assert (Hm12 : m1 <= m2) by (destruct Hm2 as [->|[-> _]]; lia).
  destruct Hout as [[Hz _]|Hfin]; [exfalso; subst m2; nia|].
  destruct Hfin as (m3 & e3 & Hcanon & He3 & Hval & Hr).
  rewrite Hr. destruct (Z.leb_spec e3 971); [right|left; reflexivity].
  exists m3, e3. split; [reflexivity|]. split; [assumption|].
  assert (HQ3 : 0 < 2 ^ (e3 - e1)) by (apply Z.pow_pos_nonneg; lia).
  assert (Hbound3 : Z.pos M * 2 ^ (E - c)
                    <= Z.pos m3 * 2 ^ (e3 - e1) * 2 ^ (e1 - e) * 2 ^ (e - c)).
  { rewrite Hval. apply Z.le_trans with (1 := Hbound).
    apply Z.mul_le_mono_nonneg_r; [lia|].
    apply Z.mul_le_mono_nonneg_r; lia. }
  unfold mag_le.
  destruct (Z.lt_trichotomy E e3) as [Hlt|[Heq|Hgt]]; [left; assumption| |].
  - right. split; [assumption|]. subst e3.
    assert (Hsplit : 2 ^ (E - e1) * 2 ^ (e1 - e) * 2 ^ (e - c) = 2 ^ (E - c)).
    { rewrite <- !Z.pow_add_r by lia. f_equal. lia. }
    rewrite <- !Z.mul_assoc in Hbound3.
    rewrite (Z.mul_assoc (2 ^ (E - e1))), Hsplit in Hbound3.
    assert (Z.pos M <= Z.pos m3) by nia. lia.
  - exfalso.
    assert (H52 : 2 ^ 52 <= Z.pos M) by (destruct HMnorm; [assumption|lia]).
    assert (HR : 2 <= 2 ^ (E - e3)).
    { change 2 with (2 ^ 1) at 1. apply Z.pow_le_mono_r; lia. }
    assert (Hsplit : 2 ^ (E - c)
                     = 2 ^ (E - e3) * (2 ^ (e3 - e1) * 2 ^ (e1 - e) * 2 ^ (e - c))).
    { rewrite <- !Z.pow_add_r by lia. f_equal. lia. }
    rewrite Hsplit in Hbound3.
    assert (HX : 0 < 2 ^ (e3 - e1) * 2 ^ (e1 - e) * 2 ^ (e - c)) by nia.
    revert Hbound3 HX.
    generalize (2 ^ (e3 - e1) * 2 ^ (e1 - e) * 2 ^ (e - c)). intros X Hb HX.
    destruct Hcanon as (Hm3 & _).
    assert (2 ^ 53 = 2 ^ 52 * 2) by reflexivity.
    assert (Z.pos M * 2 ^ (E - e3) <= Z.pos m3) by nia. nia.
Qed.

End RoundBounds.

Section BinaryRound.

Local Abbreviation fexp := (SpecFloat.fexp F64.prec F64.emax).

Lemma iter_xO (m d : positive) :
  Z.pos (Pos.iter xO m d) = Z.pos m * 2 ^ Z.pos d.
Proof.
  induction d as [|d IH] using Pos.peano_ind.
  - change (Pos.iter xO m 1) with (m~0)%positive.
    change (Z.pos m~0) with (2 * Z.pos m). rewrite Z.pow_1_r. ring.
  - rewrite Pos.iter_succ, Pos2Z.inj_succ, Z.pow_succ_r by lia.
    change (Z.pos (Pos.iter xO m d)~0) with (2 * Z.pos (Pos.iter xO m d)).
    rewrite IH. ring.
Qed.

(** Aligning a mantissa on a smaller exponent keeps its value. *)
Lemma shl_align_spec (m : positive) (e e' : Z) :
  let '(mz, ez) := shl_align m e e' in
  ez = Z.min e e' /\ Z.pos mz = Z.pos m * 2 ^ (e - ez).
Proof.
  unfold shl_align. destruct (e' - e) as [|d|d] eqn:Hd.
  - split; [lia|]. rewrite Z.sub_diag. cbn. lia.
  - split; [lia|]. rewrite Z.sub_diag. cbn. lia.
  - split; [lia|]. rewrite iter_xO. f_equal. f_equal. lia.
Qed.

Lemma digits2_shift (m mz : positive) (j : Z) :
  0 <= j -> Z.pos mz = Z.pos m * 2 ^ j ->
  Z.pos (digits2_pos mz) = Z.pos (digits2_pos m) + j.
Proof.
  intros Hj Hmz. apply digits2_unique. rewrite Hmz.
  pose proof (digits2_bounds m) as [Hlo Hhi].
  assert (0 < 2 ^ j) by (apply Z.pow_pos_nonneg; lia).
  replace (Z.pos (digits2_pos m) + j - 1)
    with (Z.pos (digits2_pos m) - 1 + j) by lia.
  rewrite !Z.pow_add_r by lia. nia.
Qed.

Variables (s : bool) (m : positive) (e : Z).

(** [binary_round] is [binary_round_aux] on an aligned mantissa of the
    same value, whose exponent is not above that of its format. *)
Lemma binary_round_aligned :
  exists mz ez,
    binary_round F64.prec F64.emax s m e
    = binary_round_aux F64.prec F64.emax s (Z.pos mz) ez loc_Exact /\
    ez = Z.min e (fexp (Z.pos (digits2_pos m) + e)) /\
    Z.pos mz = Z.pos m * 2 ^ (e - ez) /\
    ez <= fexp (Z.pos (digits2_pos mz) + ez).
Proof.
  unfold binary_round.
  pose proof (shl_align_spec m e (fexp (Z.pos (digits2_pos m) + e))) as Hal.
  destruct (shl_align _ _ _) as [mz ez]. destruct Hal as [Hez Hmz].
  exists mz, ez. split; [reflexivity|]. split; [assumption|].
  split; [assumption|].
  rewrite (digits2_shift m mz (e - ez)) by (try assumption; lia).
  replace (Z.pos (digits2_pos m) + (e - ez) + ez)
    with (Z.pos (digits2_pos m) + e) by lia.
  lia.
Qed.

Lemma binary_round_valid : valid (binary_round F64.prec F64.emax s m e).
Proof.
  destruct binary_round_aligned as (mz & ez & -> & _ & _ & Hlow).
  apply binary_round_aux_valid. assumption.
Qed.

Lemma binary_round_sign :
  match binary_round F64.prec F64.emax s m e with
  | S754_zero s' | S754_infinity s' | S754_finite s' _ _ => s' = s
  | S754_nan => False
  end.
Proof.
  destruct binary_round_aligned as (mz & ez & -> & _ & _ & Hlow).
  destruct (binary_round_aux_outcome s mz ez Hlow)
    as (m2 & _ & [[_ ->]|(m3 & e3 & _ & _ & _ & ->)]); [reflexivity|].
  destruct (e3 <=? 971); reflexivity.
Qed.

Lemma binary_round_upper (M : positive) (E c : Z) :
  canon M E -> E <= 971 -> c <= e -> c <= E -> c <= -1074 ->
  Z.pos m * 2 ^ (e - c) <= Z.pos M * 2 ^ (E - c) ->
  binary_round F64.prec F64.emax s m e = S754_zero s \/
  exists m3 e3,
    binary_round F64.prec F64.emax s m e = S754_finite s m3 e3 /\
    canon m3 e3 /\ mag_le m3 e3 M E.
Proof.
  intros HM HE Hce HcE Hc Hle.
  destruct binary_round_aligned as (mz & ez & -> & Hez & Hmz & Hlow).
  assert (Hcz : c <= ez) by (rewrite Hez, fexp_value; lia).
  apply binary_round_aux_upper with (c := c); try assumption.
  rewrite Hmz, <- Z.mul_assoc, <- Z.pow_add_r by lia.
  replace (e - ez + (ez - c)) with (e - c) by lia. assumption.
Qed.

Lemma binary_round_lower (M : positive) (E c : Z) :
  canon M E -> c <= e -> c <= E -> c <= -1074 ->
  Z.pos M * 2 ^ (E - c) <= Z.pos m * 2 ^ (e - c) ->
  binary_round F64.prec F64.emax s m e = S754_infinity s \/
  exists m3 e3,
    binary_round F64.prec F64.emax s m e = S754_finite s m3 e3 /\
    canon m3 e3 /\ mag_le M E m3 e3.
Proof.
  intros HM Hce HcE Hc Hle.
  destruct binary_round_aligned as (mz & ez & -> & Hez & Hmz & Hlow).
  assert (Hcz : c <= ez) by (rewrite Hez, fexp_value; lia).
  apply binary_round_aux_lower with (c := c); try assumption.
  rewrite Hmz, <- Z.mul_assoc, <- Z.pow_add_r by lia.
  replace (e - ez + (ez - c)) with (e - c) by lia. assumption.
Qed.

End BinaryRound.

(** ** Subtraction and multiplication of binary64 floats *)

Section FloatArith.

Local Abbreviation fexp := (SpecFloat.fexp F64.prec F64.emax).

Lemma binary_normalize_valid (z e : Z) (szero : bool) :
  valid (binary_normalize F64.prec F64.emax z e szero).
Proof.
  destruct z as [|p|p]; cbn [binary_normalize];
    [reflexivity|apply binary_round_valid..].
Qed.

Lemma valid_opp_finite (s s' : bool) (m : positive) (e : Z) :
  valid (S754_finite s m e) -> valid (S754_finite s' m e).
Proof. intros H. exact H. Qed.

Lemma sub_valid (x y : float) : valid x -> valid y -> valid (F64.sub x y).
Proof.
  intros Hx Hy. unfold F64.sub, SFsub.
  destruct x as [sx|sx| |sx mx ex], y as [sy|sy| |sy my ey];
    try reflexivity; try assumption.
  - destruct sx, sy; reflexivity.
  - destruct sx, sy; reflexivity.
  - apply binary_normalize_valid.
Qed.

Lemma product_exponent_low (mx my : positive) (ex ey : Z) :
  canon mx ex -> canon my ey ->
  ex + ey <= fexp (Z.pos (digits2_pos (mx * my)) + (ex + ey)).
Proof.
  intros (Hx & Hex & Hnx) (Hy & Hey & Hny). rewrite fexp_value.
  pose proof (digits2_bounds (mx * my)) as [_ Hhi].
  set (d := Z.pos (digits2_pos (mx * my))) in *.
  rewrite Pos2Z.inj_mul in Hhi.
  assert (Hbig : 2 ^ 52 <= Z.pos mx * Z.pos my -> 53 <= d).
  { intros H52. destruct (Z.le_gt_cases 53 d) as [|Hlt]; [assumption|].
    assert (2 ^ d <= 2 ^ 52) by (apply Z.pow_le_mono_r; subst d; lia). lia. }
  destruct Hnx as [Hnx|Hnx]; [assert (53 <= d) by (apply Hbig; nia); lia|].
  destruct Hny as [Hny|Hny]; [assert (53 <= d) by (apply Hbig; nia); lia|].
  lia.
Qed.

Lemma mul_valid (x y : float) : valid x -> valid y -> valid (F64.mul x y).
Proof.
  intros Hx Hy. unfold F64.mul, SFmul.
  destruct x as [sx|sx| |sx mx ex], y as [sy|sy| |sy my ey];
    try reflexivity.
  apply valid_finite in Hx as [Hx _]. apply valid_finite in Hy as [Hy _].
  apply binary_round_aux_valid. apply product_exponent_low; assumption.
Qed.

(** The product of two numbers that are not negative is not negative. *)
Lemma mul_nonneg (x y : float) :
  valid x -> valid y -> finite x = true -> finite y = true ->
  nonneg x = true -> nonneg y = true -> nonneg (F64.mul x y) = true.
Proof.
  intros Hx Hy Hfx Hfy Hnx Hny. unfold F64.mul, SFmul.
  destruct x as [sx|sx| |[] mx ex], y as [sy|sy| |[] my ey];
    try discriminate; try reflexivity.
  apply valid_finite in Hx as [Hx _]. apply valid_finite in Hy as [Hy _].
  cbn [xorb].
  destruct (binary_round_aux_outcome false (mx * my) (ex + ey)
              (product_exponent_low mx my ex ey Hx Hy))
    as (m2 & _ & [[_ ->]|(m3 & e3 & _ & _ & _ & ->)]); [reflexivity|].
  destruct (e3 <=? 971); reflexivity.
Qed.

Lemma mag_le_compare (m1 : positive) (e1 : Z) (m2 : positive) (e2 : Z) :
  mag_le m1 e1 m2 e2 ->
  match Z.compare e1 e2 with
  | Lt => Lt
  | Gt => Gt
  | Eq => Pos.compare_cont Eq m1 m2
  end <> Gt.
Proof.
  intros [Hlt|[-> Hle]].
  - apply Z.compare_lt_iff in Hlt. rewrite Hlt. discriminate.
  - rewrite Z.compare_refl. exact Hle.
Qed.

Lemma mag_le_compare_opp (m1 : positive) (e1 : Z) (m2 : positive) (e2 : Z) :
  mag_le m1 e1 m2 e2 ->
  match Z.compare e2 e1 with
  | Lt => Gt
  | Gt => Lt
  | Eq => CompOpp (Pos.compare_cont Eq m2 m1)
  end <> Gt.
Proof.
  intros [Hlt|[-> Hle]].
  - apply Z.compare_gt_iff in Hlt. rewrite Hlt. discriminate.
  - rewrite Z.compare_refl.
    change (Pos.compare_cont Eq m2 m1) with (Pos.compare m2 m1).
    rewrite Pos.compare_antisym, CompOpp_involutive.
    exact Hle.
Qed.

(** Subtracting a number that is not negative does not raise a float. *)
Lemma sub_nonneg_le (x p : float) :
  valid x -> valid p -> below_inf x = true -> nonneg p = true ->
  F64.leb (F64.sub x p) x = true.
Proof.
  intros Hx Hp Hbx Hnp.
  destruct p as [sp|[]| |[] mp ep]; try discriminate.
  - (* p is a zero *)
    destruct x as [[]|[]| |[] mx ex]; try discriminate; destruct sp;
      try reflexivity; apply leb_refl; reflexivity.
  - (* p is +inf *)
    destruct x as [[]|[]| |[] mx ex]; try discriminate; reflexivity.
  - (* p is a positive number *)
    destruct x as [sx|[]| |sx mx ex]; try discriminate; try reflexivity.
    apply valid_finite in Hx as [Hx Hex]. apply valid_finite in Hp as [Hp Hep].
    unfold F64.sub, SFsub. cbn [cond_Zopp].
    pose proof (shl_align_spec mx ex (Z.min ex ep)) as Hax.
    pose proof (shl_align_spec mp ep (Z.min ex ep)) as Hap.
    destruct (shl_align mx ex (Z.min ex ep)) as [X ezx].
    destruct (shl_align mp ep (Z.min ex ep)) as [P ezp].
    destruct Hax as [Hezx HX]. destruct Hap as [Hezp HP]. cbn [fst].
    set (ez := Z.min ex ep) in *.
    replace ezx with ez in HX by lia. replace ezp with ez in HP by lia.
    pose proof Hx as (_ & Hexmin & _). pose proof Hp as (_ & Hepmin & _).
    assert (Hsplit : 2 ^ (ex - (-1074))
                     = 2 ^ (ex - ez) * 2 ^ (ez - (-1074))).
    { rewrite <- Z.pow_add_r by lia. f_equal. lia. }
    assert (HA : 0 < 2 ^ (ez - (-1074))) by (apply Z.pow_pos_nonneg; lia).
    unfold F64.leb, SFleb, SFcompare.
    destruct sx; cbn [cond_Zopp].
    + (* x is negative: the magnitude grows *)
      destruct (- Z.pos X - Z.pos P) as [|q|q] eqn:Hq; [lia|lia|].
      cbn [binary_normalize].
      destruct (binary_round_lower true q ez mx ex (-1074) Hx
                  ltac:(lia) ltac:(lia) ltac:(lia)) as [->|Hfin].
      * rewrite Hsplit, Z.mul_assoc. apply Z.mul_le_mono_nonneg_r; lia.
      * reflexivity.
      * destruct Hfin as (m3 & e3 & -> & _ & Hmag).
        pose proof (mag_le_compare_opp _ _ _ _ Hmag) as Hc.
        destruct (Z.compare e3 ex); try congruence; try reflexivity.
        destruct (CompOpp _); try congruence; reflexivity.
    + (* x is positive *)
      destruct (Z.pos X - Z.pos P) as [|q|q] eqn:Hq;
        cbn [binary_normalize].
      * reflexivity.
      * destruct (binary_round_upper false q ez mx ex (-1074) Hx Hex
                    ltac:(lia) ltac:(lia) ltac:(lia)) as [->|Hfin].
        -- rewrite Hsplit, Z.mul_assoc. apply Z.mul_le_mono_nonneg_r; lia.
        -- reflexivity.
        -- destruct Hfin as (m3 & e3 & -> & _ & Hmag).
           pose proof (mag_le_compare _ _ _ _ Hmag) as Hc.
           destruct (Z.compare e3 ex); try congruence; try reflexivity.
           destruct (Pos.compare_cont _ _ _); try congruence; reflexivity.
      * pose proof (binary_round_sign true q ez) as Hs.
        destruct (binary_round _ _ true q ez) as [s'|s'| |s' m3 e3];
          try contradiction; subst s'; reflexivity.
Qed.

End FloatArith.

(** ** The search on a well-formed composite image *)

Section TileFacts.

Variables (H W : Z).
Hypothesis H_pos : 0 < H.
Hypothesis W_pos : 0 < W.

Lemma searchable_clean (x : float) : searchable x = true -> clean x.
Proof.
  unfold clean, F64.inf.
  destruct x as [[]|[]| |]; cbn; intros; try discriminate; split;
    discriminate.
Qed.

Lemma tile_ok_clean (tile : ndarray) :
  tile_ok H W tile -> all_cells clean tile.
Proof.
  intros (_ & _ & Hcells) i j x Hx. apply searchable_clean. eauto.
Qed.

Lemma rectangular_set2 (a : ndarray) (i j : nat) (v : float) :
  rectangular a -> rectangular (set2 a i j v).
Proof.
  unfold rectangular. rewrite shape_set2. intros Hrect.
  unfold set2. destruct (a !! i) as [row|] eqn:Hrow; [|assumption].
  apply Forall_insert; [assumption|].
  rewrite length_insert. rewrite Forall_forall in Hrect.
  apply Hrect. eapply list_elem_of_lookup_2. eassumption.
Qed.

Lemma sub_inf_searchable (x : float) :
  searchable x = true -> F64.sub x F64.inf = F64.neg_inf.
Proof. destruct x as [[]|[]| |]; cbn; intros; try discriminate; reflexivity. Qed.

Lemma tile_ok_mark_cell (tile : ndarray) (r c : Z) :
  tile_ok H W tile -> tile_ok H W (mark_cell tile r c).
Proof.
  intros (Hshape & Hrect & Hcells). unfold mark_cell.
  destruct (get2 tile _ _) as [x|] eqn:Hx; [|repeat split; assumption].
  repeat split.
  - rewrite shape_set2. assumption.
  - apply rectangular_set2. assumption.
  - intros i j y Hy. rewrite get2_set2 in Hy.
    destruct (get2 tile i j) as [y0|] eqn:Hy0; [|discriminate].
    cbn in Hy. injection Hy as <-.
    destruct (_ && _)%bool; [|eauto].
    rewrite (sub_inf_searchable x) by eauto. reflexivity.
Qed.

Lemma length_concat_rect (a : list (list float)) (m : nat) :
  Forall (fun row => length row = m) a ->
  length (concat a) = (length a * m)%nat.
Proof.
  induction 1 as [|row a Hrow _ IH]; cbn; [reflexivity|].
  rewrite length_app, IH, Hrow. reflexivity.
Qed.

Lemma tile_ok_composite (tile : ndarray) :
  tile_ok H W tile -> composite H W tile.
Proof. intros (Hshape & Hrect & _). split; assumption. Qed.

Lemma tile_size (tile : ndarray) :
  composite H W tile ->
  Z.of_nat (length (concat tile)) = (H * 2) * (W * 2).
Proof.
  intros (Hshape & Hrect).
  rewrite (length_concat_rect tile (Z.to_nat (W * 2))).
  - pose proof (f_equal fst Hshape) as Hn. cbn [fst shape] in Hn. lia.
  - unfold rectangular in Hrect. rewrite Hshape in Hrect. cbn [snd] in Hrect.
    eapply Forall_impl; [exact Hrect|]. cbn. intros row Hlen. lia.
Qed.

Lemma argmax_from_range (l : list float) (best_i : nat) (best : float)
    (i : nat) :
  (best_i < i)%nat -> (argmax_from best_i best i l < i + length l)%nat.
Proof.
  revert best_i best i.
  induction l as [|x l IH]; intros best_i best i Hlt; cbn; [lia|].
  destruct (F64.is_nan best); [lia|].
  destruct (negb (F64.leb x best)).
  - specialize (IH i x (S i)). lia.
  - specialize (IH best_i best (S i)). lia.
Qed.

Lemma argmax_range (tile : ndarray) :
  composite H W tile ->
  exists idx, argmax tile = Ok idx /\ 0 <= idx < (H * 2) * (W * 2).
Proof.
  intros Hok. pose proof (tile_size tile Hok) as Hsize.
  unfold argmax. destruct (concat tile) as [|x l]; cbn [length] in Hsize.
  - lia.
  - eexists. split; [reflexivity|].
    pose proof (argmax_from_range l 0 x 1). lia.
Qed.

(** The cell of a position of the image. *)
Lemma getitem_composite (tile : ndarray) (r c : Z) :
  composite H W tile -> 0 <= r < H * 2 -> 0 <= c < W * 2 ->
  exists x, getitem tile (r, c) = Ok x /\
            get2 tile (Z.to_nat r) (Z.to_nat c) = Some x.
Proof.
  intros (Hshape & Hrect) Hr Hc.
  destruct (get2_in_range tile (H * 2) (W * 2) (Z.to_nat r) (Z.to_nat c)
              Hrect Hshape) as [x Hx]; [lia..|].
  exists x. split; [|assumption].
  unfold getitem. rewrite Hshape. cbn [fst snd].
  rewrite !index_in_range by assumption. cbn [bind]. rewrite Hx.
  reflexivity.
Qed.

Lemma getitem_tile (tile : ndarray) (r c : Z) :
  tile_ok H W tile -> 0 <= r < H * 2 -> 0 <= c < W * 2 ->
  exists x, getitem tile (r, c) = Ok x /\
            get2 tile (Z.to_nat r) (Z.to_nat c) = Some x /\
            searchable x = true.
Proof.
  intros Hok Hr Hc.
  destruct (getitem_composite tile r c (tile_ok_composite tile Hok) Hr Hc)
    as (x & Hget & Hx).
  exists x. repeat split; [assumption..|].
  destruct Hok as (_ & _ & Hcells). eauto.
Qed.

(** The layer and the local coordinates of a position, and back. *)
Lemma single_coords_spec (r c : Z) :
  0 <= r < H * 2 -> 0 <= c < W * 2 ->
  let max_coords := (r, c) in
  let single_coords :=
    if (fst max_coords <? H) && (snd max_coords <? W)
    then max_coords
    else global_to_single_coords max_coords (H, W) in
  let cell_type := cell_type_from_global_coords max_coords (H, W) in
  0 <= fst single_coords < H /\ 0 <= snd single_coords < W /\
  0 <= cell_type <= 3 /\
  r = fst single_coords + cell_type / 2 * H /\
  c = snd single_coords + cell_type mod 2 * W.
Proof.
  intros Hr Hc. cbn zeta. cbn [fst snd].
  unfold global_to_single_coords, cell_type_from_global_coords.
  cbn [fst snd].
  assert (Hqr : 0 <= r / H < 2).
  { split; [apply Z.div_pos; lia | apply Z.div_lt_upper_bound; lia]. }
  assert (Hqc : 0 <= c / W < 2).
  { split; [apply Z.div_pos; lia | apply Z.div_lt_upper_bound; lia]. }
  pose proof (Z.mul_div_le r H H_pos).
  pose proof (Z.mul_succ_div_gt r H H_pos).
  pose proof (Z.mul_div_le c W W_pos).
  pose proof (Z.mul_succ_div_gt c W W_pos).
  assert (Hdiv : (r / H * 2 + c / W) / 2 = r / H).
  { rewrite Z.div_add_l by lia. rewrite (Z.div_small (c / W) 2) by lia.
    lia. }
  assert (Hmod : (r / H * 2 + c / W) mod 2 = c / W).
  { rewrite Z.add_comm, Z.mod_add by lia. apply Z.mod_small. lia. }
  rewrite Hdiv, Hmod.
  destruct (Z.ltb_spec r H) as [Hlr|Hlr];
    [destruct (Z.ltb_spec c W) as [Hlc|Hlc]|]; cbn [andb fst snd].
  - assert (r / H = 0) as -> by (apply Z.div_small; lia).
    assert (c / W = 0) as -> by (apply Z.div_small; lia). lia.
  - repeat split; lia.
  - repeat split; lia.
Qed.

Lemma overlap_position (r w o : Z) :
  0 <= r < H -> 0 <= w < W -> 0 <= o <= 3 ->
  let idx := local_coords_to_global_idx (r, w) o (H, W) (H * 2, W * 2) in
  0 <= idx < (H * 2) * (W * 2) /\
  idx / (W * 2) = r + o / 2 * H /\ idx mod (W * 2) = w + o mod 2 * W.
Proof.
  intros Hr Hw Ho. destruct (cell_type_cases o Ho) as [Hq Hm].
  cbn zeta. unfold local_coords_to_global_idx. cbn [fst snd].
  set (R := r + o / 2 * H). set (C := w + o mod 2 * W).
  assert (HR : 0 <= R < H * 2) by (subst R; destruct Hq as [-> | ->]; lia).
  assert (HC : 0 <= C < W * 2) by (subst C; destruct Hm as [-> | ->]; lia).
  split; [nia|]. split.
  - rewrite Z.div_add_l by lia. rewrite (Z.div_small C) by lia. lia.
  - rewrite Z.add_comm, Z.mod_add by lia. apply Z.mod_small. lia.
Qed.

End TileFacts.

Section NoCrossTalk.

Variables (H W : Z).
Hypothesis H_pos : 0 < H.
Hypothesis W_pos : 0 < W.

Variable correlations : Z -> Z -> ndarray.
Hypothesis no_cross_talk : forall a b, zero_kernel (correlations a b).

Lemma searchable_finite (x : float) :
  searchable x = true -> F64.eqb x F64.neg_inf = false -> finite x = true.
Proof. destruct x as [[]|[]| |]; cbn; intros; congruence. Qed.

Lemma range_spec (n : nat) (c : Z) : c ∈ range n <-> 0 <= c < Z.of_nat n.
Proof.
  unfold range. rewrite list_elem_of_fmap. split.
  - intros (k & -> & Hk). apply elem_of_seq in Hk. lia.
  - intros Hc. exists (Z.to_nat c). split; [lia|]. apply elem_of_seq. lia.
Qed.

Lemma NoDup_range (n : nat) : NoDup (range n).
Proof.
  unfold range. apply NoDup_fmap_2; [|apply NoDup_seq].
  intros a b. lia.
Qed.

(** Without cross-talk the corrections after a spike only mark the cell
    of the maximum, in the layer it came from. *)
Lemma correct_overlaps_zero (single_coords : Z * Z) (c : Z) (v : float)
    (overlap_cell_types : list Z) :
  0 <= fst single_coords < H -> 0 <= snd single_coords < W ->
  finite v = true ->
  NoDup overlap_cell_types ->
  Forall (fun o => 0 <= o <= 3) overlap_cell_types ->
  forall tile, tile_ok H W tile ->
  correct_overlaps correlations (H, W) (H * 2, W * 2) single_coords c v tile
                   overlap_cell_types =
  Ok (if bool_decide (c ∈ overlap_cell_types)
      then mark_cell tile (fst single_coords + c / 2 * H)
                          (snd single_coords + c mod 2 * W)
      else tile).
Proof.
  destruct single_coords as [r w]. cbn [fst snd].
  intros Hr Hw Hv Hnodup Hrange.
  induction overlap_cell_types as [|o l IH]; intros tile Hok;
    cbn [correct_overlaps]; [reflexivity|].
  apply NoDup_cons in Hnodup as [Hnotin Hnodup].
  apply Forall_cons in Hrange as [Ho Hrange].
  destruct (overlap_position H W H_pos W_pos r w o Hr Hw Ho)
    as (Hidx & Hrow & Hcol). cbn zeta in Hidx, Hrow, Hcol.
  set (idx := local_coords_to_global_idx (r, w) o (H, W) (H * 2, W * 2))
    in *.
  pose proof Hok as (Hshape & Hrect & Hcells).
  destruct (zone_position H W tile (correlations c o) idx H_pos W_pos
              Hshape Hidx) as (Hzr & Hzc & _).
  destruct (adjust_zero_kernel H W tile (correlations c o) idx v H_pos W_pos
              Hshape Hrect Hidx (no_cross_talk c o) Hv
              (tile_ok_clean H W tile Hok) (o =? c))
    as (x & Hx & ->).
  rewrite Hzr, Hzc, Hrow, Hcol in *. cbn [bind].
  destruct (Z.eqb_spec o c) as [->|Hne].
  - rewrite bool_decide_eq_true_2 by left.
    assert (Hmark : set2 tile (Z.to_nat (r + c / 2 * H))
                      (Z.to_nat (w + c mod 2 * W)) (F64.sub x F64.inf)
                    = mark_cell tile (r + c / 2 * H) (w + c mod 2 * W)).
    { unfold mark_cell. rewrite Hx. reflexivity. }
    rewrite Hmark, (IH Hnodup Hrange) by (apply tile_ok_mark_cell; assumption).
    rewrite bool_decide_eq_false_2 by assumption. reflexivity.
  - rewrite (IH Hnodup Hrange) by assumption. f_equal.
    destruct (bool_decide (c ∈ l)) eqn:Hd.
    + apply bool_decide_eq_true in Hd.
      rewrite bool_decide_eq_true_2 by (right; assumption). reflexivity.
    + apply bool_decide_eq_false in Hd.
      rewrite bool_decide_eq_false_2; [reflexivity|].
      intros Hin. apply elem_of_cons in Hin as [?|?]; congruence.
Qed.

(** Without cross-talk the search is the plain selection of the
    successive maxima. *)
Lemma focal_loop_zero_kernels (num_images : nat) (total_spikes : Z)
    (cycles : nat) :
  (num_images <= 4)%nat ->
  forall (count : Z) (tile : ndarray) (ordered_spikes : list spike),
  tile_ok H W tile ->
  focal_loop correlations (H, W) (H * 2, W * 2) num_images total_spikes
             cycles count tile ordered_spikes =
  select_loop (H, W) (H * 2, W * 2) num_images total_spikes
              cycles count tile ordered_spikes.
Proof.
  intros Hnum.
  induction cycles as [|cycles IH]; intros count tile acc Hok;
    [reflexivity|].
  cbn [focal_loop select_loop].
  destruct (progress count total_spikes) as [[]|e]; [|reflexivity].
  cbn [bind].
  destruct (argmax_range H W H_pos W_pos tile
              (tile_ok_composite H W tile Hok)) as (idx & -> & Hidx).
  cbn [bind].
  unfold unravel_index. cbn [fst snd].
  destruct (Z.leb_spec 0 idx); [|lia].
  destruct (Z.ltb_spec idx (H * 2 * (W * 2))); [|lia].
  cbn [andb bind].
  assert (Hr : 0 <= idx / (W * 2) < H * 2).
  { split; [apply Z.div_pos; lia | apply Z.div_lt_upper_bound; lia]. }
  assert (Hc : 0 <= idx mod (W * 2) < W * 2) by (apply Z.mod_pos_bound; lia).
  destruct (getitem_tile H W H_pos W_pos tile _ _ Hok Hr Hc)
    as (x & -> & Hx & Hsx).
  cbn [bind].
  destruct (F64.eqb x F64.inf || F64.eqb x F64.neg_inf || F64.eqb x F64.nan)
    eqn:Hbad; [reflexivity|].
  apply orb_false_elim in Hbad as [Hbad _].
  apply orb_false_elim in Hbad as [_ Hninf].
  pose proof (searchable_finite x Hsx Hninf) as Hfin.
  destruct (single_coords_spec H W H_pos W_pos _ _ Hr Hc)
    as (Hsr & Hsc & Hct & Hrow & Hcol).
  cbn zeta in Hsr, Hsc, Hct, Hrow, Hcol. cbn [fst snd] in *.
  set (single_coords :=
         if (idx / (W * 2) <? H) && (idx mod (W * 2) <? W)
         then (idx / (W * 2), idx mod (W * 2))
         else global_to_single_coords (idx / (W * 2), idx mod (W * 2)) (H, W))
    in *.
  set (cell_type :=
         cell_type_from_global_coords (idx / (W * 2), idx mod (W * 2)) (H, W))
    in *.
  rewrite (correct_overlaps_zero single_coords
             cell_type x (range num_images) Hsr Hsc Hfin
             (NoDup_range num_images)) by
    first [ assumption
          | apply Forall_forall; intros o Ho; apply range_spec in Ho; lia ].
  cbn [bind]. rewrite <- Hrow, <- Hcol.
  apply IH.
  destruct (bool_decide _); [apply tile_ok_mark_cell|]; assumption.
Qed.

End NoCrossTalk.

(** ** [numpy.argmax] finds a maximum *)

Section ArgmaxFacts.

Lemma argmax_from_spec (L l : list float) (best_i : nat) (best : float)
    (i : nat) :
  L !! best_i = Some best ->
  (forall k, l !! k = L !! (i + k)%nat) ->
  (F64.is_nan best = false ->
   forall k x, (k < i)%nat -> L !! k = Some x -> F64.leb x best = true) ->
  exists v,
    L !! argmax_from best_i best i l = Some v /\
    (F64.is_nan v = false ->
     forall k x, (k < i + length l)%nat -> L !! k = Some x ->
                 F64.leb x v = true).
Proof.
  revert best_i best i.
  induction l as [|y l IH]; intros best_i best i Hbest Hl Hmax;
    cbn [argmax_from length].
  - exists best. split; [assumption|]. intros Hnan k x Hk.
    apply (Hmax Hnan k). lia.
  - assert (Hy : L !! i = Some y).
    { pose proof (Hl 0%nat) as H0. rewrite Nat.add_0_r in H0.
      symmetry. exact H0. }
    destruct (F64.is_nan best) eqn:Hnb.
    { exists best. split; [assumption|]. congruence. }
    specialize (Hmax eq_refl).
    assert (Htail : forall k, l !! k = L !! (S i + k)%nat).
    { intros k. pose proof (Hl (S k)) as Hk.
      change ((y :: l) !! S k) with (l !! k) in Hk.
      rewrite Hk. f_equal. lia. }
    destruct (F64.leb y best) eqn:Hle; cbn [negb].
    + destruct (IH best_i best (S i) Hbest Htail) as (v & Hv & Hall).
      * intros _ k x Hk Hx. destruct (decide (k = i)) as [->|Hne].
        -- congruence.
        -- apply (Hmax k); [lia | assumption].
      * exists v. split; [assumption|]. intros Hnan k x Hk.
        apply (Hall Hnan k). lia.
    + destruct (IH i y (S i) Hy Htail) as (v & Hv & Hall).
      * intros Hny k x Hk Hx. destruct (decide (k = i)) as [->|Hne].
        -- replace x with y by congruence. apply leb_refl. assumption.
        -- apply leb_trans with best; [apply (Hmax k); [lia | assumption]|].
           apply leb_total; assumption.
      * exists v. split; [assumption|]. intros Hnan k x Hk.
        apply (Hall Hnan k). lia.
Qed.

Lemma lookup_concat_rect (a : list (list float)) (m i j : nat) :
  Forall (fun row => length row = m) a -> (j < m)%nat ->
  concat a !! (i * m + j)%nat = get2 a i j.
Proof.
  intros Hrect Hj. revert i.
  induction Hrect as [|row a Hrow _ IH]; intros i; cbn [concat].
  - unfold get2. rewrite !lookup_nil. reflexivity.
  - destruct i as [|i].
    + cbn [Nat.mul Nat.add]. rewrite lookup_app_l by lia. reflexivity.
    + rewrite lookup_app_r by lia.
      replace (S i * m + j - length row)%nat with (i * m + j)%nat by lia.
      rewrite IH. reflexivity.
Qed.

Lemma cell_in_concat (a : ndarray) (i j : nat) (x : float) :
  get2 a i j = Some x -> x ∈ concat a.
Proof.
  intros Hx. apply get2_Some in Hx as (row & Hrow & Hj).
  apply list_elem_of_In, in_concat. exists row.
  split; apply list_elem_of_In; eapply list_elem_of_lookup_2; eassumption.
Qed.

Lemma concat_cell (a : ndarray) (x : float) :
  x ∈ concat a -> exists i j, get2 a i j = Some x.
Proof.
  intros Hx. apply list_elem_of_In, in_concat in Hx as (row & Hrow & Hx).
  apply list_elem_of_In, list_elem_of_lookup in Hrow as [i Hi].
  apply list_elem_of_In, list_elem_of_lookup in Hx as [j Hj].
  exists i, j. apply get2_Some. eauto.
Qed.

Variables (H W : Z).
Hypothesis H_pos : 0 < H.
Hypothesis W_pos : 0 < W.

Lemma searchable_not_nan (x : float) :
  searchable x = true -> F64.is_nan x = false.
Proof. destruct x as [[]|[]| |]; cbn; congruence. Qed.

(** The cell that [argmax] designates: unless it is a NaN, it is at
    least as large as every cell of the composite image. *)
Lemma argmax_is_max_composite (tile : ndarray) (idx : Z) :
  composite H W tile -> argmax tile = Ok idx ->
  0 <= idx < (H * 2) * (W * 2) /\
  exists v,
    get2 tile (Z.to_nat (idx / (W * 2))) (Z.to_nat (idx mod (W * 2)))
      = Some v /\
    (F64.is_nan v = false ->
     all_cells (fun x => F64.leb x v = true) tile).
Proof.
  intros Hok Harg.
  pose proof (tile_size H W H_pos W_pos tile Hok) as Hsize.
  destruct (argmax_range H W H_pos W_pos tile Hok) as (idx' & Harg' & Hidx).
  assert (idx' = idx) as -> by congruence. clear Harg'.
  split; [assumption|].
  pose proof Hok as (Hshape & Hrect).
  assert (Hrows : Forall (fun row => length row = Z.to_nat (W * 2)) tile).
  { unfold rectangular in Hrect. rewrite Hshape in Hrect. cbn [snd] in Hrect.
    eapply Forall_impl; [exact Hrect|]. cbn. intros row Hlen. lia. }
  unfold argmax in Harg.
  destruct (concat tile) as [|x0 l] eqn:Hflat; [discriminate|].
  injection Harg as Harg.
  destruct (argmax_from_spec (x0 :: l) l 0 x0 1) as (v & Hv & Hall).
  - reflexivity.
  - intros k. reflexivity.
  - intros Hnan k x Hk Hx. assert (k = 0%nat) as -> by lia.
    cbn in Hx. injection Hx as <-. apply leb_refl. assumption.
  - exists v. split.
    + rewrite <- Hflat in Hv.
      assert (Hpos : argmax_from 0 x0 1 l = Z.to_nat idx) by lia.
      rewrite Hpos in Hv.
      rewrite <- (lookup_concat_rect tile (Z.to_nat (W * 2)))
        by (try assumption; pose proof (Z.mod_pos_bound idx (W * 2)); lia).
      rewrite <- Hv. f_equal.
      rewrite (Z.div_mod idx (W * 2)) at 3 by lia.
      pose proof (Z.mod_pos_bound idx (W * 2)).
      assert (0 <= idx / (W * 2)) by (apply Z.div_pos; lia).
      nia.
    + intros Hnan i j x Hx. apply cell_in_concat in Hx.
      rewrite Hflat in Hx. apply list_elem_of_lookup in Hx as [k Hk].
      apply (Hall Hnan k); [|assumption].
      apply lookup_lt_Some in Hk. cbn [length] in *. lia.
Qed.

(** On a composite image without NaN, the cell that [argmax] designates
    is at least as large as every cell. *)
Lemma argmax_is_max (tile : ndarray) (idx : Z) :
  tile_ok H W tile -> argmax tile = Ok idx ->
  exists v,
    get2 tile (Z.to_nat (idx / (W * 2))) (Z.to_nat (idx mod (W * 2)))
      = Some v /\
    all_cells (fun x => F64.leb x v = true) tile.
Proof.
  intros Hok Harg.
  destruct (argmax_is_max_composite tile idx (tile_ok_composite H W tile Hok)
              Harg) as (_ & v & Hv & Hmax).
  exists v. split; [assumption|]. apply Hmax.
  apply searchable_not_nan. destruct Hok as (_ & _ & Hcells). eauto.
Qed.

End ArgmaxFacts.

(** ** The plain selection emits its values in non-increasing order *)

Section SelectSorted.

Variables (H W : Z).
Hypothesis H_pos : 0 < H.
Hypothesis W_pos : 0 < W.

Lemma all_cells_mark_cell (P : float -> Prop) (tile : ndarray) (r c : Z) :
  tile_ok H W tile -> all_cells P tile -> P F64.neg_inf ->
  all_cells P (mark_cell tile r c).
Proof.
  intros (_ & _ & Hsearch) Hcells Hinf. unfold mark_cell.
  destruct (get2 tile _ _) as [x|] eqn:Hx; [|assumption].
  intros i j y Hy. rewrite get2_set2 in Hy.
  destruct (get2 tile i j) as [y0|] eqn:Hy0; [|discriminate].
  cbn in Hy. injection Hy as <-.
  destruct (_ && _)%bool; [|eauto].
  rewrite (sub_inf_searchable x) by eauto. assumption.
Qed.

Lemma non_increasing_snoc (acc : list spike) (s : spike) :
  non_increasing acc ->
  (forall a, a ∈ acc -> F64.leb (value s) (value a) = true) ->
  non_increasing (acc ++ [s]).
Proof.
  intros Hacc Hs i j a b Hij Ha Hb.
  destruct (decide (j < length acc)%nat) as [Hj|Hj].
  - rewrite lookup_app_l in Ha, Hb by lia. eauto.
  - pose proof (lookup_lt_Some _ _ _ Hb) as Hlen.
    rewrite length_app in Hlen. cbn [length] in Hlen.
    assert (j = length acc) as -> by lia.
    rewrite lookup_app_l in Ha by lia.
    rewrite lookup_app_r, Nat.sub_diag in Hb by lia.
    injection Hb as <-. apply Hs.
    eapply list_elem_of_lookup_2. eassumption.
Qed.

Lemma select_loop_sorted (num_images : nat) (total_spikes : Z)
    (cycles : nat) :
  forall (count : Z) (tile : ndarray) (acc : list spike) (out : outcome),
  tile_ok H W tile -> non_increasing acc ->
  (forall a, a ∈ acc ->
     all_cells (fun x => F64.leb x (value a) = true) tile) ->
  select_loop (H, W) (H * 2, W * 2) num_images total_spikes cycles count
              tile acc = Ok out ->
  non_increasing (ordered_spikes out).
Proof.
  induction cycles as [|cycles IH]; intros count tile acc out Hok Hacc Hinv;
    cbn [select_loop].
  - intros [= <-]. assumption.
  - intros Hrun.
    apply bind_Ok in Hrun as ([] & _ & Hrun).
    apply bind_Ok in Hrun as (idx & Harg & Hrun).
    destruct (argmax_range H W H_pos W_pos tile
              (tile_ok_composite H W tile Hok)) as (idx' & Harg' & Hidx).
    assert (idx' = idx) as -> by congruence. clear Harg'.
    destruct (argmax_is_max H W H_pos W_pos tile idx Hok Harg)
      as (v & Hv & Hmax).
    apply bind_Ok in Hrun as (max_coords & Hcoords & Hrun).
    unfold unravel_index in Hcoords. cbn [fst snd] in Hcoords.
    destruct (Z.leb_spec 0 idx); [|lia].
    destruct (Z.ltb_spec idx (H * 2 * (W * 2))); [|lia].
    cbn [andb] in Hcoords. injection Hcoords as <-.
    assert (Hr : 0 <= idx / (W * 2) < H * 2).
    { split; [apply Z.div_pos; lia | apply Z.div_lt_upper_bound; lia]. }
    assert (Hc : 0 <= idx mod (W * 2) < W * 2)
      by (apply Z.mod_pos_bound; lia).
    destruct (getitem_tile H W H_pos W_pos tile _ _ Hok Hr Hc)
      as (x & Hget & Hx & Hsx).
    rewrite Hget in Hrun. cbn [bind] in Hrun.
    assert (x = v) as -> by congruence.
    pose proof (searchable_not_nan v Hsx) as Hnan.
    destruct (_ || _ || _)%bool; [injection Hrun as <-; assumption|].
    revert Hrun. apply IH.
    + destruct (bool_decide _); [apply tile_ok_mark_cell|]; assumption.
    + apply non_increasing_snoc; [assumption|].
      intros a Ha. cbn [value]. exact (Hinv a Ha _ _ _ Hv).
    + intros a Ha.
      assert (Hbound : all_cells (fun x => F64.leb x (value a) = true) tile).
      { apply elem_of_app in Ha as [Ha|Ha]; [auto|].
        apply list_elem_of_singleton in Ha as ->. exact Hmax. }
      destruct (bool_decide _); [|assumption].
      apply all_cells_mark_cell; [assumption..|].
      apply neg_inf_least.
      exact (proj2 (leb_not_nan _ _ (Hbound _ _ _ Hv))).
Qed.

End SelectSorted.

(** ** The composite image that [focal] builds *)

Section FillFacts.

Variables (H W : Z).
Hypothesis H_pos : 0 < H.
Hypothesis W_pos : 0 < W.

Lemma rectangular_map_cells (g : nat -> nat -> float -> float)
    (a : ndarray) :
  rectangular a -> rectangular (map_cells g a).
Proof.
  unfold rectangular. rewrite shape_map_cells. intros Hrect.
  unfold map_cells. apply Forall_forall. intros row Hrow.
  apply elem_of_lookup_imap in Hrow as (i & row0 & -> & Hi).
  rewrite length_imap. rewrite Forall_forall in Hrect.
  apply Hrect. eapply list_elem_of_lookup_2. eassumption.
Qed.

Lemma zeros_cells (shp : Z * Z) (i j : nat) (x : float) :
  get2 (zeros shp) i j = Some x -> x = F64.zero.
Proof.
  unfold zeros. intros Hx. apply get2_Some in Hx as (row & Hrow & Hj).
  apply lookup_replicate in Hrow as [-> _].
  apply lookup_replicate in Hj as [-> _]. reflexivity.
Qed.

Lemma tile_ok_zeros : tile_ok H W (zeros (H * 2, W * 2)).
Proof.
  unfold zeros. cbn [fst snd].
  set (row0 := replicate (Z.to_nat (W * 2)) F64.zero).
  assert (Hshape : shape (replicate (Z.to_nat (H * 2)) row0)
                   = (H * 2, W * 2)).
  { unfold shape. rewrite length_replicate. f_equal; [lia|].
    destruct (Z.to_nat (H * 2)) as [|n] eqn:Hn; [lia|].
    cbn [replicate]. subst row0. rewrite length_replicate. lia. }
  repeat split.
  - exact Hshape.
  - unfold rectangular. rewrite Hshape. cbn [snd].
    apply Forall_forall. intros row Hrow.
    apply elem_of_replicate in Hrow as [-> _]. subst row0.
    rewrite length_replicate. lia.
  - intros i j x Hx. apply get2_Some in Hx as (row & Hrow & Hj).
    apply lookup_replicate in Hrow as [-> _].
    apply lookup_replicate in Hj as [-> _]. reflexivity.
Qed.

(** A layer with its zeros turned into the sentinel. *)
Lemma sentinel_cells (image : ndarray) :
  all_cells (fun x => finite x = true) image ->
  all_cells (fun x => searchable x = true)
            (fancy_set image (where_eq image F64.zero) F64.neg_inf).
Proof.
  intros Hfin i j y Hy. rewrite get2_fancy_set in Hy.
  destruct (get2 image i j) as [x|] eqn:Hx; [|discriminate].
  cbn in Hy. injection Hy as <-.
  destruct (bool_decide _) eqn:Hd; [reflexivity|].
  apply bool_decide_eq_false in Hd.
  pose proof (Hfin _ _ _ Hx) as Hfx.
  destruct x as [s|s| |s m e]; try discriminate; [|reflexivity].
  exfalso. apply Hd. apply elem_of_where_eq. exists (S754_zero s).
  split; [assumption | destruct s; reflexivity].
Qed.

Lemma fill_big_image_ok (spike_images : list ndarray) :
  Forall (all_cells (fun x => finite x = true)) spike_images ->
  forall (tile : ndarray) (cell_type : Z) (tile' : ndarray),
  tile_ok H W tile ->
  fill_big_image H W tile cell_type spike_images = Ok tile' ->
  tile_ok H W tile'.
Proof.
  induction 1 as [|image rest Himage _ IH]; intros tile ct tile' Hok;
    cbn [fill_big_image].
  - intros [= <-]. assumption.
  - destruct (_ !! Z.to_nat ct) as [[row col]|]; [|discriminate].
    intros Hrun. apply bind_Ok in Hrun as (tile1 & Hassign & Hrun).
    revert Hrun. apply IH.
    unfold assign_window in Hassign.
    apply update_window_Ok in Hassign as [_ ->].
    destruct Hok as (Hshape & Hrect & Hcells). repeat split.
    + rewrite shape_map_cells. assumption.
    + apply rectangular_map_cells. assumption.
    + intros i j y Hy. rewrite get2_map_cells in Hy.
      destruct (get2 tile i j) as [x|] eqn:Hx; [|discriminate].
      cbn in Hy. injection Hy as <-.
      destruct (in_window _ _ _); [|eauto].
      destruct (get2 (fancy_set _ _ _) _ _) as [y|] eqn:Hy; [|eauto].
      exact (sentinel_cells image Himage _ _ _ Hy).
Qed.

End FillFacts.

(** ** Runs without cross-talk *)

Section FocalNoCrossTalk.

Variables (H W : Z).
Hypothesis H_pos : 0 < H.
Hypothesis W_pos : 0 < W.

Lemma valid_images_finite (spike_images : list ndarray) :
  valid_images H W spike_images ->
  Forall (all_cells (fun x => finite x = true)) spike_images.
Proof.
  unfold valid_images. intros Hvalid.
  eapply Forall_impl; [exact Hvalid|]. intros image (_ & _ & Hfin).
  exact Hfin.
Qed.

(** The search that [focal] starts, when it gets that far. *)
Lemma focal_Ok (correlations : Z -> Z -> ndarray)
    (spike_images : list ndarray) (spikes_per_unit : float)
    (out : outcome) :
  valid_images H W spike_images ->
  focal correlations spike_images spikes_per_unit = Ok out ->
  exists max_cycles tile cycles,
    budget spikes_per_unit (total_nonzero spike_images) = Ok max_cycles /\
    xrange max_cycles = Ok cycles /\
    tile_ok H W tile /\
    focal_loop correlations (H, W) (H * 2, W * 2) (length spike_images)
               (total_nonzero spike_images) cycles 0 tile [] = Ok out.
Proof.
  intros Hvalid. unfold focal.
  destruct spike_images as [|image0 rest]; [discriminate|].
  pose proof (Forall_inv Hvalid) as (Hshape & _).
  rewrite Hshape. intros Hrun.
  apply bind_Ok in Hrun as (max_cycles & Hbudget & Hrun).
  apply bind_Ok in Hrun as (tile & Hfill & Hrun).
  apply bind_Ok in Hrun as (cycles & Hrange & Hrun).
  exists max_cycles, tile, cycles.
  split; [assumption|]. split; [assumption|]. split; [|assumption].
  eapply fill_big_image_ok; [ | | exact Hfill].
  - apply valid_images_finite. assumption.
  - apply tile_ok_zeros; assumption.
Qed.

(** Two families of kernels without cross-talk give the same run. *)
Lemma focal_no_cross_talk (correlations correlations' : Z -> Z -> ndarray)
    (spike_images : list ndarray) (spikes_per_unit : float) :
  (forall a b, zero_kernel (correlations a b)) ->
  (forall a b, zero_kernel (correlations' a b)) ->
  valid_images H W spike_images -> (length spike_images <= 4)%nat ->
  focal correlations spike_images spikes_per_unit =
  focal correlations' spike_images spikes_per_unit.
Proof.
  intros Hzero Hzero' Hvalid Hlen. unfold focal.
  destruct spike_images as [|image0 rest]; [reflexivity|].
  pose proof (Forall_inv Hvalid) as (Hshape & _).
  rewrite Hshape.
  destruct (budget _ _) as [max_cycles|e]; [|reflexivity]. cbn [bind].
  destruct (fill_big_image _ _ _ _ _) as [tile|e] eqn:Hfill;
    [|reflexivity].
  cbn [bind].
  destruct (xrange max_cycles) as [cycles|e]; [|reflexivity]. cbn [bind].
  assert (Hok : tile_ok H W tile).
  { eapply fill_big_image_ok; [ | | exact Hfill].
    - apply valid_images_finite. assumption.
    - apply tile_ok_zeros; assumption. }
  rewrite !focal_loop_zero_kernels by assumption. reflexivity.
Qed.

End FocalNoCrossTalk.

(** ** Corrections that cannot raise a cell *)

Section Preservation.

Variables (H W : Z).
Hypothesis H_pos : 0 < H.
Hypothesis W_pos : 0 < W.

Lemma rectangular_fancy_set (a : ndarray) (idx : list (nat * nat))
    (v : float) :
  rectangular a -> rectangular (fancy_set a idx v).
Proof.
  unfold fancy_set. revert a.
  induction idx as [|ij idx IH]; intros a Hrect; cbn [foldl];
    [assumption|].
  apply IH. apply rectangular_set2. assumption.
Qed.

Lemma rectangular_fancy_isub (a : ndarray) (idx : list (nat * nat))
    (v : float) :
  rectangular a -> rectangular (fancy_isub a idx v).
Proof.
  unfold fancy_isub.
  assert (Hgen : forall a0 acc, rectangular acc ->
    rectangular (foldl (fun acc ij =>
                          match get2 a0 (fst ij) (snd ij) with
                          | Some x => set2 acc (fst ij) (snd ij) (F64.sub x v)
                          | None => acc
                          end) acc idx)).
  { intros a0. induction idx as [|ij idx IH]; intros acc Hrect; cbn [foldl];
      [assumption|].
    apply IH. destruct (get2 a0 _ _); [apply rectangular_set2|]; assumption. }
  apply Hgen.
Qed.

Lemma rectangular_mark_weird (img : ndarray) (z : zone) (v : float) :
  rectangular img -> rectangular (mark_weird img z v).
Proof.
  intros Hrect. unfold mark_weird.
  apply rectangular_fancy_isub, rectangular_fancy_set. assumption.
Qed.

Variables (img correlation : ndarray) (max_idx : Z) (max_val : float).
Variable is_max_val_layer : bool.
Variable img' : ndarray.
Hypothesis img_composite : composite H W img.
Hypothesis idx_range : 0 <= max_idx < (H * 2) * (W * 2).
Hypothesis call :
  adjust_with_correlation img correlation max_idx max_val is_max_val_layer
  = Ok img'.

(** A call keeps the shape of the composite image. *)
Lemma adjust_composite : composite H W img'.
Proof.
  destruct img_composite as [Hshape Hrect].
  destruct (adjust_with_correlation_Ok H W img correlation max_idx max_val
              H_pos W_pos Hshape idx_range is_max_val_layer img' call)
    as (img1 & Hsub & Hlast).
  cbn zeta in Hlast.
  assert (H1 : composite H W img1).
  { revert Hsub. unfold subtract_correlation, isub_window. intros Hsub.
    apply update_window_Ok in Hsub as [_ ->]. split.
    - rewrite shape_map_cells. assumption.
    - apply rectangular_map_cells. assumption. }
  assert (H2 : composite H W
                 (mark_weird img1 (correlation_zone img correlation max_idx)
                             F64.inf)).
  { destruct H1 as [Hs1 Hr1]. split.
    - rewrite shape_mark_weird. assumption.
    - apply rectangular_mark_weird. assumption. }
  destruct is_max_val_layer.
  - destruct Hlast as (x & _ & ->). destruct H2 as [Hs2 Hr2]. split.
    + rewrite shape_set2. assumption.
    + apply rectangular_set2. assumption.
  - subst img'. assumption.
Qed.

(** A property of the cells that the subtraction of a weighted kernel
    entry, the sentinel and the marking all keep, is kept by a call. *)
Lemma adjust_preserves (P : float -> Prop) :
  (forall x i j c, P x -> get2 correlation i j = Some c ->
                   P (F64.sub x (F64.mul max_val c))) ->
  P F64.neg_inf ->
  (forall x, P x -> P (F64.sub x F64.inf)) ->
  all_cells P img -> all_cells P img'.
Proof.
  intros Hsubtract Hsentinel Hmark Hcells.
  destruct img_composite as [Hshape Hrect].
  destruct (adjust_with_correlation_Ok H W img correlation max_idx max_val
              H_pos W_pos Hshape idx_range is_max_val_layer img' call)
    as (img1 & Hsub & Hlast).
  cbn zeta in Hlast.
  destruct (subtract_correlation_Ok img correlation max_idx max_val img1 Hsub)
    as [_ Hcells1].
  assert (H1 : all_cells P img1).
  { intros i j y Hy. rewrite Hcells1 in Hy.
    destruct (get2 img i j) as [x|] eqn:Hx; [|discriminate].
    cbn in Hy. injection Hy as <-.
    destruct (in_window _ _ _); [|eauto].
    destruct (get2 (scale _ _) _ _) as [y|] eqn:Hy; [|eauto].
    rewrite get2_scale in Hy.
    destruct (get2 (view _ _) _ _) as [c|] eqn:Hc; [|discriminate].
    injection Hy as <-.
    apply get2_view_cell in Hc as (i0 & j0 & Hc). eauto. }
  assert (H2 : all_cells P
                 (mark_weird img1 (correlation_zone img correlation max_idx)
                             F64.inf)).
  { intros i j y Hy. rewrite get2_mark_weird in Hy.
    destruct (get2 img1 i j) as [x|] eqn:Hx; [|discriminate].
    cbn in Hy. injection Hy as <-.
    destruct (bool_decide _); [assumption|eauto]. }
  destruct is_max_val_layer.
  - destruct Hlast as (x & Hx & ->). intros i j y Hy.
    rewrite get2_set2 in Hy.
    destruct (get2 (mark_weird _ _ _) i j) as [x0|] eqn:Hx0; [|discriminate].
    cbn in Hy. injection Hy as <-.
    destruct (_ && _)%bool; eauto.
  - subst img'. assumption.
Qed.

End Preservation.

Section NonnegStep.

Variables (H W : Z).
Hypothesis H_pos : 0 < H.
Hypothesis W_pos : 0 < W.

Variable correlations : Z -> Z -> ndarray.

Lemma leb_below_inf (x a : float) :
  F64.leb x a = true -> finite a = true -> below_inf x = true.
Proof.
  destruct x as [[]|[]| |[] mx ex], a as [[]|[]| |[] ma ea]; cbn;
    intros; congruence.
Qed.

Lemma sub_inf_below (x : float) :
  below_inf x = true -> F64.sub x F64.inf = F64.neg_inf.
Proof. destruct x as [[]|[]| |[]]; cbn; intros; try discriminate; reflexivity. Qed.

Lemma valid_sub_inf (x : float) : valid x -> valid (F64.sub x F64.inf).
Proof. intros Hx. apply sub_valid; [assumption|reflexivity]. Qed.

(** The corrections of all layers after a spike keep what every call
    keeps. *)
Lemma correct_overlaps_preserves (P : float -> Prop)
    (single_coords : Z * Z) (cell_type : Z) (max_val : float)
    (overlap_cell_types : list Z) :
  0 <= fst single_coords < H -> 0 <= snd single_coords < W ->
  Forall (fun o => 0 <= o <= 3) overlap_cell_types ->
  (forall o x i j c, P x ->
     get2 (correlations cell_type o) i j = Some c ->
     P (F64.sub x (F64.mul max_val c))) ->
  P F64.neg_inf ->
  (forall x, P x -> P (F64.sub x F64.inf)) ->
  forall tile tile',
    composite H W tile -> all_cells P tile ->
    correct_overlaps correlations (H, W) (H * 2, W * 2) single_coords
                     cell_type max_val tile overlap_cell_types = Ok tile' ->
    composite H W tile' /\ all_cells P tile'.
Proof.
  destruct single_coords as [r w]. cbn [fst snd].
  intros Hr Hw Hrange Hsubtract Hsentinel Hmark.
  induction overlap_cell_types as [|o l IH]; intros tile tile' Hcomp Hcells;
    cbn [correct_overlaps].
  - intros [= <-]. split; assumption.
  - apply Forall_cons in Hrange as [Ho Hrange].
    intros Hrun. apply bind_Ok in Hrun as (tile1 & Hcall & Hrun).
    destruct (overlap_position H W H_pos W_pos r w o Hr Hw Ho) as (Hidx & _).
    cbn zeta in Hidx.
    apply (IH Hrange tile1 tile'); [| |assumption].
    + exact (adjust_composite H W H_pos W_pos tile _ _ _ _ tile1 Hcomp Hidx
               Hcall).
    + apply (adjust_preserves H W H_pos W_pos tile _ _ _ _ tile1 Hcomp Hidx
               Hcall P); try assumption.
      intros x i j c. apply Hsubtract.
Qed.

Hypothesis kernels_nonneg : forall a b, nonneg_kernel (correlations a b).

(** After the corrections of a spike that is not negative, no cell is
    above the value of the spike. *)
Lemma correct_overlaps_bounded (single_coords : Z * Z) (cell_type : Z)
    (max_val : float) (n : nat) (tile tile' : ndarray) :
  0 <= fst single_coords < H -> 0 <= snd single_coords < W ->
  (n <= 4)%nat ->
  valid max_val -> finite max_val = true -> nonneg max_val = true ->
  composite H W tile ->
  all_cells (fun x => valid x /\ F64.leb x max_val = true) tile ->
  correct_overlaps correlations (H, W) (H * 2, W * 2) single_coords
                   cell_type max_val tile (range n) = Ok tile' ->
  composite H W tile' /\
  all_cells (fun x => valid x /\ F64.leb x max_val = true) tile'.
Proof.
  intros Hr Hw Hn Hv Hfin Hnn Hcomp Hcells.
  assert (Hnan : F64.is_nan max_val = false)
    by (destruct max_val; try discriminate; reflexivity).
  apply correct_overlaps_preserves; try assumption.
  - apply Forall_forall. intros o Ho. apply range_spec in Ho. lia.
  - intros o x i j c [Hx Hle] Hc.
    destruct (kernels_nonneg cell_type o i j c Hc) as (Hvc & Hfc & Hnc).
    pose proof (mul_valid max_val c Hv Hvc) as Hvp.
    pose proof (mul_nonneg max_val c Hv Hvc Hfin Hfc Hnn Hnc) as Hnp.
    split; [apply sub_valid; assumption|].
    apply leb_trans with x; [|assumption].
    apply sub_nonneg_le; try assumption.
    eapply leb_below_inf; eassumption.
  - split; [reflexivity|]. apply neg_inf_least. assumption.
  - intros x [Hx Hle]. split; [apply valid_sub_inf; assumption|].
    rewrite sub_inf_below by (eapply leb_below_inf; eassumption).
    apply neg_inf_least. assumption.
Qed.

(** Whatever the spike, the cells stay floats of the format. *)
Lemma correct_overlaps_valid (single_coords : Z * Z) (cell_type : Z)
    (max_val : float) (n : nat) (tile tile' : ndarray) :
  0 <= fst single_coords < H -> 0 <= snd single_coords < W ->
  (n <= 4)%nat -> valid max_val ->
  composite H W tile -> all_cells valid tile ->
  correct_overlaps correlations (H, W) (H * 2, W * 2) single_coords
                   cell_type max_val tile (range n) = Ok tile' ->
  composite H W tile' /\ all_cells valid tile'.
Proof.
  intros Hr Hw Hn Hv Hcomp Hcells.
  apply correct_overlaps_preserves; try assumption.
  - apply Forall_forall. intros o Ho. apply range_spec in Ho. lia.
  - intros o x i j c Hx Hc.
    destruct (kernels_nonneg cell_type o i j c Hc) as (Hvc & _).
    apply sub_valid; [assumption|]. apply mul_valid; assumption.
  - reflexivity.
  - apply valid_sub_inf.
Qed.

End NonnegStep.

(** ** Runs with kernels that are not negative *)

Section NoRise.

Variables (H W : Z).
Hypothesis H_pos : 0 < H.
Hypothesis W_pos : 0 < W.

Lemma fill_big_image_preserves (P : float -> Prop)
    (spike_images : list ndarray) :
  P F64.neg_inf -> Forall (all_cells P) spike_images ->
  forall (tile : ndarray) (cell_type : Z) (tile' : ndarray),
  composite H W tile -> all_cells P tile ->
  fill_big_image H W tile cell_type spike_images = Ok tile' ->
  composite H W tile' /\ all_cells P tile'.
Proof.
  intros Hsentinel.
  induction 1 as [|image rest Himage _ IH]; intros tile ct tile' Hcomp Hcells;
    cbn [fill_big_image].
  - intros [= <-]. split; assumption.
  - destruct (_ !! Z.to_nat ct) as [[row col]|]; [|discriminate].
    intros Hrun. apply bind_Ok in Hrun as (tile1 & Hassign & Hrun).
    revert Hrun. unfold assign_window in Hassign.
    apply update_window_Ok in Hassign as [_ ->].
    destruct Hcomp as [Hshape Hrect].
    apply IH.
    + split; [rewrite shape_map_cells|apply rectangular_map_cells];
        assumption.
    + intros i j y Hy. rewrite get2_map_cells in Hy.
      destruct (get2 tile i j) as [x|] eqn:Hx; [|discriminate].
      cbn in Hy. injection Hy as <-.
      destruct (in_window _ _ _); [|eauto].
      destruct (get2 (fancy_set _ _ _) _ _) as [y|] eqn:Hy; [|eauto].
      rewrite get2_fancy_set in Hy.
      destruct (get2 image _ _) as [y0|] eqn:Hy0; [|discriminate].
      cbn in Hy. injection Hy as <-.
      destruct (bool_decide _); [assumption|eauto].
Qed.

(** The search that [focal] starts, when it gets that far. *)
Lemma focal_start (correlations : Z -> Z -> ndarray)
    (spike_images : list ndarray) (spikes_per_unit : float)
    (out : outcome) :
  valid_images H W spike_images ->
  focal correlations spike_images spikes_per_unit = Ok out ->
  exists max_cycles tile cycles,
    budget spikes_per_unit (total_nonzero spike_images) = Ok max_cycles /\
    xrange max_cycles = Ok cycles /\
    fill_big_image H W (zeros (H * 2, W * 2)) 0 spike_images = Ok tile /\
    focal_loop correlations (H, W) (H * 2, W * 2) (length spike_images)
               (total_nonzero spike_images) cycles 0 tile [] = Ok out.
Proof.
  intros Hvalid. unfold focal.
  destruct spike_images as [|image0 rest]; [discriminate|].
  pose proof (Forall_inv Hvalid) as (Hshape & _).
  rewrite Hshape. intros Hrun.
  apply bind_Ok in Hrun as (max_cycles & Hbudget & Hrun).
  apply bind_Ok in Hrun as (tile & Hfill & Hrun).
  apply bind_Ok in Hrun as (cycles & Hrange & Hrun).
  exists max_cycles, tile, cycles. auto.
Qed.

Lemma no_rise_snoc (acc : list spike) (s : spike) :
  no_rise acc ->
  (forall a, last acc = Some a -> F64.leb F64.zero (value a) = true ->
             F64.leb (value s) (value a) = true) ->
  no_rise (acc ++ [s]).
Proof.
  intros Hacc Hs i a b Ha Hb Hpos.
  pose proof (lookup_lt_Some _ _ _ Hb) as Hlen.
  rewrite length_app in Hlen. cbn [length] in Hlen.
  destruct (decide (S i < length acc)%nat) as [Hi|Hi].
  - rewrite lookup_app_l in Ha, Hb by lia. eauto.
  - assert (S i = length acc) as Hlast by lia.
    rewrite lookup_app_l in Ha by lia.
    rewrite lookup_app_r in Hb by lia.
    replace (S i - length acc)%nat with 0%nat in Hb by lia.
    injection Hb as <-. apply Hs; [|assumption].
    rewrite last_lookup, <- Hlast. exact Ha.
Qed.

Lemma nonneg_finite (v : float) :
  F64.leb F64.zero v = true -> F64.eqb v F64.inf = false ->
  finite v = true /\ nonneg v = true.
Proof.
  destruct v as [[]|[]| |[] m e]; cbn; intros; try discriminate;
    split; reflexivity.
Qed.

Variable correlations : Z -> Z -> ndarray.
Hypothesis kernels_nonneg : forall a b, nonneg_kernel (correlations a b).

Lemma focal_loop_no_rise (num_images : nat) (total_spikes : Z)
    (cycles : nat) :
  (num_images <= 4)%nat ->
  forall (count : Z) (tile : ndarray) (acc : list spike) (out : outcome),
  composite H W tile -> all_cells valid tile -> no_rise acc ->
  (forall a, last acc = Some a -> F64.leb F64.zero (value a) = true ->
     all_cells (fun x => F64.leb x (value a) = true) tile) ->
  focal_loop correlations (H, W) (H * 2, W * 2) num_images total_spikes
             cycles count tile acc = Ok out ->
  no_rise (ordered_spikes out).
Proof.
  intros Hnum.
  induction cycles as [|cycles IH];
    intros count tile acc out Hcomp Hvalid Hacc Hinv; cbn [focal_loop].
  - intros [= <-]. assumption.
  - intros Hrun.
    apply bind_Ok in Hrun as ([] & _ & Hrun).
    apply bind_Ok in Hrun as (idx & Harg & Hrun).
    destruct (argmax_is_max_composite H W H_pos W_pos tile idx Hcomp Harg)
      as (Hidx & v & Hv & Hmax).
    apply bind_Ok in Hrun as (max_coords & Hcoords & Hrun).
    unfold unravel_index in Hcoords. cbn [fst snd] in Hcoords.
    destruct (Z.leb_spec 0 idx); [|lia].
    destruct (Z.ltb_spec idx (H * 2 * (W * 2))); [|lia].
    cbn [andb] in Hcoords. injection Hcoords as <-.
    assert (Hr : 0 <= idx / (W * 2) < H * 2).
    { split; [apply Z.div_pos; lia | apply Z.div_lt_upper_bound; lia]. }
    assert (Hc : 0 <= idx mod (W * 2) < W * 2)
      by (apply Z.mod_pos_bound; lia).
    destruct (getitem_composite H W H_pos W_pos tile _ _ Hcomp Hr Hc)
      as (x & Hget & Hx).
    rewrite Hget in Hrun. cbn [bind] in Hrun.
    assert (x = v) as -> by congruence.
    pose proof (Hvalid _ _ _ Hv) as Hvv.
    destruct (F64.eqb v F64.inf || F64.eqb v F64.neg_inf || F64.eqb v F64.nan)
      eqn:Hbad; [injection Hrun as <-; assumption|].
    apply orb_false_elim in Hbad as [Hbad _].
    apply orb_false_elim in Hbad as [Hninf _].
    apply bind_Ok in Hrun as (tile1 & Hcorrect & Hrun).
    destruct (single_coords_spec H W H_pos W_pos _ _ Hr Hc)
      as (Hsr & Hsc & _).
    cbn zeta in Hsr, Hsc. cbn [fst snd] in Hsr, Hsc, Hcorrect, Hrun.
    destruct (correct_overlaps_valid H W H_pos W_pos correlations
                kernels_nonneg _ _ _ _ _ _ Hsr Hsc Hnum Hvv Hcomp Hvalid
                Hcorrect) as [Hcomp1 Hvalid1].
    revert Hrun. apply IH; try assumption.
    + apply no_rise_snoc; [assumption|].
      intros a Ha Hpos. cbn [value]. exact (Hinv a Ha Hpos _ _ _ Hv).
    + intros a Ha Hpos. rewrite last_snoc in Ha. injection Ha as <-.
      cbn [value] in *.
      destruct (nonneg_finite v Hpos Hninf) as [Hfin Hnn].
      assert (Hnan : F64.is_nan v = false)
        by (destruct v; try discriminate; reflexivity).
      assert (Hcells : all_cells
                (fun x => valid x /\ F64.leb x v = true) tile).
      { intros i j y Hy. split; [eauto|]. exact (Hmax Hnan _ _ _ Hy). }
      destruct (correct_overlaps_bounded H W H_pos W_pos correlations
                  kernels_nonneg _ _ _ _ _ _ Hsr Hsc Hnum Hvv Hfin Hnn Hcomp
                  Hcells Hcorrect) as [_ Hbounded].
      intros i j y Hy. exact (proj2 (Hbounded _ _ _ Hy)).
Qed.

End NoRise.

(** ** The budget *)

Section BudgetFacts.

(** Rounding keeps the sign it is given. *)
Lemma binary_round_aux_sign (s : bool) (m e : Z) (l : location) :
  match binary_round_aux F64.prec F64.emax s m e l with
  | S754_zero s' | S754_infinity s' | S754_finite s' _ _ => s' = s
  | S754_nan => True
  end.
Proof.
  unfold binary_round_aux.
  destruct (shr_fexp _ _ m e l) as [mrs' e'].
  destruct (shr_fexp _ _ _ e' loc_Exact) as [mrs'' e''].
  destruct (shr_m mrs''); [reflexivity| |exact I].
  destruct (e'' <=? _); reflexivity.
Qed.

Lemma of_Z_sign (n : Z) :
  0 <= n ->
  match F64.of_Z n with
  | S754_zero s | S754_infinity s | S754_finite s _ _ => s = false
  | S754_nan => True
  end.
Proof.
  intros Hn. unfold F64.of_Z, binary_normalize.
  destruct n as [|p|p]; [reflexivity| |lia].
  unfold binary_round. destruct (shl_align _ _ _) as [mz ez].
  apply binary_round_aux_sign.
Qed.

Lemma to_int_negative (m : positive) (e b : Z) :
  F64.to_int (S754_finite true m e) = Ok b -> b <= 0.
Proof.
  cbn. intros [= <-].
  destruct e as [|p|p].
  - lia.
  - pose proof (Z.pow_nonneg 2 (Z.pos p)). nia.
  - assert (0 <= Z.pos m / 2 ^ Z.pos p) by (apply Z.div_pos; lia). lia.
Qed.

Lemma budget_negative (spikes_per_unit : float) (n b : Z) :
  negative spikes_per_unit = true -> 0 <= n ->
  budget spikes_per_unit n = Ok b -> b <= 0.
Proof.
  intros Hneg Hn. unfold budget. pose proof (of_Z_sign n Hn) as Hsign.
  destruct spikes_per_unit as [s|[]| |[] m e]; try discriminate.
  - destruct (F64.of_Z n) as [s'|s'| |s' m' e']; cbn; discriminate.
  - destruct (F64.of_Z n) as [s'|s'| |s' m' e']; try discriminate.
    + cbn. intros [= <-]. lia.
    + subst s'. unfold F64.mul, SFmul. cbn [xorb].
      pose proof (binary_round_aux_sign true (Z.pos (m * m')) (e + e')
                    loc_Exact) as Hround.
      destruct (binary_round_aux _ _ _ _ _ _) as [s|s| |s m0 e0];
        try discriminate.
      * cbn. intros [= <-]. lia.
      * subst s. apply to_int_negative.
Qed.

Lemma total_nonzero_nonneg (spike_images : list ndarray) :
  0 <= total_nonzero spike_images.
Proof.
  unfold total_nonzero.
  assert (Hgen : forall acc, 0 <= acc ->
            0 <= foldl (fun max_cycles image =>
                          max_cycles + count_nonzero image)
                       acc spike_images).
  { induction spike_images as [|image rest IH]; intros acc Hacc;
      cbn [foldl]; [assumption|].
    apply IH. unfold count_nonzero. lia. }
  apply Hgen. lia.
Qed.

End BudgetFacts.

(** ** The budget never exceeds the number of non-zero cells *)

Section BudgetBound.

Lemma mag_le_antisym (m1 : positive) (e1 : Z) (m2 : positive) (e2 : Z) :
  mag_le m1 e1 m2 e2 -> mag_le m2 e2 m1 e1 -> e1 = e2 /\ m1 = m2.
Proof.
  unfold mag_le. lia.
Qed.

(** Counts below 2^53 convert to floats exactly. *)
Lemma of_Z_exact (n : Z) :
  0 < n < 2 ^ 53 ->
  exists M E,
    F64.of_Z n = S754_finite false M E /\ canon M E /\
    -52 <= E <= 0 /\ Z.pos M = n * 2 ^ (- E).
Proof.
  intros Hn. destruct n as [|p|p]; try lia.
  pose proof (digits2_bounds p) as [Hlo Hhi].
  pose proof (digits_le_53 p ltac:(lia)) as Hd53.
  set (d := Z.pos (digits2_pos p)) in *.
  assert (Hd : 1 <= d) by (subst d; lia).
  assert (Hpow : 0 < 2 ^ (53 - d)) by (apply Z.pow_pos_nonneg; lia).
  assert (Hhi' : Z.pos p * 2 ^ (53 - d) < 2 ^ 53).
  { replace 53 with (d + (53 - d)) at 2 by lia.
    rewrite Z.pow_add_r by lia. nia. }
  assert (Hlo' : 2 ^ 52 <= Z.pos p * 2 ^ (53 - d)).
  { replace 52 with (d - 1 + (53 - d)) at 1 by lia.
    rewrite Z.pow_add_r by lia. nia. }
  set (M := Z.to_pos (Z.pos p * 2 ^ (53 - d))).
  assert (HM : Z.pos M = Z.pos p * 2 ^ (53 - d))
    by (subst M; rewrite Z2Pos.id; lia).
  assert (Hcanon : canon M (d - 53)).
  { unfold canon. rewrite HM. lia. }
  assert (Hval : Z.pos p * 2 ^ (0 - -1074)
                 = Z.pos M * 2 ^ (d - 53 - -1074)).
  { rewrite HM, <- Z.mul_assoc, <- Z.pow_add_r by lia. f_equal. f_equal.
    lia. }
  exists M, (d - 53). unfold F64.of_Z. cbn [binary_normalize].
  destruct (binary_round_upper false p 0 M (d - 53) (-1074) Hcanon
              ltac:(lia) ltac:(lia) ltac:(lia) ltac:(lia) ltac:(lia))
    as [Hz|(m3 & e3 & Hr & _ & Hup)];
    destruct (binary_round_lower false p 0 M (d - 53) (-1074) Hcanon
                ltac:(lia) ltac:(lia) ltac:(lia) ltac:(lia))
      as [Hi|(m3' & e3' & Hr' & _ & Hdown)]; try congruence.
  rewrite Hr in Hr'. injection Hr' as <- <-.
  destruct (mag_le_antisym _ _ _ _ Hup Hdown) as [-> ->].
  split; [assumption|]. split; [assumption|]. split; [lia|].
  rewrite HM. f_equal. f_equal. lia.
Qed.

Lemma leb_finite_mag (m1 : positive) (e1 : Z) (m2 : positive) (e2 : Z) :
  F64.leb (S754_finite false m1 e1) (S754_finite false m2 e2) = true ->
  mag_le m1 e1 m2 e2.
Proof.
  unfold F64.leb, SFleb, SFcompare, mag_le.
  destruct (Z.compare_spec e1 e2) as [->|Hlt|Hgt];
    [|left; assumption|discriminate].
  change (Pos.compare_cont Eq m1 m2) with (Pos.compare m1 m2).
  destruct (Pos.compare_spec m1 m2) as [->|Hlt|Hgt]; try discriminate;
    intros _; right; split; try reflexivity; lia.
Qed.

Lemma of_Z_one : F64.of_Z 1 = S754_finite false 4503599627370496 (-52).
Proof. reflexivity. Qed.

Lemma to_int_bound (m3 : positive) (e3 n : Z) (M : positive) (E : Z) :
  0 < n -> -52 <= E <= 0 -> Z.pos M = n * 2 ^ (- E) ->
  canon M E -> canon m3 e3 -> mag_le m3 e3 M E ->
  exists b, F64.to_int (S754_finite false m3 e3) = Ok b /\ 0 <= b <= n.
Proof.
  intros Hn HE HM (HM53 & _ & HMn) (Hm53 & He3 & _) Hmag.
  assert (H52 : 2 ^ 52 <= Z.pos M) by (destruct HMn; [assumption|lia]).
  cbn [F64.to_int]. eexists. split; [reflexivity|].
  assert (Hbound : Z.pos m3 <= n * 2 ^ (- e3)).
  { destruct Hmag as [Hlt|[-> Hle]]; [|lia].
    replace (- e3) with (- E + (E - e3)) by lia.
    rewrite Z.pow_add_r, Z.mul_assoc, <- HM by lia.
    assert (2 <= 2 ^ (E - e3)).
    { change 2 with (2 ^ 1) at 1. apply Z.pow_le_mono_r; lia. }
    assert (2 ^ 53 = 2 ^ 52 * 2) by reflexivity. nia. }
  assert (He3' : e3 <= 0) by (destruct Hmag as [?|[? _]]; lia).
  destruct e3 as [|q|q]; [|lia|].
  - cbn in Hbound. lia.
  - change (- Z.neg q) with (Z.pos q) in Hbound. split.
    + apply Z.div_pos; lia.
    + apply Z.div_le_upper_bound; [apply Z.pow_pos_nonneg; lia|]. lia.
Qed.

(** For a fraction in [0, 1] the budget lies between 0 and the count. *)
Lemma budget_within_total (spikes_per_unit : float) (n : Z) :
  valid spikes_per_unit -> nonneg spikes_per_unit = true ->
  F64.leb spikes_per_unit (F64.of_Z 1) = true ->
  0 <= n < 2 ^ 53 ->
  exists b, budget spikes_per_unit n = Ok b /\ 0 <= b <= n.
Proof.
  intros Hvalid Hnn Hle Hn. unfold budget.
  destruct (Z.eq_dec n 0) as [->|Hnz].
  { exists 0. split; [|lia]. change (F64.of_Z 0) with (S754_zero false).
    destruct spikes_per_unit as [s|[]| |[] m e]; try discriminate;
      reflexivity. }
  destruct (of_Z_exact n ltac:(lia)) as (M & E & -> & Hcanon & HE & HM).
  destruct spikes_per_unit as [s|[]| |[] ms es]; try discriminate.
  { exists 0. split; [reflexivity|lia]. }
  apply valid_finite in Hvalid as [Hs _].
  rewrite of_Z_one in Hle. apply leb_finite_mag in Hle.
  assert (Hone : es < -52 \/ (es = -52 /\ Z.pos ms <= 2 ^ 52)).
  { destruct Hle as [Hlt|[-> Hle]]; [left; assumption|right].
    split; [reflexivity|]. apply Pos2Z.pos_le_pos in Hle. exact Hle. }
  unfold F64.mul, SFmul. cbn [xorb].
  destruct (binary_round_aux_upper false (ms * M) (es + E)
              (product_exponent_low ms M es E Hs Hcanon) M E (es + E) Hcanon
              ltac:(lia) ltac:(lia) ltac:(lia))
    as [->|(m3 & e3 & -> & Hc3 & Hmag)].
  - rewrite Z.sub_diag, Z.pow_0_r, Z.mul_1_r, Pos2Z.inj_mul.
    replace (E - (es + E)) with (- es) by lia.
    rewrite (Z.mul_comm (Z.pos ms)).
    apply Z.mul_le_mono_nonneg_l; [lia|].
    destruct Hs as (Hs53 & _).
    destruct Hone as [Hlt|[-> Hle52]]; [|exact Hle52].
    apply Z.le_trans with (2 ^ 53); [lia|].
    apply Z.pow_le_mono_r; lia.
  - exists 0. split; [reflexivity|lia].
  - apply (to_int_bound m3 e3 n M E); try assumption; lia.
Qed.

End BudgetBound.

(** ** The number of spikes against the budget *)

Section Length.

Variable correlations : Z -> Z -> ndarray.

(** Every iteration appends at most one spike and removes none. *)
Lemma focal_loop_length (img_shape big_shape : Z * Z) (num_images : nat)
    (total_spikes : Z) (cycles : nat) :
  forall (count : Z) (big_image : ndarray) (acc : list spike) (out : outcome),
    focal_loop correlations img_shape big_shape num_images total_spikes
               cycles count big_image acc = Ok out ->
    (length acc <= length (ordered_spikes out) <= length acc + cycles)%nat.
Proof.
  induction cycles as [|cycles IH]; intros count big_image acc out Hrun.
  - cbn [focal_loop] in Hrun. injection Hrun as <-. cbn. lia.
  - cbn [focal_loop] in Hrun. destruct img_shape as [height width].
    apply bind_Ok in Hrun as (_ & _ & Hrun).
    apply bind_Ok in Hrun as (max_idx & _ & Hrun).
    apply bind_Ok in Hrun as (max_coords & _ & Hrun).
    apply bind_Ok in Hrun as (max_val & _ & Hrun).
    destruct (_ || _)%bool.
    + injection Hrun as <-. cbn. lia.
    + apply bind_Ok in Hrun as (big_image' & _ & Hrun).
      apply IH in Hrun. rewrite length_app in Hrun. cbn in Hrun. lia.
Qed.

(** A run that returns has computed its budget and emitted no more spikes
    than the budget allows. *)
Lemma focal_length_within_budget (spike_images : list ndarray)
    (spikes_per_unit : float) (out : outcome) :
  focal correlations spike_images spikes_per_unit = Ok out ->
  exists b,
    budget spikes_per_unit (total_nonzero spike_images) = Ok b /\
    Z.of_nat (length (ordered_spikes out)) <= Z.max 0 b.
Proof.
  intros Hrun. unfold focal in Hrun.
  destruct spike_images as [|image0 rest]; [discriminate|].
  destruct (shape image0) as [height width].
  apply bind_Ok in Hrun as (max_cycles & Hbudget & Hrun).
  apply bind_Ok in Hrun as (tile & _ & Hrun).
  apply bind_Ok in Hrun as (cycles & Hrange & Hrun).
  exists max_cycles. split; [assumption|].
  unfold xrange in Hrange.
  destruct (_ && _)%bool; [|discriminate].
  injection Hrange as <-.
  apply focal_loop_length in Hrun. cbn [length] in Hrun. lia.
Qed.

End Length.

(** ** The composite image that [focal] builds *)

Lemma slice_bound_inside (n b : Z) : 0 <= b <= n -> slice_bound n b = b.
Proof. intros Hb. unfold slice_bound. destruct (Z.ltb_spec b 0); lia. Qed.

Section Fill.

Variables (H W : Z).
Hypothesis H_pos : 0 < H.
Hypothesis W_pos : 0 < W.

(** The corner of the quadrant of a layer (line 87). *)
Lemma big_coords_lookup (c : Z) :
  0 <= c <= 3 ->
  [(0, 0); (0, W); (H, 0); (H, W)] !! Z.to_nat c
  = Some (c / 2 * H, c mod 2 * W).
Proof.
  intros Hc.
  assert (c = 0 \/ c = 1 \/ c = 2 \/ c = 3) as [->|[->|[->| ->]]] by lia.
  - change (0 / 2) with 0. change (0 mod 2) with 0. reflexivity.
  - change (1 / 2) with 0. change (1 mod 2) with 1.
    cbn. rewrite Z.mul_1_l. destruct W; reflexivity.
  - change (2 / 2) with 1. change (2 mod 2) with 0.
    cbn. rewrite Z.mul_1_l. destruct H; reflexivity.
  - change (3 / 2) with 1. change (3 mod 2) with 1.
    cbn. rewrite !Z.mul_1_l. destruct H, W; reflexivity.
Qed.

Lemma big_coords_none (c : Z) :
  4 <= c -> [(0, 0); (0, W); (H, 0); (H, W)] !! Z.to_nat c = None.
Proof. intros Hc. apply lookup_ge_None_2. cbn [length]. lia. Qed.

Lemma get2_sentinel (image : ndarray) (i j : nat) :
  get2 (fancy_set image (where_eq image F64.zero) F64.neg_inf) i j
  = sentinel <$> get2 image i j.
Proof.
  rewrite get2_fancy_set.
  destruct (get2 image i j) as [x|] eqn:Hx; [|reflexivity].
  cbn. f_equal. unfold sentinel.
  destruct (F64.eqb x F64.zero) eqn:Hz.
  - rewrite bool_decide_eq_true_2; [reflexivity|].
    apply elem_of_where_eq. eauto.
  - rewrite bool_decide_eq_false_2; [reflexivity|].
    intros Hin. apply elem_of_where_eq in Hin as (y & Hy & Hyz). congruence.
Qed.

(** Line 92 for one layer: the cells of the quadrant receive the layer,
    the others stay. *)
Lemma assign_layer (tile image : ndarray) (c : Z) :
  composite H W tile -> shape image = (H, W) -> rectangular image ->
  0 <= c <= 3 ->
  let row := c / 2 * H in
  let col := c mod 2 * W in
  let tmp_img := fancy_set image (where_eq image F64.zero) F64.neg_inf in
  exists tile1,
    assign_window tile (slice tile row (row + H) col (col + W))
                  (fst (shape tmp_img)) (snd (shape tmp_img)) tmp_img
      = Ok tile1 /\
    composite H W tile1 /\
    forall i j : nat,
      get2 tile1 i j =
      if in_window (Window row (row + H) col (col + W))
                   (Z.of_nat i) (Z.of_nat j)
      then sentinel <$> get2 image (Z.to_nat (Z.of_nat i - row))
                                   (Z.to_nat (Z.of_nat j - col))
      else get2 tile i j.
Proof.
  intros [Hshape Hrect] Himg Hirect Hc row col tmp_img.
  destruct (cell_type_cases c Hc) as [Hq Hm].
  assert (Hrow : row = 0 \/ row = H)
    by (subst row; destruct Hq as [-> | ->]; lia).
  assert (Hcol : col = 0 \/ col = W)
    by (subst col; destruct Hm as [-> | ->]; lia).
  clearbody row col.
  assert (Hw : slice tile row (row + H) col (col + W)
               = Window row (row + H) col (col + W)).
  { unfold slice. rewrite Hshape.
    rewrite !slice_bound_inside by lia. reflexivity. }
  assert (Htmp : shape tmp_img = (H, W)).
  { subst tmp_img. rewrite shape_fancy_set. assumption. }
  rewrite Hw, Htmp. cbn [fst snd].
  unfold assign_window, update_window, win_rows, win_cols.
  cbn [lo_r hi_r lo_c hi_c].
  replace (Z.max 0 (row + H - row)) with H by lia.
  replace (Z.max 0 (col + W - col)) with W by lia.
  unfold broadcastable. rewrite !Z.eqb_refl. cbn [orb andb].
  eexists. split; [reflexivity|]. split.
  - split; [rewrite shape_map_cells|apply rectangular_map_cells];
      assumption.
  - intros i j. rewrite get2_map_cells.
    destruct (in_window _ _ _) eqn:Hin.
    + unfold in_window in Hin. cbn [lo_r hi_r lo_c hi_c] in Hin.
      rewrite !andb_true_iff, !Z.leb_le, !Z.ltb_lt in Hin.
      destruct (get2_in_range tile (H * 2) (W * 2) i j Hrect Hshape)
        as [x Hx]; [lia..|].
      rewrite Hx. cbn [fmap option_fmap option_map].
      assert (Hbr : bcast H (Z.of_nat i - row) = Z.of_nat i - row).
      { unfold bcast. destruct (Z.eqb_spec H 1); lia. }
      assert (Hbc : bcast W (Z.of_nat j - col) = Z.of_nat j - col).
      { unfold bcast. destruct (Z.eqb_spec W 1); lia. }
      rewrite Hbr, Hbc. subst tmp_img. rewrite get2_sentinel.
      destruct (get2_in_range image H W (Z.to_nat (Z.of_nat i - row))
                  (Z.to_nat (Z.of_nat j - col)) Hirect Himg) as [y Hy];
        [lia..|].
      rewrite Hy. reflexivity.
    + destruct (get2 tile i j); reflexivity.
Qed.

(** Lines 88-92 fill the quadrants of at most four layers. *)
Lemma fill_big_image_cells (spike_images : list ndarray) :
  same_shape H W spike_images ->
  forall (tile : ndarray) (cell_type : Z),
    composite H W tile -> 0 <= cell_type ->
    cell_type + Z.of_nat (length spike_images) <= 4 ->
    exists tile',
      fill_big_image H W tile cell_type spike_images = Ok tile' /\
      composite H W tile' /\
      (forall (n : nat) (image : ndarray) (r w : nat) (x : float),
          spike_images !! n = Some image -> get2 image r w = Some x ->
          let c := cell_type + Z.of_nat n in
          get2 tile' (Z.to_nat (Z.of_nat r + c / 2 * H))
                     (Z.to_nat (Z.of_nat w + c mod 2 * W))
          = Some (sentinel x)) /\
      (forall i j : nat,
          (forall c, cell_type <= c < cell_type + Z.of_nat (length spike_images) ->
             in_window (Window (c / 2 * H) (c / 2 * H + H)
                               (c mod 2 * W) (c mod 2 * W + W))
                       (Z.of_nat i) (Z.of_nat j) = false) ->
          get2 tile' i j = get2 tile i j).
Proof.
  induction 1 as [|image rest [Himg Hirect] Hrest IH];
    intros tile ct Hcomp Hct Hlen; cbn [fill_big_image].
  - exists tile. split; [reflexivity|]. split; [assumption|]. split.
    + intros n image r w x Hn. rewrite lookup_nil in Hn. discriminate.
    + reflexivity.
  - cbn [length] in Hlen.
    rewrite big_coords_lookup by lia.
    destruct (assign_layer tile image ct Hcomp Himg Hirect ltac:(lia))
      as (tile1 & -> & Hcomp1 & Hcells1).
    cbn [bind].
    destruct (IH tile1 (ct + 1) Hcomp1 ltac:(lia) ltac:(lia))
      as (tile' & -> & Hcomp' & Hlayers & Hframe).
    exists tile'. split; [reflexivity|]. split; [assumption|].
    destruct (cell_type_cases ct ltac:(lia)) as [Hq Hm].
    split.
    + intros n image' r w x Hn Hx. cbn zeta.
      destruct n as [|n].
      * cbn in Hn. injection Hn as <-.
        change (Z.of_nat 0) with 0. rewrite Z.add_0_r.
        apply get2_Some in Hx as (irow & Hirow & Hxw).
        pose proof (lookup_lt_Some _ _ _ Hirow) as Hr.
        pose proof (lookup_lt_Some _ _ _ Hxw) as Hw.
        pose proof (f_equal fst Himg) as Hh. cbn [fst shape] in Hh.
        unfold rectangular in Hirect. rewrite Forall_forall in Hirect.
        pose proof (Hirect irow (list_elem_of_lookup_2 _ _ _ Hirow)) as Hlenr.
        rewrite Himg in Hlenr. cbn [snd] in Hlenr.
        rewrite Hframe.
        -- rewrite Hcells1.
           assert (Hin : in_window (Window (ct / 2 * H) (ct / 2 * H + H)
                                     (ct mod 2 * W) (ct mod 2 * W + W))
                           (Z.of_nat (Z.to_nat (Z.of_nat r + ct / 2 * H)))
                           (Z.of_nat (Z.to_nat (Z.of_nat w + ct mod 2 * W)))
                         = true).
           { unfold in_window. cbn [lo_r hi_r lo_c hi_c].
             rewrite !andb_true_iff, !Z.leb_le, !Z.ltb_lt. lia. }
           rewrite Hin.
           replace (Z.to_nat (Z.of_nat (Z.to_nat (Z.of_nat r + ct / 2 * H))
                              - ct / 2 * H)) with r by lia.
           replace (Z.to_nat (Z.of_nat (Z.to_nat (Z.of_nat w + ct mod 2 * W))
                              - ct mod 2 * W)) with w by lia.
           unfold get2. rewrite Hirow. cbn. rewrite Hxw. reflexivity.
        -- intros c Hc.
           destruct (cell_type_cases c ltac:(lia)) as [Hq' Hm'].
           pose proof (Z.div_mod c 2 ltac:(lia)).
           pose proof (Z.div_mod ct 2 ltac:(lia)).
           unfold in_window. cbn [lo_r hi_r lo_c hi_c].
           rewrite !andb_false_iff, !Z.leb_gt, !Z.ltb_ge. lia.
      * cbn in Hn.
        replace (ct + Z.of_nat (S n)) with (ct + 1 + Z.of_nat n) by lia.
        exact (Hlayers n image' r w x Hn Hx).
    + intros i j Hout. cbn [length] in Hout. rewrite Hframe.
      * rewrite Hcells1, (Hout ct) by lia. reflexivity.
      * intros c Hc. apply Hout. lia.
Qed.

End Fill.

(** ** The main loop, one iteration at a time *)

Lemma range_types (n : nat) :
  (n <= 4)%nat -> Forall (fun o => 0 <= o <= 3) (range n).
Proof.
  intros Hn. apply Forall_forall. intros o Ho.
  apply range_spec in Ho. lia.
Qed.

Section Loop.

Variables (H W : Z).
Hypothesis H_pos : 0 < H.
Hypothesis W_pos : 0 < W.

Variable correlations : Z -> Z -> ndarray.

(** [focal] on maps of one shape, stage by stage. *)
Lemma focal_unfold (spike_images : list ndarray) (spikes_per_unit : float) :
  same_shape H W spike_images ->
  spike_images <> [] ->
  focal correlations spike_images spikes_per_unit =
  (let! max_cycles := budget spikes_per_unit (total_nonzero spike_images) in
   let! tile := fill_big_image H W (zeros (H * 2, W * 2)) 0 spike_images in
   let! cycles := xrange max_cycles in
   focal_loop correlations (H, W) (H * 2, W * 2) (length spike_images)
              (total_nonzero spike_images) cycles 0 tile []).
Proof.
  intros Hshapes Hne. unfold focal.
  destruct spike_images as [|image0 rest]; [congruence|].
  pose proof (Forall_inv Hshapes) as (Hshape & _).
  rewrite Hshape. reflexivity.
Qed.

Lemma valid_images_shapes (spike_images : list ndarray) :
  valid_images H W spike_images -> same_shape H W spike_images.
Proof.
  intros Hvalid. eapply Forall_impl; [exact Hvalid|].
  intros image (Hshape & Hrect & _). split; assumption.
Qed.

Lemma composite_zeros : composite H W (zeros (H * 2, W * 2)).
Proof. apply tile_ok_composite, tile_ok_zeros; assumption. Qed.

(** The search of one iteration on a composite image: lines 102-106
    find a cell of the image, and the rest of the iteration depends on
    its value alone. *)
Lemma focal_loop_step (tile : ndarray) :
  composite H W tile ->
  exists idx v,
    0 <= idx < (H * 2) * (W * 2) /\
    get2 tile (Z.to_nat (idx / (W * 2))) (Z.to_nat (idx mod (W * 2)))
      = Some v /\
    (F64.is_nan v = false -> all_cells (fun x => F64.leb x v = true) tile) /\
    forall (num_images : nat) (total_spikes : Z) (cycles : nat) (count : Z)
           (acc : list spike),
      focal_loop correlations (H, W) (H * 2, W * 2) num_images total_spikes
                 (S cycles) count tile acc =
      (let! _ := progress count total_spikes in
       if F64.eqb v F64.inf || F64.eqb v F64.neg_inf || F64.eqb v F64.nan
       then Ok (Outcome acc [wrong_max_value])
       else
         let max_coords := (idx / (W * 2), idx mod (W * 2)) in
         let single_coords :=
           if (fst max_coords <? H) && (snd max_coords <? W)
           then max_coords
           else global_to_single_coords max_coords (H, W) in
         let local_idx := fst single_coords * W + snd single_coords in
         let cell_type := cell_type_from_global_coords max_coords (H, W) in
         let! tile1 :=
           correct_overlaps correlations (H, W) (H * 2, W * 2) single_coords
                            cell_type v tile (range num_images) in
         focal_loop correlations (H, W) (H * 2, W * 2) num_images
                    total_spikes cycles (count + 1) tile1
                    (acc ++ [Spike local_idx v cell_type])).
Proof.
  intros Hcomp.
  destruct (argmax_range H W H_pos W_pos tile Hcomp) as (idx & Harg & Hidx).
  destruct (argmax_is_max_composite H W H_pos W_pos tile idx Hcomp Harg)
    as (_ & v & Hv & Hmax).
  assert (Hr : 0 <= idx / (W * 2) < H * 2).
  { split; [apply Z.div_pos; lia | apply Z.div_lt_upper_bound; lia]. }
  assert (Hc : 0 <= idx mod (W * 2) < W * 2)
    by (apply Z.mod_pos_bound; lia).
  destruct (getitem_composite H W H_pos W_pos tile _ _ Hcomp Hr Hc)
    as (x & Hget & Hx).
  assert (x = v) as -> by congruence.
  exists idx, v. split; [assumption|]. split; [assumption|].
  split; [assumption|].
  intros num_images total_spikes cycles count acc. cbn [focal_loop].
  destruct (progress count total_spikes) as [[]|e]; [|reflexivity].
  cbn [bind]. rewrite Harg. cbn [bind].
  unfold unravel_index. cbn [fst snd].
  destruct (Z.leb_spec 0 idx); [|lia].
  destruct (Z.ltb_spec idx (H * 2 * (W * 2))); [|lia].
  cbn [andb bind]. rewrite Hget. reflexivity.
Qed.

(** The corrections of one spike keep the shape of the composite image. *)
Lemma correct_overlaps_composite (single_coords : Z * Z) (cell_type : Z)
    (max_val : float) (num_images : nat) (tile tile' : ndarray) :
  0 <= fst single_coords < H -> 0 <= snd single_coords < W ->
  (num_images <= 4)%nat -> composite H W tile ->
  correct_overlaps correlations (H, W) (H * 2, W * 2) single_coords
                   cell_type max_val tile (range num_images) = Ok tile' ->
  composite H W tile'.
Proof.
  intros Hr Hc Hnum Hcomp Hrun.
  destruct (correct_overlaps_preserves H W H_pos W_pos correlations
              (fun _ => True) single_coords cell_type max_val
              (range num_images) Hr Hc (range_types num_images Hnum))
    with (tile := tile) (tile' := tile') as [Hcomp' _]; auto.
  intros i j x _. exact I.
Qed.

(** With square kernels of odd side the corrections of a spike return. *)
Lemma correct_overlaps_returns (single_coords : Z * Z) (cell_type : Z)
    (max_val : float) (overlap_cell_types : list Z) :
  (forall o, square_odd (correlations cell_type o)) ->
  0 <= fst single_coords < H -> 0 <= snd single_coords < W ->
  Forall (fun o => 0 <= o <= 3) overlap_cell_types ->
  forall tile, composite H W tile ->
  exists tile',
    correct_overlaps correlations (H, W) (H * 2, W * 2) single_coords
                     cell_type max_val tile overlap_cell_types = Ok tile'.
Proof.
  intros Hodd Hr Hc. induction 1 as [|o rest Ho _ IH]; intros tile Hcomp;
    cbn [correct_overlaps].
  - eauto.
  - destruct single_coords as [r w]. cbn [fst snd] in Hr, Hc.
    destruct (overlap_position H W H_pos W_pos r w o Hr Hc Ho)
      as (Hidx & _).
    destruct (Hodd o) as [k Hk]. destruct Hcomp as [Hshape Hrect].
    destruct (adjust_with_correlation_returns H W k tile
                (correlations cell_type o)
                (local_coords_to_global_idx (r, w) o (H, W) (H * 2, W * 2))
                max_val (o =? cell_type) H_pos W_pos Hshape Hrect Hidx Hk)
      as [tile1 Hcall].
    rewrite Hcall. cbn [bind]. apply IH.
    exact (adjust_composite H W H_pos W_pos tile (correlations cell_type o)
             _ max_val (o =? cell_type) tile1 (conj Hshape Hrect) Hidx
             Hcall).
Qed.

(** The coordinates and the layer of a spike found at index [idx]. *)
Lemma spike_position (idx : Z) :
  0 <= idx < (H * 2) * (W * 2) ->
  let max_coords := (idx / (W * 2), idx mod (W * 2)) in
  let single_coords :=
    if (fst max_coords <? H) && (snd max_coords <? W)
    then max_coords
    else global_to_single_coords max_coords (H, W) in
  let cell_type := cell_type_from_global_coords max_coords (H, W) in
  0 <= fst single_coords < H /\ 0 <= snd single_coords < W /\
  0 <= cell_type <= 3 /\
  idx / (W * 2) = fst single_coords + cell_type / 2 * H /\
  idx mod (W * 2) = snd single_coords + cell_type mod 2 * W.
Proof.
  intros Hidx.
  assert (Hr : 0 <= idx / (W * 2) < H * 2).
  { split; [apply Z.div_pos; lia | apply Z.div_lt_upper_bound; lia]. }
  assert (Hc : 0 <= idx mod (W * 2) < W * 2)
    by (apply Z.mod_pos_bound; lia).
  exact (single_coords_spec H W H_pos W_pos _ _ Hr Hc).
Qed.

End Loop.

(** ** Whole runs of the main loop *)

Section Runs.

Variables (H W : Z).
Hypothesis H_pos : 0 < H.
Hypothesis W_pos : 0 < W.

Variable correlations : Z -> Z -> ndarray.

(** A run ends on its budget with nothing on [sys.stderr], or on the
    break of line 110 with the message and with fewer spikes. *)
Lemma focal_loop_outcome (img_shape big_shape : Z * Z) (num_images : nat)
    (total_spikes : Z) (cycles : nat) :
  forall (count : Z) (big_image : ndarray) (acc : list spike) (out : outcome),
    focal_loop correlations img_shape big_shape num_images total_spikes
               cycles count big_image acc = Ok out ->
    (stderr out = [] /\
     length (ordered_spikes out) = (length acc + cycles)%nat) \/
    (stderr out = [wrong_max_value] /\
     (length acc <= length (ordered_spikes out) < length acc + cycles)%nat).
Proof.
  induction cycles as [|cycles IH]; intros count big_image acc out Hrun.
  - cbn [focal_loop] in Hrun. injection Hrun as <-. left.
    split; [reflexivity|cbn; lia].
  - cbn [focal_loop] in Hrun. destruct img_shape as [height width].
    apply bind_Ok in Hrun as (_ & _ & Hrun).
    apply bind_Ok in Hrun as (max_idx & _ & Hrun).
    apply bind_Ok in Hrun as (max_coords & _ & Hrun).
    apply bind_Ok in Hrun as (max_val & _ & Hrun).
    destruct (_ || _)%bool.
    + injection Hrun as <-. right. split; [reflexivity|cbn; lia].
    + apply bind_Ok in Hrun as (big_image' & _ & Hrun).
      apply IH in Hrun. rewrite length_app in Hrun. cbn [length] in Hrun.
      destruct Hrun as [[Herr Hlen]|[Herr Hlen]]; [left|right];
        (split; [assumption|lia]).
Qed.

(** The list of a run extends the list it started from. *)
Lemma focal_loop_extends (img_shape big_shape : Z * Z) (num_images : nat)
    (total_spikes : Z) (cycles : nat) :
  forall (count : Z) (big_image : ndarray) (acc : list spike) (out : outcome),
    focal_loop correlations img_shape big_shape num_images total_spikes
               cycles count big_image acc = Ok out ->
    acc `prefix_of` ordered_spikes out.
Proof.
  induction cycles as [|cycles IH]; intros count big_image acc out Hrun.
  - cbn [focal_loop] in Hrun. injection Hrun as <-. reflexivity.
  - cbn [focal_loop] in Hrun. destruct img_shape as [height width].
    apply bind_Ok in Hrun as (_ & _ & Hrun).
    apply bind_Ok in Hrun as (max_idx & _ & Hrun).
    apply bind_Ok in Hrun as (max_coords & _ & Hrun).
    apply bind_Ok in Hrun as (max_val & _ & Hrun).
    destruct (_ || _)%bool.
    + injection Hrun as <-. reflexivity.
    + apply bind_Ok in Hrun as (big_image' & _ & Hrun).
      apply IH in Hrun. etransitivity; [|exact Hrun].
      apply prefix_app_r. reflexivity.
Qed.

(** Fewer iterations give a run that returns as well, with a prefix of
    the list. *)
Lemma focal_loop_prefix (img_shape big_shape : Z * Z) (num_images : nat)
    (total_spikes : Z) (cycles more : nat) :
  forall (count : Z) (big_image : ndarray) (acc : list spike)
         (out2 : outcome),
    focal_loop correlations img_shape big_shape num_images total_spikes
               (cycles + more) count big_image acc = Ok out2 ->
    exists out1,
      focal_loop correlations img_shape big_shape num_images total_spikes
                 cycles count big_image acc = Ok out1 /\
      ordered_spikes out1 `prefix_of` ordered_spikes out2.
Proof.
  induction cycles as [|cycles IH]; intros count big_image acc out2 Hrun.
  - exists (Outcome acc []). split; [reflexivity|].
    exact (focal_loop_extends _ _ _ _ _ _ _ _ _ Hrun).
  - change (S cycles + more)%nat with (S (cycles + more)) in Hrun.
    cbn [focal_loop] in Hrun |- *. destruct img_shape as [height width].
    apply bind_Ok in Hrun as (u & Hu & Hrun). rewrite Hu. cbn [bind].
    apply bind_Ok in Hrun as (max_idx & Hi & Hrun). rewrite Hi. cbn [bind].
    apply bind_Ok in Hrun as (max_coords & Hc & Hrun). rewrite Hc.
    cbn [bind].
    apply bind_Ok in Hrun as (max_val & Hv & Hrun). rewrite Hv. cbn [bind].
    destruct (_ || _)%bool.
    + injection Hrun as <-. eexists. split; reflexivity.
    + apply bind_Ok in Hrun as (big_image' & Hb & Hrun). rewrite Hb.
      cbn [bind]. exact (IH _ _ _ _ Hrun).
Qed.

(** Every spike of a run on a composite image is well formed. *)
Lemma focal_loop_well_formed (num_images : nat) (total_spikes : Z)
    (cycles : nat) :
  (num_images <= 4)%nat ->
  forall (count : Z) (tile : ndarray) (acc : list spike) (out : outcome),
    composite H W tile -> Forall (well_formed H W) acc ->
    focal_loop correlations (H, W) (H * 2, W * 2) num_images total_spikes
               cycles count tile acc = Ok out ->
    Forall (well_formed H W) (ordered_spikes out).
Proof.
  intros Hnum.
  induction cycles as [|cycles IH]; intros count tile acc out Hcomp Hacc.
  - cbn [focal_loop]. intros [= <-]. assumption.
  - destruct (focal_loop_step H W H_pos W_pos correlations tile Hcomp)
      as (idx & v & Hidx & Hv & _ & ->).
    intros Hrun. apply bind_Ok in Hrun as (_ & _ & Hrun).
    destruct (F64.eqb v F64.inf || F64.eqb v F64.neg_inf || F64.eqb v F64.nan)
      eqn:Hbad; [injection Hrun as <-; assumption|].
    apply orb_false_elim in Hbad as [Hbad _].
    apply orb_false_elim in Hbad as [Hinf Hninf].
    cbn zeta in Hrun.
    apply bind_Ok in Hrun as (tile1 & Hcorrect & Hrun).
    destruct (spike_position H W H_pos W_pos idx Hidx)
      as (Hsr & Hsc & Hct & _).
    cbn zeta in Hsr, Hsc, Hct.
    revert Hrun. apply IH.
    + exact (correct_overlaps_composite H W H_pos W_pos correlations _ _ _ _
               _ _ Hsr Hsc Hnum Hcomp Hcorrect).
    + apply Forall_app. split; [assumption|].
      apply Forall_cons_2; [|apply Forall_nil_2].
      unfold well_formed. cbn [channel local_index value].
      split; [assumption|]. split; [nia|]. split; assumption.
Qed.

(** With square kernels of odd side, and more or less than one non-zero
    cell in all, the loop raises nothing. *)
Lemma focal_loop_returns (num_images : nat) (total_spikes : Z)
    (cycles : nat) :
  (num_images <= 4)%nat -> total_spikes <> 1 ->
  (forall a b, square_odd (correlations a b)) ->
  forall (count : Z) (tile : ndarray) (acc : list spike),
    composite H W tile ->
    exists out,
      focal_loop correlations (H, W) (H * 2, W * 2) num_images total_spikes
                 cycles count tile acc = Ok out.
Proof.
  intros Hnum Htotal Hodd.
  induction cycles as [|cycles IH]; intros count tile acc Hcomp.
  - cbn [focal_loop]. eauto.
  - destruct (focal_loop_step H W H_pos W_pos correlations tile Hcomp)
      as (idx & v & Hidx & Hv & _ & ->).
    unfold progress. destruct (Z.eqb_spec (total_spikes - 1) 0); [lia|].
    cbn [bind].
    destruct (F64.eqb v F64.inf || F64.eqb v F64.neg_inf || F64.eqb v F64.nan);
      [eauto|].
    cbn zeta.
    destruct (spike_position H W H_pos W_pos idx Hidx)
      as (Hsr & Hsc & Hct & _).
    cbn zeta in Hsr, Hsc, Hct.
    destruct (correct_overlaps_returns H W H_pos W_pos correlations _
                (cell_type_from_global_coords
                   (idx / (W * 2), idx mod (W * 2)) (H, W)) v
                (range num_images) (Hodd _) Hsr Hsc
                (range_types num_images Hnum) tile Hcomp)
      as [tile1 Hcorrect].
    rewrite Hcorrect. cbn [bind]. apply IH.
    exact (correct_overlaps_composite H W H_pos W_pos correlations _ _ _ _
             _ _ Hsr Hsc Hnum Hcomp Hcorrect).
Qed.

(** More than four layers: line 89 runs out of corners. *)
Lemma fill_big_image_overflow (spike_images : list ndarray) :
  same_shape H W spike_images ->
  forall (tile : ndarray) (cell_type : Z),
    composite H W tile -> 0 <= cell_type <= 4 ->
    4 < cell_type + Z.of_nat (length spike_images) ->
    fill_big_image H W tile cell_type spike_images = Raise IndexError.
Proof.
  induction 1 as [|image rest [Himg Hirect] Hrest IH];
    intros tile ct Hcomp Hct Hlen; cbn [fill_big_image].
  - cbn [length] in Hlen. lia.
  - destruct (Z.eq_dec ct 4) as [->|Hne].
    + reflexivity.
    + rewrite big_coords_lookup by lia.
      destruct (assign_layer H W H_pos W_pos tile image ct Hcomp Himg Hirect
                  ltac:(lia)) as (tile1 & -> & Hcomp1 & _).
      cbn [bind]. apply IH; [assumption|lia|].
      cbn [length] in Hlen. lia.
Qed.

End Runs.

(** ** Runs without cross-talk, cell by cell *)

Lemma leb_neg_inf (x : float) :
  F64.leb x F64.neg_inf = true -> x = F64.neg_inf.
Proof.
  destruct x as [[]|[]| |[] m e]; intros Hle; try reflexivity;
    vm_compute in Hle; discriminate.
Qed.

Lemma get2_bounds (a : ndarray) (n m : Z) (i j : nat) (x : float) :
  rectangular a -> shape a = (n, m) -> get2 a i j = Some x ->
  Z.of_nat i < n /\ Z.of_nat j < m.
Proof.
  intros Hrect Hshape Hx. apply get2_Some in Hx as (row & Hrow & Hj).
  pose proof (lookup_lt_Some _ _ _ Hrow) as Hi.
  pose proof (lookup_lt_Some _ _ _ Hj) as Hj'.
  pose proof (f_equal fst Hshape) as Hn. cbn [fst shape] in Hn.
  unfold rectangular in Hrect. rewrite Forall_forall in Hrect.
  pose proof (Hrect row (list_elem_of_lookup_2 _ _ _ Hrow)) as Hlen.
  rewrite Hshape in Hlen. cbn [snd] in Hlen. lia.
Qed.

(** Two cells of the composite image at one place are one cell of one
    layer. *)
Lemma position_injective (H W c r w c' r' w' : Z) :
  0 <= r < H -> 0 <= w < W -> 0 <= c <= 3 ->
  0 <= r' < H -> 0 <= w' < W -> 0 <= c' <= 3 ->
  r + c / 2 * H = r' + c' / 2 * H ->
  w + c mod 2 * W = w' + c' mod 2 * W ->
  c = c' /\ r = r' /\ w = w'.
Proof.
  intros Hr Hw Hc Hr' Hw' Hc' Hrow Hcol.
  destruct (cell_type_cases c Hc) as [Hq Hm].
  destruct (cell_type_cases c' Hc') as [Hq' Hm'].
  pose proof (Z.div_mod c 2 ltac:(lia)) as Hsplit.
  pose proof (Z.div_mod c' 2 ltac:(lia)) as Hsplit'.
  destruct Hq as [Hq|Hq], Hq' as [Hq'|Hq'], Hm as [Hm|Hm], Hm' as [Hm'|Hm'];
    rewrite Hq, Hq' in Hrow; rewrite Hm, Hm' in Hcol; lia.
Qed.

(** An index of a map determines its row and its column. *)
Lemma local_index_injective (W r w r' w' : Z) :
  0 <= w < W -> 0 <= w' < W -> r * W + w = r' * W + w' ->
  r = r' /\ w = w'.
Proof.
  intros Hw Hw' Heq.
  assert (Hr : r = (r * W + w) / W)
    by (apply Z.div_unique_pos with w; lia).
  assert (Hr' : r' = (r' * W + w') / W)
    by (apply Z.div_unique_pos with w'; lia).
  rewrite Heq in Hr. assert (r = r') by congruence.
  subst r'. split; [reflexivity|lia].
Qed.

Section Exhaust.

Variables (H W : Z).
Hypothesis H_pos : 0 < H.
Hypothesis W_pos : 0 < W.

Variable correlations : Z -> Z -> ndarray.
Hypothesis no_cross_talk : forall a b, zero_kernel (correlations a b).

Variable spike_images : list ndarray.
Hypothesis images_valid : valid_images H W spike_images.
Hypothesis four_images : length spike_images = 4%nat.

(** The spike of cell [(r, w)] of layer [c], of value [x], is in the
    list. *)
Let emitted (acc : list spike) (c : Z) (r w : nat) (x : float) : Prop :=
  exists s, s ∈ acc /\ channel s = c /\
            local_index s = Z.of_nat r * W + Z.of_nat w /\ value s = x.

(** The place of cell [(r, w)] of layer [c] in the composite image. *)
Let cell_at (tile : ndarray) (c : Z) (r w : nat) : option float :=
  get2 tile (Z.to_nat (Z.of_nat r + c / 2 * H))
            (Z.to_nat (Z.of_nat w + c mod 2 * W)).

(** What the search keeps true: a cell of the composite image holds the
    value of its map (the sentinel for a zero) until its spike is
    emitted, and -inf from then on. *)
Let invariant (tile : ndarray) (acc : list spike) : Prop :=
  tile_ok H W tile /\
  (forall c image r w x,
      0 <= c <= 3 -> spike_images !! Z.to_nat c = Some image ->
      get2 image r w = Some x ->
      cell_at tile c r w = Some (sentinel x) \/
      (cell_at tile c r w = Some F64.neg_inf /\
       (F64.eqb x F64.zero = false -> emitted acc c r w x))) /\
  (forall s, s ∈ acc ->
      exists image r w,
        0 <= channel s <= 3 /\
        spike_images !! Z.to_nat (channel s) = Some image /\
        local_index s = Z.of_nat r * W + Z.of_nat w /\ Z.of_nat w < W /\
        get2 image r w = Some (value s) /\
        F64.eqb (value s) F64.zero = false /\
        cell_at tile (channel s) r w = Some F64.neg_inf) /\
  NoDup (map key acc).

Lemma layer_lookup (c : Z) :
  0 <= c <= 3 ->
  exists image,
    spike_images !! Z.to_nat c = Some image /\
    shape image = (H, W) /\ rectangular image /\
    all_cells (fun x => finite x = true) image.
Proof.
  intros Hc.
  destruct (lookup_lt_is_Some_2 spike_images (Z.to_nat c)) as [image Himage];
    [lia|].
  exists image. split; [assumption|].
  unfold valid_images in images_valid. rewrite Forall_forall in images_valid.
  exact (images_valid image (list_elem_of_lookup_2 _ _ _ Himage)).
Qed.

Lemma layer_cell (c : Z) (image : ndarray) (r w : nat) (x : float) :
  0 <= c <= 3 -> spike_images !! Z.to_nat c = Some image ->
  get2 image r w = Some x ->
  Z.of_nat r < H /\ Z.of_nat w < W /\ finite x = true.
Proof.
  intros Hc Himage Hx.
  destruct (layer_lookup c Hc) as (image' & Himage' & Hshape & Hrect & Hfin).
  assert (image' = image) as -> by congruence.
  destruct (get2_bounds image H W r w x Hrect Hshape Hx) as [Hr Hw].
  split; [assumption|]. split; [assumption|]. eauto.
Qed.

Lemma sentinel_finite (x : float) :
  finite x = true -> F64.eqb x F64.zero = false -> sentinel x = x.
Proof. intros _ Hz. unfold sentinel. rewrite Hz. reflexivity. Qed.

Lemma sentinel_searchable (x v : float) :
  sentinel x = v -> F64.eqb v F64.neg_inf = false ->
  v = x /\ F64.eqb x F64.zero = false.
Proof.
  unfold sentinel. destruct (F64.eqb x F64.zero); intros <- Hv.
  - discriminate.
  - split; reflexivity.
Qed.

(** The composite image that [focal] starts from. *)
Lemma invariant_start (tile : ndarray) :
  fill_big_image H W (zeros (H * 2, W * 2)) 0 spike_images = Ok tile ->
  invariant tile [].
Proof.
  intros Hfill.
  destruct (fill_big_image_cells H W H_pos W_pos spike_images
              (valid_images_shapes H W spike_images images_valid)
              (zeros (H * 2, W * 2)) 0 (composite_zeros H W H_pos W_pos)
              ltac:(lia) ltac:(lia)) as (tile' & Hfill' & _ & Hlayers & _).
  assert (tile' = tile) as -> by congruence.
  split.
  { eapply (fill_big_image_ok H W); [| |exact Hfill].
    - apply (valid_images_finite H W). assumption.
    - apply tile_ok_zeros; assumption. }
  split.
  { intros c image r w x Hc Himage Hx. left.
    pose proof (Hlayers (Z.to_nat c) image r w x Himage Hx) as Hcell.
    cbn zeta in Hcell. rewrite Z.add_0_l, Z2Nat.id in Hcell by lia.
    exact Hcell. }
  split.
  { intros s Hs. apply elem_of_nil in Hs. contradiction. }
  constructor.
Qed.

(** One iteration keeps the invariant, and the break of line 110 comes
    only when every non-zero cell has had its spike. *)
Lemma exhaustive_search (total_spikes : Z) (cycles : nat) :
  forall (count : Z) (tile : ndarray) (acc : list spike) (out : outcome),
    invariant tile acc ->
    focal_loop correlations (H, W) (H * 2, W * 2) 4 total_spikes cycles
               count tile acc = Ok out ->
    (forall s, s ∈ ordered_spikes out ->
       named_cell W spike_images s = Some (value s) /\
       F64.eqb (value s) F64.zero = false) /\
    NoDup (map key (ordered_spikes out)) /\
    (stderr out = [wrong_max_value] ->
     forall c image r w x,
       0 <= c <= 3 -> spike_images !! Z.to_nat c = Some image ->
       get2 image r w = Some x -> F64.eqb x F64.zero = false ->
       emitted (ordered_spikes out) c r w x).
Proof.
  induction cycles as [|cycles IH];
    intros count tile acc out (Htile & Hcells & Hacc & Hnodup).
  - cbn [focal_loop]. intros [= <-]. cbn [ordered_spikes stderr].
    split; [|split; [assumption|discriminate]].
    intros s Hs.
    destruct (Hacc s Hs)
      as (image & r & w & Hc & Himage & Hidx & Hw & Hx & Hnz & _).
    split; [|assumption].
    unfold named_cell. rewrite Himage, Hidx.
    rewrite Z.div_add_l, Z.div_small, Z.add_0_r by lia.
    rewrite Z.add_comm, Z.mod_add, Z.mod_small by lia.
    rewrite !Nat2Z.id. assumption.
  - pose proof Htile as (Hshape & Hrect & Hsearch).
    destruct (focal_loop_step H W H_pos W_pos correlations tile
                (conj Hshape Hrect))
      as (idx & v & Hidx & Hv & Hmax & ->).
    intros Hrun. apply bind_Ok in Hrun as (_ & _ & Hrun).
    pose proof (Hsearch _ _ _ Hv) as Hvs.
    destruct (F64.eqb v F64.inf || F64.eqb v F64.neg_inf || F64.eqb v F64.nan)
      eqn:Hbad.
    + (* the break: every cell of the image is at -inf *)
      injection Hrun as <-. cbn [ordered_spikes stderr].
      split.
      { intros s Hs.
        destruct (Hacc s Hs)
          as (image & r & w & Hc & Himage & Hi & Hw & Hx & Hnz & _).
        split; [|assumption].
        unfold named_cell. rewrite Himage, Hi.
        rewrite Z.div_add_l, Z.div_small, Z.add_0_r by lia.
        rewrite Z.add_comm, Z.mod_add, Z.mod_small by lia.
        rewrite !Nat2Z.id. assumption. }
      split; [assumption|]. intros _ c image r w x Hc Himage Hx Hnz.
      assert (v = F64.neg_inf) as ->
        by (destruct v as [[]|[]| |]; try discriminate; reflexivity).
      destruct (layer_cell c image r w x Hc Himage Hx) as (Hr & Hw & Hfin).
      destruct (Hcells c image r w x Hc Himage Hx) as [Hcell|[_ Hem]];
        [|exact (Hem Hnz)].
      rewrite (sentinel_finite x Hfin Hnz) in Hcell.
      pose proof (Hmax eq_refl _ _ _ Hcell) as Hle.
      apply leb_neg_inf in Hle. subst x. discriminate.
    + apply orb_false_elim in Hbad as [Hbad _].
      apply orb_false_elim in Hbad as [_ Hninf].
      cbn zeta in Hrun.
      destruct (spike_position H W H_pos W_pos idx Hidx)
        as (Hsr & Hsc & Hct & HR & HC).
      cbn zeta in Hsr, Hsc, Hct, HR, HC.
      set (single_coords :=
             if ((idx / (W * 2), idx mod (W * 2)).1 <? H) &&
                ((idx / (W * 2), idx mod (W * 2)).2 <? W)
             then (idx / (W * 2), idx mod (W * 2))
             else global_to_single_coords
                    (idx / (W * 2), idx mod (W * 2)) (H, W)) in *.
      set (ct := cell_type_from_global_coords
                   (idx / (W * 2), idx mod (W * 2)) (H, W)) in *.
      rewrite (correct_overlaps_zero H W H_pos W_pos correlations
                 no_cross_talk single_coords ct v (range 4) Hsr Hsc
                 (searchable_finite v Hvs Hninf) (NoDup_range 4)
                 (range_types 4 ltac:(lia)) tile Htile) in Hrun.
      rewrite bool_decide_eq_true_2 in Hrun by (apply range_spec; lia).
      cbn [bind] in Hrun. rewrite <- HR, <- HC in Hrun.
      set (r := Z.to_nat (fst single_coords)).
      set (w := Z.to_nat (snd single_coords)).
      assert (Hplace : cell_at tile ct r w = Some v).
      { unfold cell_at. subst r w. rewrite !Z2Nat.id by lia.
        rewrite <- HR, <- HC. exact Hv. }
      destruct (layer_lookup ct Hct)
        as (image & Himage & Hishape & Hirect & Hifin).
      destruct (get2_in_range image H W r w Hirect Hishape) as [x Hx];
        [subst r; lia|subst w; lia|].
      assert (Hvx : v = x /\ F64.eqb x F64.zero = false).
      { destruct (Hcells ct image r w x Hct Himage Hx) as [Hcell|[Hcell _]].
        - rewrite Hplace in Hcell. injection Hcell as Hcell.
          apply sentinel_searchable; [symmetry|]; assumption.
        - rewrite Hplace in Hcell. injection Hcell as ->. discriminate. }
      destruct Hvx as [<- Hnz].
      assert (Hmark : mark_cell tile (idx / (W * 2)) (idx mod (W * 2))
                      = set2 tile (Z.to_nat (idx / (W * 2)))
                             (Z.to_nat (idx mod (W * 2))) F64.neg_inf).
      { unfold mark_cell. rewrite Hv, (sub_inf_searchable v Hvs).
        reflexivity. }
      assert (Hnew : forall c' r' w',
                0 <= c' <= 3 -> Z.of_nat r' < H -> Z.of_nat w' < W ->
                cell_at (mark_cell tile (idx / (W * 2)) (idx mod (W * 2)))
                        c' r' w'
                = if bool_decide (c' = ct /\ r' = r /\ w' = w)
                  then Some F64.neg_inf
                  else cell_at tile c' r' w').
      { intros c' r' w' Hc' Hr' Hw'. rewrite Hmark. unfold cell_at.
        rewrite get2_set2.
        destruct (get2_in_range tile (H * 2) (W * 2)
                    (Z.to_nat (Z.of_nat r' + c' / 2 * H))
                    (Z.to_nat (Z.of_nat w' + c' mod 2 * W)) Hrect Hshape)
          as [y Hy].
        { destruct (cell_type_cases c' Hc') as [[-> | ->] _]; lia. }
        { destruct (cell_type_cases c' Hc') as [_ [-> | ->]]; lia. }
        rewrite Hy. cbn [fmap option_fmap option_map].
        destruct (bool_decide _) eqn:Hd.
        - apply bool_decide_eq_true in Hd as (-> & -> & ->).
          subst r w. rewrite !Z2Nat.id, <- HR, <- HC, !Nat.eqb_refl by lia.
          reflexivity.
        - apply bool_decide_eq_false in Hd.
          destruct (Nat.eqb_spec (Z.to_nat (idx / (W * 2)))
                      (Z.to_nat (Z.of_nat r' + c' / 2 * H))) as [Hi|Hi];
            [|reflexivity].
          destruct (Nat.eqb_spec (Z.to_nat (idx mod (W * 2)))
                      (Z.to_nat (Z.of_nat w' + c' mod 2 * W))) as [Hj|Hj];
            [|reflexivity].
          exfalso. apply Hd.
          assert (Hrow0 : 0 <= idx / (W * 2)) by (apply Z.div_pos; lia).
          assert (Hcol0 : 0 <= idx mod (W * 2))
            by (apply Z.mod_pos_bound; lia).
          assert (Hrow : Z.of_nat r' + c' / 2 * H
                         = fst single_coords + ct / 2 * H).
          { rewrite <- HR.
            destruct (cell_type_cases c' Hc') as [[Hq | Hq] _];
              rewrite Hq in *; lia. }
          assert (Hcol : Z.of_nat w' + c' mod 2 * W
                         = snd single_coords + ct mod 2 * W).
          { rewrite <- HC.
            destruct (cell_type_cases c' Hc') as [_ [Hq | Hq]];
              rewrite Hq in *; lia. }
          destruct (position_injective H W c' (Z.of_nat r') (Z.of_nat w')
                      ct (fst single_coords) (snd single_coords))
            as (? & ? & ?); [lia..|].
          subst r w. lia. }
      revert Hrun. apply IH.
      split; [apply tile_ok_mark_cell; assumption|].
      split; [|split].
      * intros c' image' r' w' x' Hc' Himage' Hx'.
        destruct (layer_cell c' image' r' w' x' Hc' Himage' Hx')
          as (Hr' & Hw' & _).
        rewrite (Hnew c' r' w' Hc' Hr' Hw').
        destruct (bool_decide _) eqn:Hd.
        -- apply bool_decide_eq_true in Hd as (-> & -> & ->).
           right. split; [reflexivity|]. intros _.
           assert (image' = image) as -> by congruence.
           assert (x' = v) as -> by congruence.
           eexists. split; [apply elem_of_app; right; left|].
           cbn [channel local_index value]. subst r w.
           rewrite !Z2Nat.id by lia. auto.
        -- destruct (Hcells c' image' r' w' x' Hc' Himage' Hx')
             as [Hcell|[Hcell Hem]]; [left; assumption|right].
           split; [assumption|]. intros Hnz'.
           destruct (Hem Hnz') as (s & Hs & Hrest).
           exists s. split; [apply elem_of_app; left; assumption|assumption].
      * intros s Hs. apply elem_of_app in Hs as [Hs|Hs].
        -- destruct (Hacc s Hs) as (image' & r' & w' & Hc' & Himage' & Hi'
                                    & Hw' & Hx' & Hnz' & Hcell').
           exists image', r', w'.
           destruct (layer_cell _ image' r' w' _ Hc' Himage' Hx')
             as (Hr' & _ & _).
           rewrite (Hnew (channel s) r' w' Hc' Hr' Hw'), Hcell'.
           destruct (bool_decide _); auto 10.
        -- apply list_elem_of_singleton in Hs as ->.
           cbn [channel local_index value].
           exists image, r, w.
           rewrite (Hnew ct r w Hct) by (subst r w; lia).
           rewrite bool_decide_eq_true_2 by auto.
           subst r w. rewrite !Z2Nat.id by lia.
           repeat split; try assumption; lia.
      * rewrite map_app. apply NoDup_app. split; [assumption|].
        split; [|apply NoDup_singleton].
        intros k Hk Hk'. cbn [map] in Hk'.
        apply list_elem_of_singleton in Hk'. subst k.
        apply list_elem_of_fmap in Hk as (s & Hkey & Hs).
        unfold key in Hkey. cbn [channel local_index] in Hkey.
        injection Hkey as Hch Hli.
        destruct (Hacc s Hs) as (image' & r' & w' & Hc' & Himage' & Hi'
                                 & Hw' & Hx' & Hnz' & Hcell').
        destruct (local_index_injective W (Z.of_nat r') (Z.of_nat w')
                    (fst single_coords) (snd single_coords))
          as [Hr' Hw'']; [lia|lia|lia|].
        assert (r' = r) as -> by (subst r; lia).
        assert (w' = w) as -> by (subst w; lia).
        rewrite <- Hch, Hplace in Hcell'. injection Hcell' as ->.
        discriminate.
Qed.

End Exhaust.

(** ** Counting the non-zero cells *)

Section Count.

Lemma nonzero_from_length (k : Z) (l : list float) :
  length (nonzero_from k l)
  = length (List.filter (fun x => F64.neqb x F64.zero) l).
Proof.
  revert k. induction l as [|x l IH]; intros k; cbn [nonzero_from List.filter].
  - reflexivity.
  - destruct (F64.neqb x F64.zero); cbn [length]; rewrite IH; reflexivity.
Qed.

Lemma nonzero_from_spec (k : Z) (l : list float) (j : Z) :
  j ∈ nonzero_from k l <->
  exists (n : nat) (x : float),
    j = k + Z.of_nat n /\ l !! n = Some x /\ F64.neqb x F64.zero = true.
Proof.
  revert k. induction l as [|x l IH]; intros k; cbn [nonzero_from].
  - split; [intros Hj; apply elem_of_nil in Hj; contradiction|].
    intros (n & y & _ & Hn & _). rewrite lookup_nil in Hn. discriminate.
  - assert (Hrest : j ∈ nonzero_from (k + 1) l <->
                    exists (n : nat) (y : float),
                      j = k + Z.of_nat (S n) /\ l !! n = Some y /\
                      F64.neqb y F64.zero = true).
    { rewrite IH. split; intros (n & y & Hj & Hrest); exists n, y;
        (split; [lia|assumption]). }
    destruct (F64.neqb x F64.zero) eqn:Hx.
    + rewrite elem_of_cons, Hrest. split.
      * intros [->|(n & y & Hj & Hn & Hy)].
        -- exists 0%nat, x. cbn. repeat split; [lia|assumption].
        -- exists (S n), y. auto.
      * intros ([|n] & y & Hj & Hn & Hy).
        -- left. lia.
        -- right. exists n, y. auto.
    + rewrite Hrest. split.
      * intros (n & y & Hj & Hn & Hy). exists (S n), y. auto.
      * intros ([|n] & y & Hj & Hn & Hy).
        -- cbn in Hn. injection Hn as <-. congruence.
        -- exists n, y. auto.
Qed.

Lemma nonzero_from_NoDup (k : Z) (l : list float) :
  NoDup (nonzero_from k l).
Proof.
  revert k. induction l as [|x l IH]; intros k; cbn [nonzero_from].
  - constructor.
  - destruct (F64.neqb x F64.zero); [|apply IH].
    constructor; [|apply IH].
    intros Hin. apply nonzero_from_spec in Hin as (n & y & Hj & _). lia.
Qed.

Lemma foldl_add_from (f : ndarray -> Z) (a : Z) (l : list ndarray) :
  foldl (fun acc image => acc + f image) a l
  = a + foldl (fun acc image => acc + f image) 0 l.
Proof.
  revert a. induction l as [|image l IH]; intros a; cbn [foldl]; [lia|].
  rewrite (IH (a + f image)), (IH (0 + f image)). lia.
Qed.

Lemma keys_from_length (c : Z) (spike_images : list ndarray) :
  Z.of_nat (length (keys_from c spike_images)) = total_nonzero spike_images.
Proof.
  unfold total_nonzero. revert c.
  induction spike_images as [|image rest IH]; intros c;
    cbn [keys_from foldl]; [reflexivity|].
  rewrite length_app, length_map, nonzero_from_length, foldl_add_from.
  rewrite Nat2Z.inj_add, (IH (c + 1)). unfold count_nonzero. lia.
Qed.

Lemma keys_from_spec (c : Z) (spike_images : list ndarray) (c' j : Z) :
  (c', j) ∈ keys_from c spike_images <->
  exists (n : nat) (image : ndarray),
    c' = c + Z.of_nat n /\ spike_images !! n = Some image /\
    j ∈ nonzero_from 0 (concat image).
Proof.
  revert c. induction spike_images as [|image rest IH]; intros c;
    cbn [keys_from].
  - split; [intros Hj; apply elem_of_nil in Hj; contradiction|].
    intros (n & y & _ & Hn & _). rewrite lookup_nil in Hn. discriminate.
  - rewrite elem_of_app, list_elem_of_fmap, IH. split.
    + intros [(j' & Heq & Hj)|(n & image' & Hc & Hn & Hj)].
      * injection Heq as -> ->. exists 0%nat, image. cbn.
        repeat split; [lia|assumption].
      * exists (S n), image'. cbn. repeat split; [lia|assumption..].
    + intros ([|n] & image' & Hc & Hn & Hj).
      * cbn in Hn. injection Hn as <-. left. exists j.
        split; [f_equal; lia|assumption].
      * right. exists n, image'. cbn in Hn. repeat split; [lia|assumption..].
Qed.

Lemma keys_from_NoDup (c : Z) (spike_images : list ndarray) :
  NoDup (keys_from c spike_images).
Proof.
  revert c. induction spike_images as [|image rest IH]; intros c;
    cbn [keys_from]; [constructor|].
  apply NoDup_app. split; [|split; [|apply IH]].
  - apply NoDup_fmap_2; [|apply nonzero_from_NoDup].
    intros j j' [= ->]. reflexivity.
  - intros [c' j] Hin Hin'.
    apply list_elem_of_fmap in Hin as (j' & [= -> ->] & _).
    apply keys_from_spec in Hin' as (n & _ & Hc & _). lia.
Qed.

(** A key of the list is a non-zero cell of a map, and conversely. *)
Lemma keys_from_cell (H W : Z) (spike_images : list ndarray) (c j : Z) :
  0 < W -> same_shape H W spike_images ->
  (c, j) ∈ keys_from 0 spike_images <->
  exists (n : nat) (image : ndarray) (r w : nat) (x : float),
    c = Z.of_nat n /\ spike_images !! n = Some image /\
    j = Z.of_nat r * W + Z.of_nat w /\ Z.of_nat w < W /\
    get2 image r w = Some x /\ F64.eqb x F64.zero = false.
Proof.
  intros W_pos Hshapes. rewrite keys_from_spec. split.
  - intros (n & image & Hc & Himage & Hj).
    apply nonzero_from_spec in Hj as (k & x & Hj & Hk & Hx).
    unfold same_shape in Hshapes. rewrite Forall_forall in Hshapes.
    destruct (Hshapes image (list_elem_of_lookup_2 _ _ _ Himage))
      as [Hshape Hrect].
    assert (Hrows : Forall (fun row => length row = Z.to_nat W) image).
    { unfold rectangular in Hrect. rewrite Hshape in Hrect. cbn [snd] in Hrect.
      eapply Forall_impl; [exact Hrect|]. cbn beta. intros row Hrow. lia. }
    exists n, image, (k / Z.to_nat W)%nat, (k mod Z.to_nat W)%nat, x.
    pose proof (Nat.mod_upper_bound k (Z.to_nat W) ltac:(lia)) as Hw.
    pose proof (Nat.div_mod_eq k (Z.to_nat W)) as Hsplit.
    split; [lia|]. split; [assumption|]. split; [nia|]. split; [lia|].
    split.
    + rewrite <- (lookup_concat_rect image (Z.to_nat W) _ _ Hrows Hw).
      rewrite <- Hk. f_equal. lia.
    + unfold F64.neqb in Hx. apply negb_true_iff in Hx. exact Hx.
  - intros (n & image & r & w & x & Hc & Himage & Hj & Hw & Hx & Hnz).
    exists n, image. split; [lia|]. split; [assumption|].
    unfold same_shape in Hshapes. rewrite Forall_forall in Hshapes.
    destruct (Hshapes image (list_elem_of_lookup_2 _ _ _ Himage))
      as [Hshape Hrect].
    assert (Hrows : Forall (fun row => length row = Z.to_nat W) image).
    { unfold rectangular in Hrect. rewrite Hshape in Hrect. cbn [snd] in Hrect.
      eapply Forall_impl; [exact Hrect|]. cbn beta. intros row Hrow. lia. }
    apply nonzero_from_spec. exists (r * Z.to_nat W + w)%nat, x.
    split; [nia|]. split.
    + rewrite (lookup_concat_rect image (Z.to_nat W) r w Hrows) by lia.
      assumption.
    + unfold F64.neqb. rewrite Hnz. reflexivity.
Qed.

End Count.

(** ** The whole budget *)

(** A fraction of 1.0 asks for every non-zero cell: the product and the
    conversion of line 82 are exact below 2^53. *)
Lemma budget_full (n : Z) :
  0 <= n < 2 ^ 53 -> budget (F64.of_Z 1) n = Ok n.
Proof.
  intros Hn. unfold budget.
  destruct (Z.eq_dec n 0) as [->|Hnz]; [reflexivity|].
  destruct (of_Z_exact n ltac:(lia)) as (M & E & -> & Hcanon & HE & HM).
  rewrite of_Z_one. unfold F64.mul, SFmul. cbn [xorb].
  assert (Hone : canon 4503599627370496 (-52)).
  { unfold canon. split; [reflexivity|]. split; [lia|]. left.
    apply Z.le_refl. }
  pose proof (product_exponent_low 4503599627370496 M (-52) E Hone Hcanon)
    as Hlow.
  assert (Hval : Z.pos (4503599627370496 * M) * 2 ^ (-52 + E - (-52 + E))
                 = Z.pos M * 2 ^ (E - (-52 + E))).
  { rewrite Z.sub_diag, Z.pow_0_r, Z.mul_1_r, Pos2Z.inj_mul.
    replace (E - (-52 + E)) with 52 by lia.
    change (2 ^ 52) with (Z.pos 4503599627370496). lia. }
  destruct (binary_round_aux_upper false (4503599627370496 * M) (-52 + E)
              Hlow M E (-52 + E) Hcanon ltac:(lia) ltac:(lia) ltac:(lia)
              ltac:(lia))
    as [Hz|(m3 & e3 & Hr & _ & Hup)];
    destruct (binary_round_aux_lower false (4503599627370496 * M) (-52 + E)
                Hlow M E (-52 + E) Hcanon ltac:(lia) ltac:(lia) ltac:(lia))
      as [Hi|(m3' & e3' & Hr' & _ & Hdown)]; try congruence.
  rewrite Hr in Hr'. injection Hr' as <- <-.
  destruct (mag_le_antisym _ _ _ _ Hup Hdown) as [-> ->].
  rewrite Hr. cbn [F64.to_int]. f_equal.
  destruct E as [|q|q]; [cbn in HM; lia|lia|].
  change (- Z.neg q) with (Z.pos q) in HM.
  rewrite HM. apply Z.div_mul. apply Z.pow_nonzero; lia.
Qed.

Section FullBudget.

Variables (H W : Z).
Hypothesis H_pos : 0 < H.
Hypothesis W_pos : 0 < W.

Variable correlations : Z -> Z -> ndarray.
Hypothesis no_cross_talk : forall a b, zero_kernel (correlations a b).

Variable spike_images : list ndarray.
Hypothesis images_valid : valid_images H W spike_images.
Hypothesis four_images : length spike_images = 4%nat.

(** What a run without cross-talk establishes, all at once. *)
Lemma no_cross_talk_run (spikes_per_unit : float) (out : outcome) :
  focal correlations spike_images spikes_per_unit = Ok out ->
  exists max_cycles,
    budget spikes_per_unit (total_nonzero spike_images) = Ok max_cycles /\
    ((stderr out = [] /\
      Z.of_nat (length (ordered_spikes out)) = Z.max 0 max_cycles) \/
     (stderr out = [wrong_max_value] /\
      Z.of_nat (length (ordered_spikes out)) < max_cycles)) /\
    Forall (well_formed H W) (ordered_spikes out) /\
    (forall s, s ∈ ordered_spikes out ->
       named_cell W spike_images s = Some (value s) /\
       F64.eqb (value s) F64.zero = false) /\
    NoDup (map key (ordered_spikes out)) /\
    (stderr out = [wrong_max_value] ->
     forall k, k ∈ keys_from 0 spike_images ->
               k ∈ map key (ordered_spikes out)).
Proof.
  intros Hrun.
  destruct (focal_start H W correlations spike_images spikes_per_unit out
              images_valid Hrun)
    as (max_cycles & tile & cycles & Hbudget & Hrange & Hfill & Hloop).
  exists max_cycles. split; [assumption|].
  pose proof (invariant_start H W H_pos W_pos spike_images images_valid
                four_images tile Hfill) as Hinv.
  pose proof Hinv as (Htile & _).
  rewrite four_images in Hloop.
  destruct (exhaustive_search H W H_pos W_pos correlations no_cross_talk
              spike_images images_valid four_images _ _ _ _ _ _ Hinv Hloop)
    as (Hnamed & Hnodup & Hall).
  split; [|split; [|split; [assumption|split; [assumption|]]]].
  - unfold xrange in Hrange.
    destruct (_ && _)%bool; [|discriminate].
    injection Hrange as <-.
    destruct (focal_loop_outcome correlations _ _ _ _ _ _ _ _ _ Hloop)
      as [[Herr Hlen]|[Herr Hlen]]; cbn [length] in Hlen; [left|right];
      (split; [assumption|lia]).
  - revert Hloop.
    apply (focal_loop_well_formed H W H_pos W_pos correlations);
      [lia|apply tile_ok_composite; assumption|constructor].
  - intros Hbreak [c j] Hk.
    apply (keys_from_cell H W spike_images c j W_pos
             (valid_images_shapes H W spike_images images_valid)) in Hk
      as (n & image & r & w & x & -> & Himage & -> & Hw & Hx & Hnz).
    pose proof (lookup_lt_Some _ _ _ Himage) as Hn.
    destruct (Hall Hbreak (Z.of_nat n) image r w x ltac:(lia)
                ltac:(rewrite Nat2Z.id; assumption) Hx Hnz)
      as (s & Hs & Hch & Hli & _).
    apply list_elem_of_fmap. exists s. split; [|assumption].
    unfold key. congruence.
Qed.

(** The break of line 110 does not come before as many spikes as there
    are non-zero cells. *)
Lemma break_after_every_cell (spikes_per_unit : float) (out : outcome) :
  focal correlations spike_images spikes_per_unit = Ok out ->
  stderr out = [wrong_max_value] ->
  total_nonzero spike_images <= Z.of_nat (length (ordered_spikes out)).
Proof.
  intros Hrun Hbreak.
  destruct (no_cross_talk_run spikes_per_unit out Hrun)
    as (b & _ & _ & _ & _ & _ & Hall).
  rewrite <- (keys_from_length 0 spike_images).
  rewrite <- (length_map key (ordered_spikes out)).
  apply inj_le, submseteq_length, NoDup_submseteq;
    [apply keys_from_NoDup|exact (Hall Hbreak)].
Qed.

(** Every spike is a key of the list of the non-zero cells. *)
Lemma spikes_are_keys (spikes_per_unit : float) (out : outcome) :
  focal correlations spike_images spikes_per_unit = Ok out ->
  forall k, k ∈ map key (ordered_spikes out) -> k ∈ keys_from 0 spike_images.
Proof.
  intros Hrun k Hk.
  destruct (no_cross_talk_run spikes_per_unit out Hrun)
    as (b & _ & _ & Hwf & Hnamed & _ & _).
  apply list_elem_of_fmap in Hk as (s & -> & Hs).
  rewrite Forall_forall in Hwf.
  destruct (Hwf s Hs) as (Hc & Hli & _).
  destruct (Hnamed s Hs) as [Hcell Hnz].
  unfold named_cell in Hcell.
  destruct (spike_images !! Z.to_nat (channel s)) as [image|] eqn:Himage;
    [|discriminate].
  unfold key.
  apply (keys_from_cell H W spike_images _ _ W_pos
           (valid_images_shapes H W spike_images images_valid)).
  exists (Z.to_nat (channel s)), image, (Z.to_nat (local_index s / W)),
    (Z.to_nat (local_index s mod W)), (value s).
  pose proof (Z.div_mod (local_index s) W ltac:(lia)) as Hsplit.
  pose proof (Z.mod_pos_bound (local_index s) W W_pos) as Hmod.
  assert (Hdiv : 0 <= local_index s / W) by (apply Z.div_pos; lia).
  repeat split; try assumption; lia.
Qed.

End FullBudget.

(** ** A call of [adjust_with_correlation], cell against cell *)

Section Relate.

Variables (H W : Z).
Hypothesis H_pos : 0 < H.
Hypothesis W_pos : 0 < W.

Variables (img correlation : ndarray) (max_idx : Z) (max_val : float).
Variable is_max_val_layer : bool.
Variable img' : ndarray.
Hypothesis img_shape : shape img = (H * 2, W * 2).
Hypothesis idx_range : 0 <= max_idx < (H * 2) * (W * 2).
Hypothesis call :
  adjust_with_correlation img correlation max_idx max_val is_max_val_layer
  = Ok img'.

(** A relation between the value of a cell before the call and its value
    after, that the three writes of the call keep. *)
Lemma adjust_relates (R : float -> float -> Prop) :
  (forall x, R x x) ->
  (forall x y i j c, R x y -> get2 correlation i j = Some c ->
                     R x (F64.sub y (F64.mul max_val c))) ->
  (forall x y, R x y -> R x F64.neg_inf) ->
  (forall x y, R x y -> R x (F64.sub y F64.inf)) ->
  forall i j x, get2 img i j = Some x ->
                exists x', get2 img' i j = Some x' /\ R x x'.
Proof.
  intros Hsame Hsubtract Hsentinel Hmark i j x Hx.
  destruct (adjust_with_correlation_Ok H W img correlation max_idx max_val
              H_pos W_pos img_shape idx_range is_max_val_layer img' call)
    as (img1 & Hsub & Hlast).
  cbn zeta in Hlast.
  destruct (subtract_correlation_Ok img correlation max_idx max_val img1 Hsub)
    as [_ Hcells1].
  assert (H1 : exists x1, get2 img1 i j = Some x1 /\ R x x1).
  { rewrite Hcells1, Hx. cbn [fmap option_fmap option_map].
    eexists. split; [reflexivity|].
    destruct (in_window _ _ _); [|apply Hsame].
    destruct (get2 (scale _ _) _ _) as [y|] eqn:Hy; [|apply Hsame].
    rewrite get2_scale in Hy.
    destruct (get2 (view _ _) _ _) as [c|] eqn:Hc; [|discriminate].
    injection Hy as <-.
    apply get2_view_cell in Hc as (i0 & j0 & Hc). eauto. }
  destruct H1 as (x1 & Hx1 & HR1).
  assert (H2 : exists x2,
             get2 (mark_weird img1 (correlation_zone img correlation max_idx)
                              F64.inf) i j = Some x2 /\ R x x2).
  { rewrite get2_mark_weird, Hx1. cbn [fmap option_fmap option_map].
    eexists. split; [reflexivity|].
    destruct (bool_decide _); eauto. }
  destruct H2 as (x2 & Hx2 & HR2).
  destruct is_max_val_layer.
  - destruct Hlast as (y & Hy & ->).
    rewrite get2_set2, Hx2. cbn [fmap option_fmap option_map].
    eexists. split; [reflexivity|].
    destruct (Nat.eqb_spec
                (Z.to_nat (zone_row (correlation_zone img correlation max_idx)))
                i) as [Hi|Hi]; [|eauto].
    destruct (Nat.eqb_spec
                (Z.to_nat (zone_col (correlation_zone img correlation max_idx)))
                j) as [Hj|Hj]; [|eauto].
    cbn [andb]. rewrite Hi, Hj, Hx2 in Hy. injection Hy as <-. eauto.
  - subst img'. eauto.
Qed.

End Relate.

(** ** Fractions of 1 and more *)

(** The conversion of line 82 on a float that is not below a count. *)
Lemma to_int_at_least (m3 : positive) (e3 n : Z) (M : positive) (E : Z) :
  0 < n -> -52 <= E <= 0 -> Z.pos M = n * 2 ^ (- E) ->
  canon M E -> canon m3 e3 -> mag_le M E m3 e3 ->
  exists b, F64.to_int (S754_finite false m3 e3) = Ok b /\ n <= b.
Proof.
  intros Hn HE HM (HM53 & _ & HMn) (Hm53 & He3 & Hm3n) Hmag.
  assert (HeE : E <= e3) by (destruct Hmag as [?|[? _]]; lia).
  assert (Hkey : Z.pos M <= Z.pos m3 * 2 ^ (e3 - E)).
  { destruct Hmag as [Hlt|[<- Hle]].
    - assert (2 ^ 52 <= Z.pos m3) by (destruct Hm3n; [assumption|lia]).
      assert (2 <= 2 ^ (e3 - E)).
      { change 2 with (2 ^ 1) at 1. apply Z.pow_le_mono_r; lia. }
      assert (2 ^ 53 = 2 ^ 52 * 2) by reflexivity. nia.
    - rewrite Z.sub_diag, Z.pow_0_r. lia. }
  cbn [F64.to_int]. eexists. split; [reflexivity|].
  assert (HQ : 0 < 2 ^ (- E)) by (apply Z.pow_pos_nonneg; lia).
  destruct e3 as [|q|q].
  - rewrite Z.sub_0_l, HM in Hkey. nia.
  - assert (Hsplit : 2 ^ (Z.pos q - E) = 2 ^ Z.pos q * 2 ^ (- E)).
    { rewrite <- Z.pow_add_r by lia. f_equal; lia. }
    rewrite Hsplit, HM in Hkey. nia.
  - assert (HP : 0 < 2 ^ (Z.neg q - E)) by (apply Z.pow_pos_nonneg; lia).
    assert (Hsplit : 2 ^ (- E) = 2 ^ Z.pos q * 2 ^ (Z.neg q - E)).
    { rewrite <- Z.pow_add_r by lia. f_equal; lia. }
    rewrite HM, Hsplit in Hkey.
    apply Z.div_le_lower_bound; [apply Z.pow_pos_nonneg; lia|]. nia.
Qed.

(** A fraction of 1 or more asks for at least every non-zero cell, unless
    the product of line 82 overflows. *)
Lemma budget_above_total (spikes_per_unit : float) (n : Z) :
  valid spikes_per_unit -> F64.leb (F64.of_Z 1) spikes_per_unit = true ->
  0 < n < 2 ^ 53 ->
  budget spikes_per_unit n = Raise OverflowError \/
  exists b, budget spikes_per_unit n = Ok b /\ n <= b.
Proof.
  intros Hvalid Hle Hn. unfold budget.
  destruct (of_Z_exact n Hn) as (M & E & -> & Hcanon & HE & HM).
  rewrite of_Z_one in Hle.
  destruct spikes_per_unit as [s|[]| |[] ms es]; try discriminate.
  { left. reflexivity. }
  apply valid_finite in Hvalid as [Hs _].
  apply leb_finite_mag in Hle.
  assert (Hone : -52 <= es /\ 2 ^ 52 <= Z.pos ms).
  { pose proof Hs as (_ & _ & Hnorm).
    destruct Hle as [Hlt|[<- Hle]].
    - split; [lia|]. destruct Hnorm; [assumption|lia].
    - split; [lia|]. apply Pos2Z.pos_le_pos in Hle. exact Hle. }
  destruct Hone as [Hes Hms].
  assert (Hval : Z.pos M * 2 ^ (E - (E - 52))
                 <= Z.pos (ms * M) * 2 ^ (es + E - (E - 52))).
  { replace (E - (E - 52)) with 52 by lia.
    replace (es + E - (E - 52)) with (es + 52) by lia.
    rewrite Pos2Z.inj_mul.
    assert (Hpow : 0 < 2 ^ (es + 52)) by (apply Z.pow_pos_nonneg; lia).
    apply Z.le_trans with (Z.pos M * Z.pos ms).
    - apply Z.mul_le_mono_nonneg_l; [lia|exact Hms].
    - rewrite (Z.mul_comm (Z.pos ms)).
      rewrite <- (Z.mul_1_r (Z.pos M * Z.pos ms)) at 1.
      apply Z.mul_le_mono_nonneg_l; lia. }
  unfold F64.mul, SFmul. cbn [xorb].
  destruct (binary_round_aux_lower false (ms * M) (es + E)
              (product_exponent_low ms M es E Hs Hcanon) M E (E - 52) Hcanon
              ltac:(lia) ltac:(lia) Hval)
    as [->|(m3 & e3 & -> & Hc3 & Hmag)].
  - left. reflexivity.
  - right. apply (to_int_at_least m3 e3 n M E); try assumption; lia.
Qed.

Section FirstSpike.

Variables (H W : Z).
Hypothesis H_pos : 0 < H.
Hypothesis W_pos : 0 < W.

Variable correlations : Z -> Z -> ndarray.
Hypothesis odd_kernels : forall a b, square_odd (correlations a b).

(** An iteration that finds a finite cell in the image appends a spike. *)
Lemma focal_loop_first_spike (num_images : nat) (total_spikes : Z)
    (cycles : nat) (count : Z) (tile : ndarray) (acc : list spike)
    (i j : nat) (x : float) :
  (num_images <= 4)%nat -> total_spikes <> 1 ->
  tile_ok H W tile -> get2 tile i j = Some x -> finite x = true ->
  exists out,
    focal_loop correlations (H, W) (H * 2, W * 2) num_images total_spikes
               (S cycles) count tile acc = Ok out /\
    (length acc < length (ordered_spikes out))%nat.
Proof.
  intros Hnum Htotal (Hshape & Hrect & Hsearch) Hx Hfin.
  destruct (focal_loop_step H W H_pos W_pos correlations tile
              (conj Hshape Hrect))
    as (idx & v & Hidx & Hv & Hmax & Hstep).
  rewrite Hstep. clear Hstep.
  unfold progress. destruct (Z.eqb_spec (total_spikes - 1) 0); [lia|].
  cbn [bind].
  pose proof (Hsearch _ _ _ Hv) as Hvs.
  pose proof (Hmax (searchable_not_nan v Hvs) _ _ _ Hx) as Hxv.
  assert (Hgood : F64.eqb v F64.inf || F64.eqb v F64.neg_inf
                  || F64.eqb v F64.nan = false).
  { destruct v as [[]|[]| |[] mv ev]; try discriminate; try reflexivity.
    apply leb_neg_inf in Hxv. subst x. discriminate. }
  rewrite Hgood. cbn zeta.
  destruct (spike_position H W H_pos W_pos idx Hidx)
    as (Hsr & Hsc & Hct & _).
  cbn zeta in Hsr, Hsc, Hct.
  destruct (correct_overlaps_returns H W H_pos W_pos correlations _
              (cell_type_from_global_coords
                 (idx / (W * 2), idx mod (W * 2)) (H, W)) v
              (range num_images) (odd_kernels _) Hsr Hsc
              (range_types num_images Hnum) tile (conj Hshape Hrect))
    as [tile1 Hcorrect].
  rewrite Hcorrect. cbn [bind].
  pose proof (correct_overlaps_composite H W H_pos W_pos correlations _ _ _
                _ _ _ Hsr Hsc Hnum (conj Hshape Hrect) Hcorrect) as Hcomp1.
  match goal with
  | |- exists out, focal_loop _ _ _ _ _ _ ?c ?t ?a = _ /\ _ =>
      destruct (focal_loop_returns H W H_pos W_pos correlations num_images
                  total_spikes cycles Hnum Htotal odd_kernels c t a Hcomp1)
        as [out Hout]
  end.
  exists out. split; [exact Hout|].
  apply focal_loop_extends, prefix_length in Hout.
  rewrite length_app in Hout. cbn [length] in Hout. lia.
Qed.

(** With two non-zero cells or more and a budget of 1 or more, [focal]
    returns a list that is not empty, or stops at [xrange]. *)
Lemma focal_first_spike (spike_images : list ndarray)
    (spikes_per_unit : float) (b : Z) :
  valid_images H W spike_images -> (0 < length spike_images <= 4)%nat ->
  2 <= total_nonzero spike_images ->
  budget spikes_per_unit (total_nonzero spike_images) = Ok b -> 1 <= b ->
  match focal correlations spike_images spikes_per_unit with
  | Ok out => ordered_spikes out <> []
  | Raise e => e = OverflowError
  end.
Proof.
  intros Hvalid Hlen Htotal Hbudget Hb.
  pose proof (valid_images_shapes H W spike_images Hvalid) as Hshapes.
  rewrite (focal_unfold H W correlations spike_images spikes_per_unit
             Hshapes) by (intros ->; cbn in Hlen; lia).
  rewrite Hbudget. cbn [bind].
  destruct (fill_big_image_cells H W H_pos W_pos spike_images Hshapes
              (zeros (H * 2, W * 2)) 0 (composite_zeros H W H_pos W_pos)
              ltac:(lia) ltac:(lia)) as (tile & Hfill & Hcomp & Hlayers & _).
  rewrite Hfill. cbn [bind]. unfold xrange.
  destruct (Z.leb_spec (- 2 ^ 63) b); cbn [andb bind]; [|reflexivity].
  destruct (Z.ltb_spec b (2 ^ 63)); cbn [bind]; [|reflexivity].
  assert (Htile : tile_ok H W tile).
  { eapply (fill_big_image_ok H W); [| |exact Hfill].
    - apply (valid_images_finite H W). assumption.
    - apply tile_ok_zeros; assumption. }
  pose proof (keys_from_length 0 spike_images) as Hkeys.
  destruct (keys_from 0 spike_images) as [|[c j] rest] eqn:Hlist;
    [cbn [length] in Hkeys; lia|].
  assert (Hin : (c, j) ∈ keys_from 0 spike_images)
    by (rewrite Hlist; apply list_elem_of_here).
  apply (keys_from_cell H W spike_images c j W_pos Hshapes) in Hin
    as (n & image & r & w & x & _ & Himage & _ & _ & Hx & Hnz).
  assert (Hfin : finite x = true).
  { unfold valid_images in Hvalid. rewrite Forall_forall in Hvalid.
    destruct (Hvalid image (list_elem_of_lookup_2 _ _ _ Himage))
      as (_ & _ & Hcells).
    exact (Hcells _ _ _ Hx). }
  pose proof (Hlayers n image r w x Himage Hx) as Hcell.
  cbn zeta in Hcell. rewrite (sentinel_finite x Hfin Hnz) in Hcell.
  destruct (Z.to_nat b) as [|cycles] eqn:Hcycles; [lia|].
  destruct (focal_loop_first_spike (length spike_images)
              (total_nonzero spike_images) cycles 0 tile [] _ _ x
              ltac:(lia) ltac:(lia) Htile Hcell Hfin)
    as (out & -> & Hout).
  intros Hnil. rewrite Hnil in Hout. cbn [length] in Hout. lia.
Qed.

(** A fraction of 1 or more, +inf included: the run returns a list that
    is not empty, unless the conversion of line 82 or [xrange]
    overflows. *)
Lemma focal_above_one (spike_images : list ndarray)
    (spikes_per_unit : float) :
  valid_images H W spike_images -> (0 < length spike_images <= 4)%nat ->
  2 <= total_nonzero spike_images < 2 ^ 53 ->
  valid spikes_per_unit -> F64.leb (F64.of_Z 1) spikes_per_unit = true ->
  match focal correlations spike_images spikes_per_unit with
  | Ok out => ordered_spikes out <> []
  | Raise e => e = OverflowError
  end.
Proof.
  intros Hvalid Hlen Htotal Hs Hle.
  destruct (budget_above_total spikes_per_unit (total_nonzero spike_images)
              Hs Hle ltac:(lia)) as [Hover|(b & Hbudget & Hb)].
  - rewrite (focal_unfold H W correlations spike_images spikes_per_unit
               (valid_images_shapes H W spike_images Hvalid))
      by (intros ->; cbn in Hlen; lia).
    rewrite Hover. reflexivity.
  - apply (focal_first_spike spike_images spikes_per_unit b); try assumption;
      lia.
Qed.

End FirstSpike.

(** * The claims of the specification *)

Import Scenario.

Lemma all_cells_Forall (P : float -> Prop) (a : ndarray) :
  Forall (Forall P) a -> all_cells P a.
Proof.
  intros Hall i j x Hx. apply get2_Some in Hx as (row & Hrow & Hj).
  rewrite Forall_forall in Hall.
  pose proof (Hall row (list_elem_of_lookup_2 _ _ _ Hrow)) as Hrow'.
  rewrite Forall_forall in Hrow'.
  exact (Hrow' x (list_elem_of_lookup_2 _ _ _ Hj)).
Defined.

Lemma zero_kernel_no_correlation (a b : Z) : zero_kernel (no_correlation a b).
Proof.
  split; [exists 1; reflexivity|].
  apply (all_cells_Forall (fun c => exists s, c = S754_zero s)).
  repeat constructor; exists false; reflexivity.
Defined.

(** C1.  With four valid maps that hold a single non-zero cell between
    them and [spikes_per_unit = 1.0], the budget is 1 and the first
    iteration divides by [float(total_spikes - 1) = 0.0]: [focal] raises
    [ZeroDivisionError] and returns no sequence at all, whatever the
    correlation kernels. *)
Theorem single_nonzero_cell_raises (correlations : Z -> Z -> ndarray) :
  focal correlations
        [single_cell 2 2 0 0 2; blank 2 2; blank 2 2; blank 2 2] one
  = Raise ZeroDivisionError.
Proof. reflexivity. Qed.

(** C2.  Four valid 2 by 2 maps with finite entries and finite kernels:
    the correction of the first spike (layer 0, local index 0) turns the
    exhausted cell of layer 1 from -inf into a NaN, the NaN is emitted as
    the second spike, its corrections turn the cell of the first spike
    from -inf into a NaN as well, and (layer 0, local index 0) is emitted
    a second time. *)
Theorem exhausted_cell_is_emitted_again :
  focal (layers_0_1 (F64.of_Z (-4)))
        [map2 huge F64.zero F64.zero F64.zero;
         map2 F64.zero one F64.zero one; blank 2 2; blank 2 2] one
  = Ok (Outcome [Spike 0 huge 0; Spike 0 F64.nan 1; Spike 0 F64.nan 0] []).
Proof. vm_compute. reflexivity. Qed.

(** C3, as stated, fails: with a negative entry in the correlation of
    layers 0 and 1, the spike of value 2 of layer 0 raises the cell of
    layer 1 from 1 to 3, and 3 is emitted after 2. *)
Lemma values_can_increase :
  exists out,
    focal (layers_0_1 (F64.of_Z (-1)))
          [single_cell 2 2 0 0 2; single_cell 2 2 0 0 1;
           blank 2 2; blank 2 2] one = Ok out /\
    ~ non_increasing (ordered_spikes out).
Proof.
  eexists. split; [vm_compute; reflexivity|].
  intros Hsorted.
  specialize (Hsorted 0%nat 1%nat _ _ ltac:(lia) eq_refl eq_refl).
  vm_compute in Hsorted. discriminate.
Qed.

Ltac cells_by_computation P :=
  repeat (apply Forall_cons_2; [apply (all_cells_Forall P); repeat constructor|]);
  apply Forall_nil_2.

(** Kernels without a negative entry do not give the order of the whole
    sequence: a correction can push a cell below zero, and the correction
    of a negative spike raises its neighbours.  Here 3 is followed by -2
    and then by 2. *)
Lemma values_can_increase_after_negative_spike :
  (forall a b, nonneg_kernel (mixed_correlation a b)) /\
  focal mixed_correlation
        [single_cell 2 2 0 0 3; single_cell 2 2 0 0 1;
         single_cell 2 2 0 0 1; blank 2 2] one
  = Ok (Outcome [Spike 0 (F64.of_Z 3) 0; Spike 0 (F64.of_Z (-2)) 1;
                 Spike 0 (F64.of_Z 2) 2] []).
Proof.
  split; [|vm_compute; reflexivity].
  intros a b. unfold mixed_correlation.
  destruct (_ && _)%bool; [|destruct (a =? b)];
    apply (all_cells_Forall
             (fun c => valid c /\ finite c = true /\ nonneg c = true));
    repeat constructor.
Qed.

(** C3, amended.  For four valid maps of representable floats and
    correlation kernels whose entries are finite and not negative, the
    values are in non-increasing order along every stretch of the list that
    [focal] returns in which the values are not negative: whenever spike
    [i] precedes spike [j] and every spike from [i] up to, and not
    including, [j] has a value that is not negative, the value of spike [j]
    is at most the value of spike [i]. *)
Theorem values_fall_after_nonneg_spikes
    (H W : Z) (correlations : Z -> Z -> ndarray)
    (spike_images : list ndarray) (spikes_per_unit : float) (out : outcome) :
  0 < H -> 0 < W ->
  (forall a b, nonneg_kernel (correlations a b)) ->
  length spike_images = 4%nat -> valid_images H W spike_images ->
  representable_images spike_images ->
  focal correlations spike_images spikes_per_unit = Ok out ->
  forall i j a b, (i < j)%nat ->
    ordered_spikes out !! i = Some a -> ordered_spikes out !! j = Some b ->
    (forall k c, (i <= k < j)%nat -> ordered_spikes out !! k = Some c ->
                 F64.leb F64.zero (value c) = true) ->
    F64.leb (value b) (value a) = true.
Proof.
  intros H_pos W_pos Hkernels Hlen Hvalid Hrepr Hrun.
  destruct (focal_start H W correlations spike_images spikes_per_unit out
              Hvalid Hrun)
    as (max_cycles & tile & cycles & _ & _ & Hfill & Hloop).
  destruct (fill_big_image_preserves H W valid spike_images eq_refl)
    with (tile := zeros (H * 2, W * 2)) (cell_type := 0) (tile' := tile)
    as [Hcomp Hcells]; try assumption.
  { apply tile_ok_composite, tile_ok_zeros; assumption. }
  { intros i j x Hx. apply zeros_cells in Hx as ->. reflexivity. }
  assert (Hrise : no_rise (ordered_spikes out)).
  { revert Hloop.
    apply (focal_loop_no_rise H W H_pos W_pos correlations Hkernels);
      try assumption; try lia.
    - intros i a b Ha. rewrite lookup_nil in Ha. discriminate.
    - intros a Ha. discriminate. }
  intros i j a b Hij Ha Hb Hstretch.
  assert (Hgen : forall n b',
            ordered_spikes out !! (S i + n)%nat = Some b' ->
            (forall k c, (i <= k < S i + n)%nat ->
                         ordered_spikes out !! k = Some c ->
                         F64.leb F64.zero (value c) = true) ->
            F64.leb (value b') (value a) = true).
  { induction n as [|n IH]; intros b' Hb' Hpos.
    - rewrite Nat.add_0_r in Hb'. apply (Hrise i a b' Ha Hb').
      apply (Hpos i a); [lia|assumption].
    - destruct (lookup_lt_is_Some_2 (ordered_spikes out) (S i + n))
        as [c Hc].
      { apply lookup_lt_Some in Hb'. lia. }
      apply leb_trans with (value c).
      + apply (Hrise (S i + n)%nat c b' Hc);
          [replace (S (S i + n)) with (S i + S n)%nat by lia; assumption|].
        apply (Hpos (S i + n)%nat c); [lia|assumption].
      + apply IH; [assumption|].
        intros k c' Hk. apply Hpos. lia. }
  apply (Hgen (j - S i)%nat);
    replace (S i + (j - S i))%nat with j by lia; assumption.
Qed.

Lemma nonneg_kernel_unit_correlation (a b : Z) :
  nonneg_kernel (unit_correlation a b).
Proof.
  apply (all_cells_Forall
           (fun c => valid c /\ finite c = true /\ nonneg c = true)).
  repeat constructor.
Defined.

Lemma valid_images_suppression :
  valid_images 2 2 [single_cell 2 2 0 0 5; single_cell 2 2 0 0 9;
                    single_cell 2 2 0 1 3; blank 2 2].
Proof.
  repeat constructor; try reflexivity;
    apply (all_cells_Forall (fun x => finite x = true));
    repeat constructor.
Defined.

Lemma representable_images_suppression :
  representable_images [single_cell 2 2 0 0 5; single_cell 2 2 0 0 9;
                        single_cell 2 2 0 1 3; blank 2 2].
Proof. cells_by_computation valid. Defined.

Lemma values_fall_after_nonneg_spikes_witness :
  F64.leb (F64.of_Z 3) (F64.of_Z 9) = true.
Proof.
  apply (values_fall_after_nonneg_spikes 2 2 unit_correlation
           [single_cell 2 2 0 0 5; single_cell 2 2 0 0 9;
            single_cell 2 2 0 1 3; blank 2 2] one
           (Outcome [Spike 0 (F64.of_Z 9) 1; Spike 1 (F64.of_Z 3) 2;
                     Spike 0 (F64.of_Z (-4)) 0] [])
           ltac:(lia) ltac:(lia) nonneg_kernel_unit_correlation eq_refl
           valid_images_suppression representable_images_suppression
           ltac:(vm_compute; reflexivity)
           0%nat 1%nat (Spike 0 (F64.of_Z 9) 1) (Spike 1 (F64.of_Z 3) 2)
           ltac:(lia) eq_refl eq_refl).
  intros k c Hk Hc. assert (k = 0%nat) as -> by lia.
  injection Hc as <-. reflexivity.
Defined.

Lemma valid_images_scenario :
  valid_images 2 2 [single_cell 2 2 0 0 2; single_cell 2 2 1 1 1;
                    single_cell 2 2 0 1 3; blank 2 2].
Proof.
  repeat constructor; try reflexivity;
    apply (all_cells_Forall (fun x => finite x = true));
    repeat constructor.
Defined.

(** C4.  A correction targeted at the bottom-right quadrant of a 4 by 4
    image (position 10, cell (2, 2)), with finite cells, a finite kernel
    and a finite [max_val]: the subtraction overflows to +inf in the
    region, the indices that [numpy.where] reports for the region are
    used as indices of the whole image, and the cell (0, 0) of the
    top-left quadrant goes from 5 to -inf. *)
Theorem sanitization_writes_into_another_quadrant :
  adjust_with_correlation image4 (kernel (F64.of_Z (-4))) 10 huge false
  = Ok (set2 (set2 image4 2 2 F64.inf) 0 0 F64.neg_inf) /\
  get2 image4 0 0 = Some (F64.of_Z 5).
Proof. split; vm_compute; reflexivity. Qed.

(** C5.  Four valid 2 by 2 maps with finite entries and finite kernels:
    the correction of the first spike leaves a NaN in the composite image,
    the next maximum is that NaN, the test [max_val == numpy.nan] is
    false, and the NaN is appended as a spike; nothing is written to
    [sys.stderr]. *)
Theorem nan_maximum_is_emitted :
  focal (layers_0_1 (F64.of_Z (-4)))
        [map2 huge F64.zero F64.zero F64.zero;
         map2 F64.zero one F64.zero F64.zero; blank 2 2; blank 2 2] one
  = Ok (Outcome [Spike 0 huge 0; Spike 0 F64.nan 1] []).
Proof. vm_compute. reflexivity. Qed.

(** C6.  A correction targeted at the bottom-right quadrant of a 6 by 6
    image (position 21, cell (3, 3)), whose region is rows 3-4 and
    columns 3-4: after the subtraction the region holds +inf at (3, 3),
    (4, 3), (4, 4) and a NaN at (3, 4).  All four survive the call, and
    the cells (0, 0), (1, 0) and (1, 1), outside the region, are set to
    -inf instead. *)
Theorem sanitization_misses_inf_and_nan :
  exists img',
    adjust_with_correlation image6 (flat_kernel (F64.of_Z (-4))) 21 huge false
    = Ok img' /\
    get2 img' 3 3 = Some F64.inf /\ get2 img' 3 4 = Some F64.nan /\
    get2 img' 4 3 = Some F64.inf /\ get2 img' 4 4 = Some F64.inf /\
    get2 image6 0 0 = Some (F64.of_Z 5) /\ get2 img' 0 0 = Some F64.neg_inf /\
    get2 image6 1 0 = Some (F64.of_Z 5) /\ get2 img' 1 0 = Some F64.neg_inf /\
    get2 image6 1 1 = Some (F64.of_Z 5) /\ get2 img' 1 1 = Some F64.neg_inf.
Proof. eexists. split; [vm_compute; reflexivity|]. repeat split. Qed.

(** C7.  Two 4 by 4 maps whose only non-zero cells are 10 at (1, 1) in
    layer 0 and 5 at (2, 2) in layer 1, correlation kernels that are all
    zero (square, of any odd side), [spikes_per_unit = 1.0]: [focal]
    returns exactly [[5, 10, 0], [10, 5, 1]], in that order, and writes
    nothing to [sys.stderr]. *)
Theorem two_channel_scenario (correlations : Z -> Z -> ndarray) :
  (forall a b, zero_kernel (correlations a b)) ->
  focal correlations [single_cell 4 4 1 1 10; single_cell 4 4 2 2 5] one
  = Ok (Outcome [Spike 5 (F64.of_Z 10) 0; Spike 10 (F64.of_Z 5) 1] []).
Proof.
  intros Hzero.
  rewrite (focal_no_cross_talk 4 4 ltac:(lia) ltac:(lia) correlations
             no_correlation).
  - vm_compute. reflexivity.
  - assumption.
  - exact zero_kernel_no_correlation.
  - repeat constructor; try reflexivity;
      apply (all_cells_Forall (fun x => finite x = true));
      repeat constructor.
  - cbn. lia.
Qed.

Lemma two_channel_scenario_witness :
  focal no_correlation [single_cell 4 4 1 1 10; single_cell 4 4 2 2 5] one
  = Ok (Outcome [Spike 5 (F64.of_Z 10) 0; Spike 10 (F64.of_Z 5) 1] []).
Proof.
  apply (two_channel_scenario no_correlation).
  exact zero_kernel_no_correlation.
Defined.

(** C8.  Coordinate round trip: for every layer [c] in 0..3 and every
    local coordinate [(r, w)] of an [H] by [W] map, the global flat index
    of [local_coords_to_global_idx], unravelled with the row stride
    [2 W] of the composite image and brought back by
    [global_to_single_coords], is [(r, w)] again. *)
Theorem coords_round_trip (H W c r w : Z) :
  0 <= r < H -> 0 <= w < W -> 0 <= c <= 3 ->
  (let! g := unravel_index
               (local_coords_to_global_idx (r, w) c (H, W) (H * 2, W * 2))
               (H * 2, W * 2) in
   Ok (global_to_single_coords g (H, W))) = Ok (r, w).
Proof.
  intros Hr Hw Hc.
  destruct (cell_type_cases c Hc) as [Hq Hm].
  unfold local_coords_to_global_idx, unravel_index, global_to_single_coords.
  cbn [fst snd].
  set (R := r + c / 2 * H). set (C := w + c mod 2 * W).
  assert (HR : 0 <= R < H * 2) by (subst R; destruct Hq as [-> | ->]; lia).
  assert (HC : 0 <= C < W * 2) by (subst C; destruct Hm as [-> | ->]; lia).
  assert (Hin : (0 <=? R * (W * 2) + C)
                && (R * (W * 2) + C <? H * 2 * (W * 2)) = true).
  { apply andb_true_iff; split; [apply Z.leb_le | apply Z.ltb_lt]; nia. }
  rewrite Hin. cbn [bind fst snd].
  rewrite Z.div_add_l by lia. rewrite (Z.div_small C) by lia.
  rewrite Z.add_0_r.
  rewrite Z.add_comm, Z.mod_add by lia. rewrite (Z.mod_small C) by lia.
  subst R C. rewrite !quadrant_div by lia.
  f_equal. f_equal; lia.
Qed.

Lemma coords_round_trip_witness :
  (let! g := unravel_index
               (local_coords_to_global_idx (1, 2) 3 (3, 4) (3 * 2, 4 * 2))
               (3 * 2, 4 * 2) in
   Ok (global_to_single_coords g (3, 4))) = Ok (1, 2).
Proof. apply (coords_round_trip 3 4 3 1 2); lia. Defined.

(** C9, as stated, fails: [spikes_per_unit = 2.0] lies outside [0, 1],
    and [focal] builds the composite image and emits both spikes of the
    input before the search runs out of cells. *)
Lemma out_of_range_fraction_emits_spikes :
  F64.leb two one = false /\
  focal no_correlation
        [single_cell 2 2 0 0 2; blank 2 2; single_cell 2 2 0 1 1; blank 2 2]
        two
  = Ok (Outcome [Spike 0 two 0; Spike 1 one 2] [wrong_max_value]).
Proof. split; vm_compute; reflexivity. Qed.

(** A fraction below zero, whatever the maps and the kernels: line 82
    gives a budget of at most 0 and the loop body never runs. *)
Lemma negative_fraction_emits_nothing (correlations : Z -> Z -> ndarray)
    (spike_images : list ndarray) (spikes_per_unit : float) :
  negative spikes_per_unit = true ->
  match focal correlations spike_images spikes_per_unit with
  | Ok out => out = Outcome [] []
  | Raise _ => True
  end.
Proof.
  intros Hneg.
  destruct (focal _ _ _) as [out|e] eqn:Hrun; [|exact I].
  unfold focal in Hrun.
  destruct spike_images as [|image0 rest]; [discriminate|].
  destruct (shape image0) as [height width].
  apply bind_Ok in Hrun as (max_cycles & Hbudget & Hrun).
  apply bind_Ok in Hrun as (tile & _ & Hrun).
  apply bind_Ok in Hrun as (cycles & Hrange & Hrun).
  apply budget_negative in Hbudget;
    [|assumption|apply total_nonzero_nonneg].
  unfold xrange in Hrange.
  destruct (_ && _)%bool; [|discriminate].
  injection Hrange as <-.
  replace (Z.to_nat max_cycles) with 0%nat in Hrun by lia.
  cbn [focal_loop] in Hrun. congruence.
Qed.

Lemma valid_images_two_spikes :
  valid_images 2 2 [single_cell 2 2 0 0 2; blank 2 2; single_cell 2 2 0 1 1;
                    blank 2 2].
Proof.
  repeat constructor; try reflexivity;
    apply (all_cells_Forall (fun x => finite x = true));
    repeat constructor.
Defined.

(** C9, amended.  [focal] never checks [spikes_per_unit] against [0, 1];
    a value outside the range is used like any other.  Below zero (-inf
    included), whatever the maps and the kernels, a run that returns
    returns the empty list with nothing on [sys.stderr].  At 1 or more
    (+inf included, so for every value above 1), with one to four maps of
    one shape and finite cells, two or more non-zero cells in all (fewer
    than 2^53) and square kernels of odd side, [focal] returns a list that
    holds at least one spike, and the only exception it can raise instead
    is [OverflowError]. *)
Theorem out_of_range_fraction_outcomes
    (correlations : Z -> Z -> ndarray) (spike_images : list ndarray)
    (below above : float) :
  negative below = true ->
  valid above -> F64.leb (F64.of_Z 1) above = true ->
  match focal correlations spike_images below with
  | Ok out => out = Outcome [] []
  | Raise _ => True
  end /\
  forall H W : Z,
    0 < H -> 0 < W -> valid_images H W spike_images ->
    (0 < length spike_images <= 4)%nat ->
    (forall a b, square_odd (correlations a b)) ->
    2 <= total_nonzero spike_images < 2 ^ 53 ->
    match focal correlations spike_images above with
    | Ok out => ordered_spikes out <> []
    | Raise e => e = OverflowError
    end.
Proof.
  intros Hbelow Hvalid Habove. split.
  - apply negative_fraction_emits_nothing. exact Hbelow.
  - intros H W H_pos W_pos Himages Hlen Hodd Htotal.
    apply (focal_above_one H W H_pos W_pos correlations Hodd); assumption.
Qed.

Lemma out_of_range_fraction_outcomes_witness :
  match focal no_correlation
              [single_cell 2 2 0 0 2; blank 2 2; single_cell 2 2 0 1 1;
               blank 2 2] (F64.of_Z (-1)) with
  | Ok out => out = Outcome [] []
  | Raise _ => True
  end /\
  match focal no_correlation
              [single_cell 2 2 0 0 2; blank 2 2; single_cell 2 2 0 1 1;
               blank 2 2] five_quarters with
  | Ok out => ordered_spikes out <> []
  | Raise e => e = OverflowError
  end.
Proof.
  destruct (out_of_range_fraction_outcomes no_correlation
              [single_cell 2 2 0 0 2; blank 2 2; single_cell 2 2 0 1 1;
               blank 2 2] (F64.of_Z (-1)) five_quarters
              eq_refl eq_refl eq_refl) as [Hbelow Habove].
  split; [exact Hbelow|].
  apply (Habove 2 2 ltac:(lia) ltac:(lia) valid_images_two_spikes).
  - cbn [length]. lia.
  - intros a b. exact (proj1 (zero_kernel_no_correlation a b)).
  - clear. vm_compute. intuition discriminate.
Defined.

Lemma subtraction_spares_last_row_and_column_witness :
  exists img',
    adjust_with_correlation image4 (flat_kernel one) 0 two true = Ok img' /\
    get2 img' 1 0 = get2 image4 1 0 /\ get2 img' 0 1 = get2 image4 0 1.
Proof.
  pose proof (subtraction_spares_last_row_and_column 2 2 image4
                (flat_kernel one) 0 two true ltac:(lia) ltac:(lia) eq_refl
                ltac:(repeat constructor) ltac:(lia))
    as (_ & _ & _ & Hlast & Hreturns).
  destruct (Hreturns 1 eq_refl) as [img' Hok].
  exists img'. split; [exact Hok|].
  split; apply (Hlast img' Hok); clear; vm_compute; intuition discriminate.
Defined.

(** * Further properties of the code *)

(** ** The coordinate mappers *)

(** X1. The layer of a cell survives the trip through the composite image:
    for every layer [c] in 0..3 and every local coordinate [(r, w)] of an
    [H] by [W] map, the index of [local_coords_to_global_idx] is an index of
    the composite image, and [cell_type_from_global_coords] finds the layer
    [c] at its coordinates. *)
Theorem cell_type_round_trip (H W c r w : Z) :
  0 <= r < H -> 0 <= w < W -> 0 <= c <= 3 ->
  (let! g := unravel_index
               (local_coords_to_global_idx (r, w) c (H, W) (H * 2, W * 2))
               (H * 2, W * 2) in
   Ok (cell_type_from_global_coords g (H, W))) = Ok c.
Proof.
  intros Hr Hw Hc.
  destruct (overlap_position H W ltac:(lia) ltac:(lia) r w c Hr Hw Hc)
    as (Hidx & Hrow & Hcol).
  destruct (cell_type_cases c Hc) as [Hq Hm].
  unfold unravel_index. cbn [fst snd].
  destruct (Z.leb_spec 0 (local_coords_to_global_idx (r, w) c (H, W)
                            (H * 2, W * 2))); [|lia].
  destruct (Z.ltb_spec (local_coords_to_global_idx (r, w) c (H, W)
                          (H * 2, W * 2)) (H * 2 * (W * 2))); [|lia].
  cbn [andb bind]. unfold cell_type_from_global_coords. cbn [fst snd].
  rewrite Hrow, Hcol, !quadrant_div by lia.
  f_equal. rewrite (Z.div_mod c 2) at 3 by lia. lia.
Qed.

Lemma cell_type_round_trip_witness :
  (let! g := unravel_index
               (local_coords_to_global_idx (1, 2) 3 (3, 4) (3 * 2, 4 * 2))
               (3 * 2, 4 * 2) in
   Ok (cell_type_from_global_coords g (3, 4))) = Ok 3.
Proof. apply (cell_type_round_trip 3 4 3 1 2); lia. Defined.

(** X2. Decoding then encoding: the coordinates of any cell of the composite
    image, split into local coordinates and layer by
    [global_to_single_coords] and [cell_type_from_global_coords], are mapped
    back to the index of that cell by [local_coords_to_global_idx]. *)
Theorem decoded_coords_give_the_index_back (H W idx : Z) :
  0 < H -> 0 < W -> 0 <= idx < (H * 2) * (W * 2) ->
  (let! g := unravel_index idx (H * 2, W * 2) in
   Ok (local_coords_to_global_idx
         (global_to_single_coords g (H, W))
         (cell_type_from_global_coords g (H, W))
         (H, W) (H * 2, W * 2))) = Ok idx.
Proof.
  intros H_pos W_pos Hidx. unfold unravel_index. cbn [fst snd].
  destruct (Z.leb_spec 0 idx); [|lia].
  destruct (Z.ltb_spec idx (H * 2 * (W * 2))); [|lia].
  cbn [andb bind].
  assert (HR : 0 <= idx / (W * 2) < H * 2).
  { split; [apply Z.div_pos; lia|].
    apply Z.div_lt_upper_bound; lia. }
  pose proof (Z.mod_pos_bound idx (W * 2) ltac:(lia)) as HC.
  pose proof (Z.div_mod idx (W * 2) ltac:(lia)) as Hsplit.
  set (R := idx / (W * 2)) in *. set (C := idx mod (W * 2)) in *.
  unfold local_coords_to_global_idx, global_to_single_coords,
    cell_type_from_global_coords. cbn [fst snd].
  assert (Hq : (R / H = 0 /\ R < H) \/ (R / H = 1 /\ H <= R)).
  { destruct (Z.lt_ge_cases R H) as [Hlt|Hge]; [left|right].
    - split; [apply Z.div_small|]; lia.
    - split; [|lia]. replace R with ((R - H) + 1 * H) by lia.
      rewrite Z.div_add by lia. rewrite Z.div_small; lia. }
  assert (Hp : (C / W = 0 /\ C < W) \/ (C / W = 1 /\ W <= C)).
  { destruct (Z.lt_ge_cases C W) as [Hlt|Hge]; [left|right].
    - split; [apply Z.div_small|]; lia.
    - split; [|lia]. replace C with ((C - W) + 1 * W) by lia.
      rewrite Z.div_add by lia. rewrite Z.div_small; lia. }
  assert (Hdiv : (R / H * 2 + C / W) / 2 = R / H).
  { rewrite Z.div_add_l by lia. rewrite (Z.div_small (C / W) 2); lia. }
  assert (Hmod : (R / H * 2 + C / W) mod 2 = C / W).
  { rewrite Z.add_comm, Z.mod_add by lia. apply Z.mod_small. lia. }
  f_equal. rewrite Hdiv, Hmod, Hsplit. lia.
Qed.

Lemma decoded_coords_give_the_index_back_witness :
  (let! g := unravel_index 29 (3 * 2, 4 * 2) in
   Ok (local_coords_to_global_idx
         (global_to_single_coords g (3, 4))
         (cell_type_from_global_coords g (3, 4))
         (3, 4) (3 * 2, 4 * 2))) = Ok 29.
Proof. apply (decoded_coords_give_the_index_back 3 4 29); lia. Defined.

(** X3. [local_coords_to_global_idx] never sends two cells to one index:
    equal indices mean the same layer and the same local coordinates. *)
Theorem global_index_injective (H W c r w c' r' w' : Z) :
  0 <= r < H -> 0 <= w < W -> 0 <= c <= 3 ->
  0 <= r' < H -> 0 <= w' < W -> 0 <= c' <= 3 ->
  local_coords_to_global_idx (r, w) c (H, W) (H * 2, W * 2) =
  local_coords_to_global_idx (r', w') c' (H, W) (H * 2, W * 2) ->
  c = c' /\ r = r' /\ w = w'.
Proof.
  intros Hr Hw Hc Hr' Hw' Hc' Heq.
  destruct (overlap_position H W ltac:(lia) ltac:(lia) r w c Hr Hw Hc)
    as (_ & Hrow & Hcol).
  destruct (overlap_position H W ltac:(lia) ltac:(lia) r' w' c' Hr' Hw' Hc')
    as (_ & Hrow' & Hcol').
  cbn zeta in Hrow, Hcol, Hrow', Hcol'.
  rewrite Heq in Hrow, Hcol. rewrite Hrow' in Hrow. rewrite Hcol' in Hcol.
  destruct (cell_type_cases c Hc) as [Hq Hm].
  destruct (cell_type_cases c' Hc') as [Hq' Hm'].
  pose proof (Z.div_mod c 2 ltac:(lia)) as Hsplit.
  pose proof (Z.div_mod c' 2 ltac:(lia)) as Hsplit'.
  destruct Hq as [Hq|Hq], Hq' as [Hq'|Hq'], Hm as [Hm|Hm], Hm' as [Hm'|Hm'];
    rewrite Hq, Hq' in Hrow; rewrite Hm, Hm' in Hcol; lia.
Qed.

Lemma global_index_injective_witness : 3 = 3 /\ 1 = 1 /\ 2 = 2.
Proof.
  apply (global_index_injective 3 4 3 1 2 3 1 2); lia.
Defined.

(** ** One call of [adjust_with_correlation], cell by cell *)

(** X4. The subtraction of lines 219-221 with a square kernel of odd side [2
    k + 1]: every cell [(i, j)] of the region [max(up_lim, row - k) <= i <
    min(down_lim - 1, row + k + 1)] (and the same on the columns) goes from
    [x] to [x - max_val * K[k + i - row, k + j - col]], the kernel being
    centred on the spike. *)
Theorem subtraction_formula (H W k : Z) (img correlation : ndarray)
    (max_idx : Z) (max_val : float) (img1 : ndarray) :
  0 < H -> 0 < W -> shape img = (H * 2, W * 2) -> rectangular img ->
  0 <= max_idx < (H * 2) * (W * 2) ->
  shape correlation = (2 * k + 1, 2 * k + 1) -> rectangular correlation ->
  let z := correlation_zone img correlation max_idx in
  subtract_correlation img correlation z max_val = Ok img1 ->
  forall i j : nat,
    Z.max (up_lim z) (zone_row z - k) <= Z.of_nat i
      < Z.min (down_lim z - 1) (zone_row z + k + 1) ->
    Z.max (left_lim z) (zone_col z - k) <= Z.of_nat j
      < Z.min (right_lim z - 1) (zone_col z + k + 1) ->
    exists x c,
      get2 img i j = Some x /\
      get2 correlation (Z.to_nat (k + Z.of_nat i - zone_row z))
                       (Z.to_nat (k + Z.of_nat j - zone_col z)) = Some c /\
      get2 img1 i j = Some (F64.sub x (F64.mul max_val c)).
Proof.
  intros H_pos W_pos img_shape Hrect idx_range Hknl Hkrect z Hsub i j Hi Hj.
  destruct (zone_spec H W img correlation max_idx H_pos W_pos
              img_shape idx_range)
    as ((Hrow & Hcol) & (Hup & Hdown & Hr) & (Hleft & Hright & Hc) &
        (Hminr & Hmaxr & Hminc & Hmaxc) & Hweq & Hh).
  destruct (knl_window_eq H W img correlation max_idx H_pos W_pos
              img_shape idx_range k Hknl) as (Hkw & Hkr & Hkc & Hkr0 & Hkc0).
  destruct (zone_kernel_region H W img correlation max_idx img_shape)
    as (Hkminr & Hkmaxr & Hkminc & Hkmaxc).
  fold z in Hrow, Hcol, Hup, Hdown, Hr, Hleft, Hright, Hc, Hminr, Hmaxr,
    Hminc, Hmaxc, Hweq, Hkw, Hkr, Hkc, Hkr0, Hkc0, Hkminr, Hkmaxr, Hkminc,
    Hkmaxc.
  assert (Hk : fst (shape correlation) / 2 = k).
  { rewrite Hknl. cbn [fst].
    assert (0 <= 2 * k + 1).
    { pose proof (f_equal fst Hknl) as Hf. unfold shape in Hf.
      cbn [fst] in Hf. lia. }
    rewrite Z.mul_comm, Z.div_add_l by lia. rewrite Z.div_small; lia. }
  rewrite Hk in *.
  destruct (get2_in_range img (H * 2) (W * 2) i j Hrect img_shape)
    as [x Hx]; [lia..|].
  destruct (get2_in_range correlation (2 * k + 1) (2 * k + 1)
              (Z.to_nat (k + Z.of_nat i - zone_row z))
              (Z.to_nat (k + Z.of_nat j - zone_col z)) Hkrect Hknl)
    as [c Hcell]; [lia..|].
  exists x, c. split; [assumption|]. split; [assumption|].
  destruct (subtract_correlation_Ok img correlation max_idx max_val img1 Hsub)
    as [_ Hcells].
  fold z in Hcells. rewrite Hcells, Hx. cbn [fmap option_fmap option_map].
  rewrite Hweq, Hkw. unfold in_window, win_rows, win_cols.
  cbn [lo_r hi_r lo_c hi_c].
  destruct (Z.leb_spec (min_img_row z) (Z.of_nat i)); [|lia].
  destruct (Z.ltb_spec (Z.of_nat i) (max_img_row z)); [|lia].
  destruct (Z.leb_spec (min_img_col z) (Z.of_nat j)); [|lia].
  destruct (Z.ltb_spec (Z.of_nat j) (max_img_col z)); [|lia].
  cbn [andb].
  assert (Hbr : bcast (Z.max 0 (max_knl_row z - min_knl_row z))
                      (Z.of_nat i - min_img_row z)
                = Z.of_nat i - min_img_row z).
  { unfold bcast. destruct (Z.eqb_spec (Z.max 0 (max_knl_row z - min_knl_row z)) 1);
      lia. }
  assert (Hbc : bcast (Z.max 0 (max_knl_col z - min_knl_col z))
                      (Z.of_nat j - min_img_col z)
                = Z.of_nat j - min_img_col z).
  { unfold bcast. destruct (Z.eqb_spec (Z.max 0 (max_knl_col z - min_knl_col z)) 1);
      lia. }
  rewrite Hbr, Hbc, get2_scale, get2_view by (cbn [lo_r lo_c]; lia).
  unfold win_rows, win_cols. cbn [lo_r hi_r lo_c hi_c].
  destruct (Z.ltb_spec (Z.of_nat (Z.to_nat (Z.of_nat i - min_img_row z)))
              (Z.max 0 (max_knl_row z - min_knl_row z))); [|lia].
  destruct (Z.ltb_spec (Z.of_nat (Z.to_nat (Z.of_nat j - min_img_col z)))
              (Z.max 0 (max_knl_col z - min_knl_col z))); [|lia].
  cbn [andb].
  replace (Z.to_nat (min_knl_row z) + Z.to_nat (Z.of_nat i - min_img_row z))%nat
    with (Z.to_nat (k + Z.of_nat i - zone_row z)) by lia.
  replace (Z.to_nat (min_knl_col z) + Z.to_nat (Z.of_nat j - min_img_col z))%nat
    with (Z.to_nat (k + Z.of_nat j - zone_col z)) by lia.
  rewrite Hcell. reflexivity.
Qed.

Lemma subtraction_formula_witness :
  exists x c,
    get2 image4 0 0 = Some x /\
    get2 (flat_kernel one)
         (Z.to_nat (1 + Z.of_nat 0
                    - zone_row (correlation_zone image4 (flat_kernel one) 0)))
         (Z.to_nat (1 + Z.of_nat 0
                    - zone_col (correlation_zone image4 (flat_kernel one) 0)))
      = Some c /\
    get2 (set2 image4 0 0 (F64.of_Z 3)) 0 0
      = Some (F64.sub x (F64.mul two c)).
Proof.
  apply (subtraction_formula 2 2 1 image4 (flat_kernel one) 0 two
           (set2 image4 0 0 (F64.of_Z 3)) ltac:(lia) ltac:(lia) eq_refl
           ltac:(repeat constructor) ltac:(lia) eq_refl
           ltac:(repeat constructor) eq_refl 0%nat 0%nat);
    clear; vm_compute; intuition discriminate.
Defined.

(** X5. The subtraction of lines 219-221 is local, whatever the kernel: a
    cell outside the quadrant of the spike, or further than
    [half_correlation_width] from the spike on either axis, keeps its value,
    and the image keeps its shape. *)
Theorem subtraction_is_local (H W : Z) (img correlation : ndarray)
    (max_idx : Z) (max_val : float) (img1 : ndarray) :
  0 < H -> 0 < W -> shape img = (H * 2, W * 2) ->
  0 <= max_idx < (H * 2) * (W * 2) ->
  let z := correlation_zone img correlation max_idx in
  let half := fst (shape correlation) / 2 in
  subtract_correlation img correlation z max_val = Ok img1 ->
  shape img1 = shape img /\
  forall i j : nat,
    ~ (up_lim z <= Z.of_nat i < down_lim z /\
       left_lim z <= Z.of_nat j < right_lim z /\
       zone_row z - half <= Z.of_nat i <= zone_row z + half /\
       zone_col z - half <= Z.of_nat j <= zone_col z + half) ->
    get2 img1 i j = get2 img i j.
Proof.
  intros H_pos W_pos img_shape idx_range z half Hsub.
  destruct (zone_spec H W img correlation max_idx H_pos W_pos
              img_shape idx_range)
    as (_ & (Hup & Hdown & Hr) & (Hleft & Hright & Hc) &
        (Hminr & Hmaxr & Hminc & Hmaxc) & Hweq & Hh).
  fold z in Hup, Hdown, Hr, Hleft, Hright, Hc, Hminr, Hmaxr, Hminc, Hmaxc,
    Hweq.
  fold half in Hminr, Hmaxr, Hminc, Hmaxc, Hh.
  destruct (subtract_correlation_Ok img correlation max_idx max_val img1 Hsub)
    as [Hshape Hcells].
  split; [assumption|]. intros i j Hout.
  fold z in Hcells. rewrite Hcells, Hweq.
  destruct (in_window _ _ _) eqn:Hin;
    [|destruct (get2 img i j); reflexivity].
  exfalso. apply Hout. unfold in_window in Hin.
  cbn [lo_r hi_r lo_c hi_c] in Hin.
  rewrite !andb_true_iff, !Z.leb_le, !Z.ltb_lt in Hin. lia.
Qed.

Lemma subtraction_is_local_witness :
  shape (set2 image4 0 0 (F64.of_Z 3)) = shape image4 /\
  forall i j : nat,
    ~ (up_lim (correlation_zone image4 (flat_kernel one) 0) <= Z.of_nat i
         < down_lim (correlation_zone image4 (flat_kernel one) 0) /\
       left_lim (correlation_zone image4 (flat_kernel one) 0) <= Z.of_nat j
         < right_lim (correlation_zone image4 (flat_kernel one) 0) /\
       zone_row (correlation_zone image4 (flat_kernel one) 0)
         - fst (shape (flat_kernel one)) / 2 <= Z.of_nat i
         <= zone_row (correlation_zone image4 (flat_kernel one) 0)
            + fst (shape (flat_kernel one)) / 2 /\
       zone_col (correlation_zone image4 (flat_kernel one) 0)
         - fst (shape (flat_kernel one)) / 2 <= Z.of_nat j
         <= zone_col (correlation_zone image4 (flat_kernel one) 0)
            + fst (shape (flat_kernel one)) / 2) ->
    get2 (set2 image4 0 0 (F64.of_Z 3)) i j = get2 image4 i j.
Proof.
  apply (subtraction_is_local 2 2 image4 (flat_kernel one) 0 two
           (set2 image4 0 0 (F64.of_Z 3)));
    try lia; reflexivity.
Defined.

(** X6. A whole call and the other quadrants: a cell outside the quadrant of
    the spike comes out of [adjust_with_correlation] with the value it had,
    or with -inf; the clean-up of lines 223-226 is the only write that can
    land there, and -inf is all that it writes. *)
Theorem call_writes_only_sentinels_elsewhere (H W : Z)
    (img correlation : ndarray) (max_idx : Z) (max_val : float)
    (is_max_val_layer : bool) (img' : ndarray) :
  0 < H -> 0 < W -> shape img = (H * 2, W * 2) ->
  0 <= max_idx < (H * 2) * (W * 2) ->
  let z := correlation_zone img correlation max_idx in
  adjust_with_correlation img correlation max_idx max_val is_max_val_layer
    = Ok img' ->
  forall i j : nat,
    ~ (up_lim z <= Z.of_nat i < down_lim z /\
       left_lim z <= Z.of_nat j < right_lim z) ->
    get2 img' i j = get2 img i j \/ get2 img' i j = Some F64.neg_inf.
Proof.
  intros H_pos W_pos img_shape idx_range z Hok i j Hout.
  destruct (zone_spec H W img correlation max_idx H_pos W_pos
              img_shape idx_range)
    as ((Hrow & Hcol) & (Hup & Hdown & Hr) & (Hleft & Hright & Hc) &
        (Hminr & Hmaxr & Hminc & Hmaxc) & Hweq & Hh).
  fold z in Hrow, Hcol, Hup, Hdown, Hr, Hleft, Hright, Hc, Hminr, Hmaxr,
    Hminc, Hmaxc, Hweq.
  destruct (adjust_with_correlation_Ok H W img correlation max_idx max_val
              H_pos W_pos img_shape idx_range is_max_val_layer img' Hok)
    as (img1 & Hsub & Hlast).
  fold z in Hsub, Hlast. cbn zeta in Hlast.
  destruct (subtract_correlation_Ok img correlation max_idx max_val img1 Hsub)
    as [_ Hcells].
  fold z in Hcells.
  assert (Hsame : get2 img1 i j = get2 img i j).
  { rewrite Hcells, Hweq.
    destruct (in_window _ _ _) eqn:Hin;
      [|destruct (get2 img i j); reflexivity].
    exfalso. apply Hout. unfold in_window in Hin.
    cbn [lo_r hi_r lo_c hi_c] in Hin.
    rewrite !andb_true_iff, !Z.leb_le, !Z.ltb_lt in Hin. lia. }
  assert (Hweird : get2 (mark_weird img1 z F64.inf) i j = get2 img i j \/
                   get2 (mark_weird img1 z F64.inf) i j = Some F64.neg_inf).
  { rewrite get2_mark_weird, Hsame.
    destruct (get2 img i j) as [x|]; cbn; [|left; reflexivity].
    destruct (bool_decide _); [right|left]; reflexivity. }
  destruct is_max_val_layer; [|subst img'; exact Hweird].
  destruct Hlast as (x & _ & ->). rewrite get2_set2.
  destruct (Nat.eqb_spec (Z.to_nat (zone_row z)) i) as [Hi|Hi];
    [destruct (Nat.eqb_spec (Z.to_nat (zone_col z)) j) as [Hj|Hj]|];
    cbn [andb].
  - exfalso. apply Hout. lia.
  - destruct Hweird as [->| ->]; [left|right];
      [destruct (get2 img i j)|]; reflexivity.
  - destruct Hweird as [->| ->]; [left|right];
      [destruct (get2 img i j)|]; reflexivity.
Qed.

Lemma call_writes_only_sentinels_elsewhere_witness :
  get2 (set2 (set2 image4 2 2 F64.inf) 0 0 F64.neg_inf) 0 0
    = get2 image4 0 0 \/
  get2 (set2 (set2 image4 2 2 F64.inf) 0 0 F64.neg_inf) 0 0
    = Some F64.neg_inf.
Proof.
  apply (call_writes_only_sentinels_elsewhere 2 2 image4
           (kernel (F64.of_Z (-4))) 10 huge false
           (set2 (set2 image4 2 2 F64.inf) 0 0 F64.neg_inf));
    try lia; try reflexivity.
  vm_compute. intuition discriminate.
Defined.



(** X8. The only exception of a call on a composite image is numpy's
    [ValueError] for a kernel slice that does not broadcast over the image
    slice: no index of the call is ever out of range. A call that returns
    leaves the image with its shape. *)
Theorem call_raises_only_value_error (H W : Z) (img correlation : ndarray)
    (max_idx : Z) (max_val : float) (is_max_val_layer : bool) :
  0 < H -> 0 < W -> shape img = (H * 2, W * 2) -> rectangular img ->
  0 <= max_idx < (H * 2) * (W * 2) ->
  match adjust_with_correlation img correlation max_idx max_val
                                is_max_val_layer with
  | Ok img' => shape img' = shape img /\ rectangular img'
  | Raise e => e = ValueError
  end.
Proof.
  intros H_pos W_pos img_shape Hrect idx_range.
  destruct (adjust_with_correlation _ _ _ _ _) as [img'|e] eqn:Hcall.
  - destruct (adjust_composite H W H_pos W_pos img correlation max_idx max_val
                is_max_val_layer img' (conj img_shape Hrect) idx_range Hcall)
      as [Hshape Hrect'].
    split; [congruence|assumption].
  - revert Hcall. unfold adjust_with_correlation.
    set (z := correlation_zone img correlation max_idx).
    destruct (subtract_correlation img correlation z max_val)
      as [img1|e1] eqn:Hsub; cbn [bind].
    + rewrite mark_weird_nan.
      destruct is_max_val_layer; [|discriminate].
      destruct (zone_spec H W img correlation max_idx H_pos W_pos
                  img_shape idx_range) as ((Hrow & Hcol) & _).
      fold z in Hrow, Hcol.
      destruct (subtract_correlation_Ok img correlation max_idx max_val img1
                  Hsub) as [Hshape Hcells].
      unfold isub_item. cbn [fst snd].
      rewrite shape_mark_weird, Hshape, img_shape. cbn [fst snd].
      rewrite !index_in_range by assumption. cbn [bind].
      destruct (get2_in_range img (H * 2) (W * 2) (Z.to_nat (zone_row z))
                  (Z.to_nat (zone_col z)) Hrect img_shape) as [x Hx];
        [lia..|].
      fold z in Hcells. rewrite get2_mark_weird, Hcells, Hx. discriminate.
    + intros [= <-]. revert Hsub.
      unfold subtract_correlation, isub_window, update_window.
      destruct (broadcastable _ _ _ _); [discriminate|]. congruence.
Qed.

Lemma call_raises_only_value_error_witness :
  match adjust_with_correlation image4 (flat_kernel one) 0 two true with
  | Ok img' => shape img' = shape image4 /\ rectangular img'
  | Raise e => e = ValueError
  end.
Proof.
  apply (call_raises_only_value_error 2 2 image4 (flat_kernel one) 0 two true
           ltac:(lia) ltac:(lia) eq_refl ltac:(repeat constructor)
           ltac:(lia)).
Defined.

(** X9. A kernel with an even number of rows does not fit: when the spike is
    far enough from the edges of its quadrant for the rows of the region not
    to be clipped, the image slice has [2 k + 1] rows and the kernel slice
    [2 k], and the call raises [ValueError] before it writes. *)
Theorem even_kernel_raises (H W k : Z) (img correlation : ndarray)
    (max_idx : Z) (max_val : float) (is_max_val_layer : bool) :
  0 < H -> 0 < W -> shape img = (H * 2, W * 2) ->
  0 <= max_idx < (H * 2) * (W * 2) ->
  fst (shape correlation) = 2 * k ->
  let z := correlation_zone img correlation max_idx in
  up_lim z <= zone_row z - k -> zone_row z + k + 1 <= down_lim z - 1 ->
  adjust_with_correlation img correlation max_idx max_val is_max_val_layer
    = Raise ValueError.
Proof.
  intros H_pos W_pos img_shape idx_range Hrows z Hup_free Hdown_free.
  destruct (zone_spec H W img correlation max_idx H_pos W_pos
              img_shape idx_range)
    as ((Hrow & Hcol) & (Hup & Hdown & Hr) & (Hleft & Hright & Hc) &
        (Hminr & Hmaxr & Hminc & Hmaxc) & Hweq & Hh).
  destruct (zone_kernel_region H W img correlation max_idx img_shape)
    as (Hkminr & Hkmaxr & _).
  fold z in Hrow, Hcol, Hup, Hdown, Hr, Hleft, Hright, Hc, Hminr, Hmaxr,
    Hminc, Hmaxc, Hweq, Hkminr, Hkmaxr.
  assert (Hk0 : 0 <= k).
  { unfold shape in Hrows. cbn [fst] in Hrows. lia. }
  assert (Hk : fst (shape correlation) / 2 = k).
  { rewrite Hrows, Z.mul_comm. apply Z.div_mul. lia. }
  rewrite Hk in *.
  unfold adjust_with_correlation. fold z.
  unfold subtract_correlation, isub_window, update_window.
  assert (Hb : broadcastable (win_rows (knl_window correlation z))
                 (win_cols (knl_window correlation z))
                 (win_rows (img_window img z))
                 (win_cols (img_window img z)) = false).
  { unfold broadcastable.
    assert (Hkw : win_rows (knl_window correlation z) = 2 * k).
    { unfold knl_window, slice, win_rows.
      destruct (shape correlation) as [kh kw] eqn:Hs. cbn [fst] in Hrows.
      cbn [lo_r hi_r]. unfold slice_bound.
      destruct (Z.ltb_spec (min_knl_row z) 0); [lia|].
      destruct (Z.ltb_spec (max_knl_row z) 0); lia. }
    assert (Hiw : win_rows (img_window img z) = 2 * k + 1).
    { rewrite Hweq. unfold win_rows. cbn [lo_r hi_r]. lia. }
    rewrite Hkw, Hiw.
    destruct (Z.eqb_spec (2 * k) (2 * k + 1)); [lia|].
    destruct (Z.eqb_spec (2 * k) 1); [lia|]. reflexivity. }
  rewrite Hb. reflexivity.
Qed.

Lemma even_kernel_raises_witness :
  adjust_with_correlation (zeros (8, 8)) [[one; one]; [one; one]] 9 two true
    = Raise ValueError.
Proof.
  apply (even_kernel_raises 4 4 1 (zeros (8, 8)) [[one; one]; [one; one]] 9
           two true ltac:(lia) ltac:(lia) eq_refl ltac:(lia) eq_refl);
    clear; vm_compute; discriminate.
Defined.

(** X10. Without cross-talk a call does nothing but the marking: on a
    composite image of numbers and -inf, with an all-zero kernel and a
    finite [max_val], the call returns the image unchanged on another layer,
    and on the layer of the spike it returns the image with -inf in the cell
    of the spike. *)
Theorem zero_kernel_call (H W : Z) (tile correlation : ndarray)
    (max_idx : Z) (max_val : float) (is_max_val_layer : bool) :
  0 < H -> 0 < W -> tile_ok H W tile ->
  0 <= max_idx < (H * 2) * (W * 2) ->
  zero_kernel correlation -> finite max_val = true ->
  adjust_with_correlation tile correlation max_idx max_val is_max_val_layer
  = Ok (if is_max_val_layer
        then set2 tile (Z.to_nat (max_idx / (W * 2)))
                  (Z.to_nat (max_idx mod (W * 2))) F64.neg_inf
        else tile).
Proof.
  intros H_pos W_pos Htile idx_range Hzero Hfin.
  pose proof Htile as (Hshape & Hrect & Hcells).
  destruct (adjust_zero_kernel H W tile correlation max_idx max_val H_pos
              W_pos Hshape Hrect idx_range Hzero Hfin
              (tile_ok_clean H W tile Htile) is_max_val_layer)
    as (x & Hx & ->).
  destruct (zone_position H W tile correlation max_idx H_pos W_pos Hshape
              idx_range) as (Hrow & Hcol & _).
  rewrite Hrow, Hcol in *.
  destruct is_max_val_layer; [|reflexivity].
  rewrite (sub_inf_searchable x) by eauto. reflexivity.
Qed.

Lemma tile_ok_image4 : tile_ok 2 2 image4.
Proof.
  split; [reflexivity|]. split; [repeat constructor|].
  apply (all_cells_Forall (fun x => searchable x = true)).
  repeat constructor.
Defined.

Lemma zero_kernel_scenario : zero_kernel (kernel F64.zero).
Proof.
  split; [exists 1; reflexivity|].
  apply (all_cells_Forall (fun c => exists s, c = S754_zero s)).
  repeat constructor; exists false; reflexivity.
Defined.

Lemma zero_kernel_call_witness :
  adjust_with_correlation image4 (kernel F64.zero) 10 two true
  = Ok (set2 image4 (Z.to_nat (10 / (2 * 2))) (Z.to_nat (10 mod (2 * 2)))
             F64.neg_inf).
Proof.
  apply (zero_kernel_call 2 2 image4 (kernel F64.zero) 10 two true
           ltac:(lia) ltac:(lia) tile_ok_image4 ltac:(lia)
           zero_kernel_scenario eq_refl).
Defined.

(** X11. Exhaustion is kept as long as nothing is negative. With a kernel of
    finite entries, none negative, and a finite [max_val] that is not
    negative, a cell that holds -inf before a call that returns holds -inf
    after it, wherever the cell lies. *)
Theorem exhausted_cell_stays_exhausted (H W : Z) (img correlation : ndarray)
    (max_idx : Z) (max_val : float) (is_max_val_layer : bool)
    (img' : ndarray) :
  0 < H -> 0 < W -> shape img = (H * 2, W * 2) ->
  0 <= max_idx < (H * 2) * (W * 2) ->
  nonneg_kernel correlation ->
  valid max_val -> finite max_val = true -> nonneg max_val = true ->
  adjust_with_correlation img correlation max_idx max_val is_max_val_layer
    = Ok img' ->
  forall i j : nat,
    get2 img i j = Some F64.neg_inf -> get2 img' i j = Some F64.neg_inf.
Proof.
  intros H_pos W_pos img_shape idx_range Hknl Hvalid Hfin Hnn Hcall i j Hx.
  destruct (adjust_relates H W H_pos W_pos img correlation max_idx max_val
              is_max_val_layer img' img_shape idx_range Hcall
              (fun x y => x = F64.neg_inf -> y = F64.neg_inf))
    with (i := i) (j := j) (x := F64.neg_inf) as (x' & Hx' & Hrel);
    try assumption.
  - auto.
  - intros x y p q c Hxy Hc Hneg. rewrite (Hxy Hneg).
    destruct (Hknl p q c Hc) as (Hcv & Hcf & Hcn).
    pose proof (mul_nonneg max_val c Hvalid Hcv Hfin Hcf Hnn Hcn) as Hp.
    destruct (F64.mul max_val c) as [s|[]| |[] m e]; try discriminate;
      reflexivity.
  - reflexivity.
  - intros x y Hxy Hneg. rewrite (Hxy Hneg). reflexivity.
  - rewrite Hx', (Hrel eq_refl). reflexivity.
Qed.

Lemma nonneg_kernel_flat : nonneg_kernel (flat_kernel one).
Proof.
  apply (all_cells_Forall
           (fun c => valid c /\ finite c = true /\ nonneg c = true)).
  repeat constructor.
Defined.

Lemma exhausted_cell_stays_exhausted_witness :
  get2 (set2 (set2 (set2 (set2 image6 3 3 (F64.of_Z (-1))) 4 3
                              (F64.of_Z (-1))) 4 4 (F64.of_Z (-1)))
             3 3 F64.neg_inf) 3 4
  = Some F64.neg_inf.
Proof.
  apply (exhausted_cell_stays_exhausted 3 3 image6 (flat_kernel one) 21 two
           true _ ltac:(lia) ltac:(lia) eq_refl ltac:(lia) nonneg_kernel_flat
           eq_refl eq_refl eq_refl);
    vm_compute; reflexivity.
Defined.

(** X12. A correction lowers or keeps, and never raises. With a kernel of
    finite entries, none negative, and a finite [max_val] that is not
    negative, every cell that holds a number or -inf before a call that
    returns holds afterwards a value no larger than before. *)
Theorem correction_never_raises_a_cell (H W : Z) (img correlation : ndarray)
    (max_idx : Z) (max_val : float) (is_max_val_layer : bool)
    (img' : ndarray) :
  0 < H -> 0 < W -> shape img = (H * 2, W * 2) ->
  0 <= max_idx < (H * 2) * (W * 2) ->
  nonneg_kernel correlation ->
  valid max_val -> finite max_val = true -> nonneg max_val = true ->
  adjust_with_correlation img correlation max_idx max_val is_max_val_layer
    = Ok img' ->
  forall (i j : nat) (x : float),
    get2 img i j = Some x -> valid x -> below_inf x = true ->
    exists x', get2 img' i j = Some x' /\ F64.leb x' x = true.
Proof.
  intros H_pos W_pos img_shape idx_range Hknl Hvalid Hfin Hnn Hcall i j x Hx
    Hxv Hxb.
  assert (Hbelow : forall a b, F64.leb b a = true -> below_inf a = true ->
                               below_inf b = true).
  { intros a b Hle Ha.
    destruct a as [sa|[]| |sa ma ea], b as [sb|[]| |sb mb eb];
      try discriminate; try reflexivity. }
  destruct (adjust_relates H W H_pos W_pos img correlation max_idx max_val
              is_max_val_layer img' img_shape idx_range Hcall
              (fun x y => valid x -> below_inf x = true ->
                          valid y /\ F64.leb y x = true))
    with (i := i) (j := j) (x := x) as (x' & Hx' & Hrel);
    try assumption.
  - intros a Ha Hb. split; [assumption|]. apply leb_refl.
    destruct a as [| | |]; try discriminate; reflexivity.
  - intros a b p q c Hab Hc Ha Hb.
    destruct (Hab Ha Hb) as [Hbv Hle].
    destruct (Hknl p q c Hc) as (Hcv & Hcf & Hcn).
    pose proof (mul_valid max_val c Hvalid Hcv) as Hpv.
    pose proof (mul_nonneg max_val c Hvalid Hcv Hfin Hcf Hnn Hcn) as Hpn.
    split; [apply sub_valid; assumption|].
    apply leb_trans with b; [|assumption].
    apply sub_nonneg_le; eauto.
  - intros a b Hab Ha Hb. split; [reflexivity|].
    apply neg_inf_least. destruct a as [| | |]; try discriminate; reflexivity.
  - intros a b Hab Ha Hb. destruct (Hab Ha Hb) as [Hbv Hle].
    rewrite (sub_inf_below b) by eauto.
    split; [reflexivity|].
    apply neg_inf_least. destruct a as [| | |]; try discriminate; reflexivity.
  - exists x'. split; [assumption|]. exact (proj2 (Hrel Hxv Hxb)).
Qed.

Lemma correction_never_raises_a_cell_witness :
  exists x',
    get2 (set2 (set2 image4 0 0 (F64.of_Z 3)) 0 0 F64.neg_inf) 0 0 = Some x' /\
    F64.leb x' (F64.of_Z 5) = true.
Proof.
  apply (correction_never_raises_a_cell 2 2 image4 (flat_kernel one) 0 two
           true _ ltac:(lia) ltac:(lia) eq_refl ltac:(lia) nonneg_kernel_flat
           eq_refl eq_refl eq_refl eq_refl 0%nat 0%nat (F64.of_Z 5) eq_refl
           eq_refl eq_refl).
Defined.

(** ** Whole runs of [focal] *)

(** X13. How a run ends. A run that returns has computed its budget
    [numpy.int(spikes_per_unit * total)]; either it wrote nothing to
    [sys.stderr] and returns exactly as many spikes as the budget (none for
    a budget below zero), or it stopped on the break of line 110, wrote the
    message once, and returns fewer spikes than the budget. *)
Theorem spikes_fill_the_budget_unless_stopped
    (correlations : Z -> Z -> ndarray) (spike_images : list ndarray)
    (spikes_per_unit : float) (out : outcome) :
  focal correlations spike_images spikes_per_unit = Ok out ->
  exists b,
    budget spikes_per_unit (total_nonzero spike_images) = Ok b /\
    ((stderr out = [] /\
      Z.of_nat (length (ordered_spikes out)) = Z.max 0 b) \/
     (stderr out = [wrong_max_value] /\
      Z.of_nat (length (ordered_spikes out)) < b)).
Proof.
  intros Hrun. unfold focal in Hrun.
  destruct spike_images as [|image0 rest]; [discriminate|].
  destruct (shape image0) as [height width].
  apply bind_Ok in Hrun as (max_cycles & Hbudget & Hrun).
  apply bind_Ok in Hrun as (tile & _ & Hrun).
  apply bind_Ok in Hrun as (cycles & Hrange & Hrun).
  exists max_cycles. split; [assumption|].
  unfold xrange in Hrange.
  destruct (_ && _)%bool; [|discriminate].
  injection Hrange as <-.
  apply focal_loop_outcome in Hrun. cbn [length] in Hrun.
  destruct Hrun as [[Herr Hlen]|[Herr Hlen]]; [left|right];
    (split; [assumption|lia]).
Qed.

Lemma spikes_fill_the_budget_unless_stopped_witness :
  exists b,
    budget two (total_nonzero [single_cell 2 2 0 0 2; blank 2 2;
                               single_cell 2 2 0 1 1; blank 2 2]) = Ok b /\
    ((stderr (Outcome [Spike 0 two 0; Spike 1 one 2] [wrong_max_value]) = [] /\
      Z.of_nat (length (ordered_spikes
                          (Outcome [Spike 0 two 0; Spike 1 one 2]
                                   [wrong_max_value]))) = Z.max 0 b) \/
     (stderr (Outcome [Spike 0 two 0; Spike 1 one 2] [wrong_max_value])
        = [wrong_max_value] /\
      Z.of_nat (length (ordered_spikes
                          (Outcome [Spike 0 two 0; Spike 1 one 2]
                                   [wrong_max_value]))) < b)).
Proof.
  apply (spikes_fill_the_budget_unless_stopped no_correlation
           [single_cell 2 2 0 0 2; blank 2 2; single_cell 2 2 0 1 1;
            blank 2 2] two).
  vm_compute. reflexivity.
Defined.

(** X14. The budget only truncates. When the run with the larger budget
    returns, the run with the smaller budget returns as well, and its list
    is a prefix of the other: [spikes_per_unit] changes how many spikes are
    returned and nothing else about them. *)
Theorem smaller_budget_gives_a_prefix
    (correlations : Z -> Z -> ndarray) (spike_images : list ndarray)
    (s1 s2 : float) (b1 b2 : Z) (out2 : outcome) :
  budget s1 (total_nonzero spike_images) = Ok b1 ->
  budget s2 (total_nonzero spike_images) = Ok b2 ->
  - 2 ^ 63 <= b1 <= b2 ->
  focal correlations spike_images s2 = Ok out2 ->
  exists out1,
    focal correlations spike_images s1 = Ok out1 /\
    ordered_spikes out1 `prefix_of` ordered_spikes out2.
Proof.
  intros Hb1 Hb2 Hle Hrun. unfold focal in Hrun |- *.
  destruct spike_images as [|image0 rest]; [discriminate|].
  destruct (shape image0) as [height width].
  rewrite Hb1. rewrite Hb2 in Hrun. cbn [bind] in Hrun |- *.
  apply bind_Ok in Hrun as (tile & -> & Hrun). cbn [bind].
  apply bind_Ok in Hrun as (cycles & Hrange & Hrun).
  unfold xrange in Hrange |- *.
  destruct (Z.leb_spec (- 2 ^ 63) b2); [|discriminate].
  destruct (Z.ltb_spec b2 (2 ^ 63)); [|discriminate].
  cbn [andb] in Hrange. injection Hrange as <-.
  destruct (Z.leb_spec (- 2 ^ 63) b1); [|lia].
  destruct (Z.ltb_spec b1 (2 ^ 63)); [|lia].
  cbn [andb bind].
  replace (Z.to_nat b2) with (Z.to_nat b1 + (Z.to_nat b2 - Z.to_nat b1))%nat
    in Hrun by lia.
  exact (focal_loop_prefix correlations _ _ _ _ _ _ _ _ _ _ Hrun).
Qed.

Lemma smaller_budget_gives_a_prefix_witness :
  exists out1,
    focal no_correlation
          [single_cell 2 2 0 0 2; single_cell 2 2 1 1 1;
           single_cell 2 2 0 1 3; blank 2 2] (F64.of_Z 0) = Ok out1 /\
    ordered_spikes out1 `prefix_of`
    ordered_spikes
      (Outcome [Spike 1 (F64.of_Z 3) 2; Spike 0 (F64.of_Z 2) 0;
                Spike 3 (F64.of_Z 1) 1] []).
Proof.
  apply (smaller_budget_gives_a_prefix no_correlation
           [single_cell 2 2 0 0 2; single_cell 2 2 1 1 1;
            single_cell 2 2 0 1 3; blank 2 2] (F64.of_Z 0) one 0 3);
    [vm_compute; reflexivity | vm_compute; reflexivity | lia
    | vm_compute; reflexivity].
Defined.

(** X15. A fraction of zero, of either sign, asks for nothing: a run that
    returns returns the empty list and writes nothing to [sys.stderr]. *)
Theorem zero_fraction_emits_nothing (correlations : Z -> Z -> ndarray)
    (spike_images : list ndarray) (sign : bool) (out : outcome) :
  focal correlations spike_images (S754_zero sign) = Ok out ->
  out = Outcome [] [].
Proof.
  intros Hrun. unfold focal in Hrun.
  destruct spike_images as [|image0 rest]; [discriminate|].
  destruct (shape image0) as [height width].
  apply bind_Ok in Hrun as (max_cycles & Hbudget & Hrun).
  apply bind_Ok in Hrun as (tile & _ & Hrun).
  apply bind_Ok in Hrun as (cycles & Hrange & Hrun).
  assert (max_cycles = 0) as ->.
  { unfold budget in Hbudget.
    destruct (F64.of_Z _) as [s|s| |s m e]; vm_compute in Hbudget;
      congruence. }
  vm_compute in Hrange. injection Hrange as <-.
  cbn [focal_loop] in Hrun. congruence.
Qed.

Lemma zero_fraction_emits_nothing_witness :
  Outcome [] [] = Outcome [] [].
Proof.
  apply (zero_fraction_emits_nothing no_correlation
           [single_cell 2 2 0 0 2; blank 2 2; blank 2 2; blank 2 2] false).
  vm_compute. reflexivity.
Defined.

(** X16. The fraction and the count. For [spikes_per_unit] in [0, 1] and
    fewer than 2^53 non-zero cells, the budget [numpy.int(spikes_per_unit *
    total)] is computed without error and lies between 0 and the count of
    the non-zero cells, rounding included, and a run that returns returns no
    more spikes than the budget. *)
Theorem spikes_within_the_count (correlations : Z -> Z -> ndarray)
    (spike_images : list ndarray) (spikes_per_unit : float)
    (out : outcome) :
  valid spikes_per_unit -> nonneg spikes_per_unit = true ->
  F64.leb spikes_per_unit (F64.of_Z 1) = true ->
  total_nonzero spike_images < 2 ^ 53 ->
  focal correlations spike_images spikes_per_unit = Ok out ->
  exists b,
    budget spikes_per_unit (total_nonzero spike_images) = Ok b /\
    0 <= b <= total_nonzero spike_images /\
    Z.of_nat (length (ordered_spikes out)) <= b.
Proof.
  intros Hvalid Hnn Hle Htotal Hrun.
  pose proof (total_nonzero_nonneg spike_images) as Hpos.
  destruct (budget_within_total spikes_per_unit (total_nonzero spike_images)
              Hvalid Hnn Hle ltac:(lia)) as (b & Hb & Hrange).
  destruct (focal_length_within_budget correlations _ _ _ Hrun)
    as (b' & Hb' & Hlen).
  rewrite Hb in Hb'. injection Hb' as <-.
  exists b. split; [assumption|]. split; [assumption|]. lia.
Qed.

Lemma spikes_within_the_count_witness :
  exists b,
    budget one (total_nonzero [single_cell 2 2 0 0 2; single_cell 2 2 1 1 1;
                               single_cell 2 2 0 1 3; blank 2 2]) = Ok b /\
    0 <= b <= total_nonzero [single_cell 2 2 0 0 2; single_cell 2 2 1 1 1;
                             single_cell 2 2 0 1 3; blank 2 2] /\
    Z.of_nat (length (ordered_spikes
                        (Outcome [Spike 1 (F64.of_Z 3) 2;
                                  Spike 0 (F64.of_Z 2) 0;
                                  Spike 3 (F64.of_Z 1) 1] []))) <= b.
Proof.
  apply (spikes_within_the_count no_correlation
           [single_cell 2 2 0 0 2; single_cell 2 2 1 1 1;
            single_cell 2 2 0 1 3; blank 2 2] one);
    [reflexivity | reflexivity | reflexivity | vm_compute; reflexivity
    | vm_compute; reflexivity].
Defined.

(** X17. The division of line 98. Whenever the maps hold exactly one
    non-zero cell in all and the budget is at least 1, the first iteration
    divides by [float(total_spikes - 1) = 0.0] and [focal] raises
    [ZeroDivisionError], whatever the maps, the kernels and the fraction. *)
Theorem one_nonzero_cell_raises (H W : Z) (correlations : Z -> Z -> ndarray)
    (spike_images : list ndarray) (spikes_per_unit : float) (b : Z) :
  0 < H -> 0 < W -> same_shape H W spike_images ->
  (0 < length spike_images <= 4)%nat ->
  total_nonzero spike_images = 1 ->
  budget spikes_per_unit 1 = Ok b -> 0 < b < 2 ^ 63 ->
  focal correlations spike_images spikes_per_unit = Raise ZeroDivisionError.
Proof.
  intros H_pos W_pos Hshapes Hlen Htotal Hbudget Hb.
  rewrite (focal_unfold H W correlations spike_images spikes_per_unit
             Hshapes) by (intros ->; cbn in Hlen; lia).
  rewrite Htotal, Hbudget. cbn [bind].
  destruct (fill_big_image_cells H W H_pos W_pos spike_images Hshapes
              (zeros (H * 2, W * 2)) 0 (composite_zeros H W H_pos W_pos)
              ltac:(lia) ltac:(lia)) as (tile & -> & _).
  cbn [bind]. unfold xrange.
  destruct (Z.leb_spec (- 2 ^ 63) b); [|lia].
  destruct (Z.ltb_spec b (2 ^ 63)); [|lia].
  cbn [andb bind].
  destruct (Z.to_nat b) as [|cycles] eqn:Hcycles; [lia|].
  reflexivity.
Qed.

Lemma same_shape_lone_cell :
  same_shape 2 2 [blank 2 2; single_cell 2 2 1 0 7].
Proof. repeat constructor. Defined.

Lemma one_nonzero_cell_raises_witness :
  focal unit_correlation [blank 2 2; single_cell 2 2 1 0 7] two
  = Raise ZeroDivisionError.
Proof.
  apply (one_nonzero_cell_raises 2 2 unit_correlation
           [blank 2 2; single_cell 2 2 1 0 7] two 2 ltac:(lia) ltac:(lia)
           same_shape_lone_cell);
    [cbn; lia | reflexivity | reflexivity | lia].
Defined.

(** X18. Five layers or more. The composite image has four quadrants: with
    more than four maps of one shape, and a budget that is computed without
    error, [focal] raises [IndexError] at line 89 and never reaches the
    loop. *)
Theorem more_than_four_maps_raise (H W : Z)
    (correlations : Z -> Z -> ndarray) (spike_images : list ndarray)
    (spikes_per_unit : float) (b : Z) :
  0 < H -> 0 < W -> same_shape H W spike_images ->
  (4 < length spike_images)%nat ->
  budget spikes_per_unit (total_nonzero spike_images) = Ok b ->
  focal correlations spike_images spikes_per_unit = Raise IndexError.
Proof.
  intros H_pos W_pos Hshapes Hlen Hbudget.
  rewrite (focal_unfold H W correlations spike_images spikes_per_unit
             Hshapes) by (intros ->; cbn in Hlen; lia).
  rewrite Hbudget. cbn [bind].
  rewrite (fill_big_image_overflow H W H_pos W_pos spike_images Hshapes
             (zeros (H * 2, W * 2)) 0 (composite_zeros H W H_pos W_pos))
    by lia.
  reflexivity.
Qed.

Lemma same_shape_five_maps :
  same_shape 1 1 [blank 1 1; blank 1 1; blank 1 1; blank 1 1; blank 1 1].
Proof. repeat constructor. Defined.

Lemma more_than_four_maps_raise_witness :
  focal no_correlation
        [blank 1 1; blank 1 1; blank 1 1; blank 1 1; blank 1 1] one
  = Raise IndexError.
Proof.
  apply (more_than_four_maps_raise 1 1 no_correlation
           [blank 1 1; blank 1 1; blank 1 1; blank 1 1; blank 1 1] one 0
           ltac:(lia) ltac:(lia) same_shape_five_maps);
    [cbn; lia | reflexivity].
Defined.

(** X19. What a caller can rely on in every spike, whatever the kernels: for
    at most four maps of one shape, each spike of a run that returns names a
    layer in 0..3 and an index of an [H] by [W] map, and its value is
    neither +inf nor -inf. *)
Theorem spikes_are_well_formed (H W : Z) (correlations : Z -> Z -> ndarray)
    (spike_images : list ndarray) (spikes_per_unit : float)
    (out : outcome) :
  0 < H -> 0 < W -> same_shape H W spike_images ->
  (length spike_images <= 4)%nat ->
  focal correlations spike_images spikes_per_unit = Ok out ->
  Forall (well_formed H W) (ordered_spikes out).
Proof.
  intros H_pos W_pos Hshapes Hlen Hrun.
  destruct spike_images as [|image0 rest] eqn:Himages; [discriminate|].
  rewrite <- Himages in *.
  rewrite (focal_unfold H W correlations spike_images spikes_per_unit
             Hshapes) in Hrun by (rewrite Himages; discriminate).
  apply bind_Ok in Hrun as (max_cycles & _ & Hrun).
  apply bind_Ok in Hrun as (tile & Hfill & Hrun).
  apply bind_Ok in Hrun as (cycles & _ & Hrun).
  destruct (fill_big_image_cells H W H_pos W_pos spike_images Hshapes
              (zeros (H * 2, W * 2)) 0 (composite_zeros H W H_pos W_pos)
              ltac:(lia) ltac:(lia)) as (tile' & Hfill' & Hcomp & _).
  assert (tile' = tile) as -> by congruence.
  revert Hrun.
  apply (focal_loop_well_formed H W H_pos W_pos correlations); auto.
Qed.

Lemma same_shape_scenario :
  same_shape 2 2 [single_cell 2 2 0 0 2; single_cell 2 2 1 1 1;
                  single_cell 2 2 0 1 3; blank 2 2].
Proof. repeat constructor. Defined.

Lemma spikes_are_well_formed_witness :
  Forall (well_formed 2 2)
         (ordered_spikes
            (Outcome [Spike 1 (F64.of_Z 3) 2; Spike 0 (F64.of_Z 2) 0;
                      Spike 3 (F64.of_Z 1) 1] [])).
Proof.
  apply (spikes_are_well_formed 2 2 no_correlation
           [single_cell 2 2 0 0 2; single_cell 2 2 1 1 1;
            single_cell 2 2 0 1 3; blank 2 2] one _ ltac:(lia) ltac:(lia)
           same_shape_scenario);
    [cbn; lia | vm_compute; reflexivity].
Defined.

(** X20. No exception on valid input, the lone cell apart. For one to four
    maps of one shape, square correlation kernels of odd side, a fraction in
    [0, 1] and a count of non-zero cells other than 1 (and below 2^53),
    [focal] returns a list: no index, no shape and no conversion of the run
    fails. *)
Theorem focal_returns (H W : Z) (correlations : Z -> Z -> ndarray)
    (spike_images : list ndarray) (spikes_per_unit : float) :
  0 < H -> 0 < W -> same_shape H W spike_images ->
  (0 < length spike_images <= 4)%nat ->
  (forall a b, square_odd (correlations a b)) ->
  valid spikes_per_unit -> nonneg spikes_per_unit = true ->
  F64.leb spikes_per_unit (F64.of_Z 1) = true ->
  total_nonzero spike_images < 2 ^ 53 ->
  total_nonzero spike_images <> 1 ->
  exists out, focal correlations spike_images spikes_per_unit = Ok out.
Proof.
  intros H_pos W_pos Hshapes Hlen Hodd Hvalid Hnn Hle Htotal Hlone.
  pose proof (total_nonzero_nonneg spike_images) as Hpos.
  rewrite (focal_unfold H W correlations spike_images spikes_per_unit
             Hshapes) by (intros ->; cbn in Hlen; lia).
  destruct (budget_within_total spikes_per_unit (total_nonzero spike_images)
              Hvalid Hnn Hle ltac:(lia)) as (b & -> & Hb).
  cbn [bind].
  destruct (fill_big_image_cells H W H_pos W_pos spike_images Hshapes
              (zeros (H * 2, W * 2)) 0 (composite_zeros H W H_pos W_pos)
              ltac:(lia) ltac:(lia)) as (tile & -> & Hcomp & _).
  cbn [bind]. unfold xrange.
  assert (H53 : 2 ^ 53 < 2 ^ 63) by reflexivity.
  destruct (Z.leb_spec (- 2 ^ 63) b); [|lia].
  destruct (Z.ltb_spec b (2 ^ 63)); [|lia].
  cbn [andb bind].
  apply (focal_loop_returns H W H_pos W_pos correlations); auto. lia.
Qed.

Lemma square_odd_unit_correlation (a b : Z) :
  square_odd (unit_correlation a b).
Proof. exists 1. reflexivity. Defined.

Lemma focal_returns_witness :
  exists out,
    focal unit_correlation
          [single_cell 2 2 0 0 5; single_cell 2 2 0 0 9;
           single_cell 2 2 0 1 3; blank 2 2] one = Ok out.
Proof.
  apply (focal_returns 2 2 unit_correlation
           [single_cell 2 2 0 0 5; single_cell 2 2 0 0 9;
            single_cell 2 2 0 1 3; blank 2 2] one ltac:(lia) ltac:(lia));
    [repeat constructor | cbn; lia | exact square_odd_unit_correlation
    | reflexivity | reflexivity | reflexivity | vm_compute; reflexivity
    | vm_compute; discriminate].
Defined.

(** ** Values of the spikes without cross-talk *)

(** X21. Without cross-talk the whole list is in order, negative values
    included. When every correlation kernel is square, of odd side and
    all-zero, four valid maps give a list whose values never increase:
    whenever spike [i] precedes spike [j] in the list that [focal] returns,
    the value of spike [j] is at most the value of spike [i]. *)
Theorem no_cross_talk_values_non_increasing
    (H W : Z) (correlations : Z -> Z -> ndarray)
    (spike_images : list ndarray) (spikes_per_unit : float) (out : outcome) :
  0 < H -> 0 < W ->
  (forall a b, zero_kernel (correlations a b)) ->
  length spike_images = 4%nat -> valid_images H W spike_images ->
  focal correlations spike_images spikes_per_unit = Ok out ->
  non_increasing (ordered_spikes out).
Proof.
  intros H_pos W_pos Hzero Hlen Hvalid Hrun.
  destruct (focal_Ok H W H_pos W_pos correlations spike_images
              spikes_per_unit out Hvalid Hrun)
    as (max_cycles & tile & cycles & _ & _ & Hok & Hloop).
  rewrite (focal_loop_zero_kernels H W H_pos W_pos correlations Hzero)
    in Hloop by (try assumption; lia).
  revert Hloop. apply select_loop_sorted; try assumption.
  - intros i j a b _ Ha. rewrite lookup_nil in Ha. discriminate.
  - intros a Ha. apply elem_of_nil in Ha. contradiction.
Qed.

Lemma no_cross_talk_values_non_increasing_witness :
  non_increasing
    [Spike 1 (F64.of_Z 3) 2; Spike 0 (F64.of_Z 2) 0; Spike 3 (F64.of_Z 1) 1].
Proof.
  apply (no_cross_talk_values_non_increasing 2 2 no_correlation
           [single_cell 2 2 0 0 2; single_cell 2 2 1 1 1;
            single_cell 2 2 0 1 3; blank 2 2] one
           (Outcome [Spike 1 (F64.of_Z 3) 2; Spike 0 (F64.of_Z 2) 0;
                     Spike 3 (F64.of_Z 1) 1] [])).
  - lia.
  - lia.
  - exact zero_kernel_no_correlation.
  - reflexivity.
  - exact valid_images_scenario.
  - vm_compute. reflexivity.
Defined.

(** ** Runs without cross-talk *)

(** X22. Without cross-talk every spike reports a cell. For four valid maps
    and all-zero kernels, each spike of a run that returns carries the value
    that the map of its layer holds at the row and the column of its index,
    and that value is not zero: nothing is invented and nothing is altered. *)
Theorem spikes_name_their_cells (H W : Z) (correlations : Z -> Z -> ndarray)
    (spike_images : list ndarray) (spikes_per_unit : float)
    (out : outcome) :
  0 < H -> 0 < W ->
  (forall a b, zero_kernel (correlations a b)) ->
  valid_images H W spike_images -> length spike_images = 4%nat ->
  focal correlations spike_images spikes_per_unit = Ok out ->
  Forall (fun s => named_cell W spike_images s = Some (value s) /\
                   F64.eqb (value s) F64.zero = false)
         (ordered_spikes out).
Proof.
  intros H_pos W_pos Hzero Hvalid Hfour Hrun.
  destruct (focal_start H W correlations spike_images spikes_per_unit out
              Hvalid Hrun)
    as (max_cycles & tile & cycles & _ & _ & Hfill & Hloop).
  rewrite Hfour in Hloop.
  destruct (exhaustive_search H W H_pos W_pos correlations Hzero spike_images
              Hvalid Hfour _ _ _ _ _ _
              (invariant_start H W H_pos W_pos spike_images Hvalid Hfour
                 tile Hfill) Hloop) as (Hnamed & _ & _).
  apply Forall_forall. exact Hnamed.
Qed.

Lemma spikes_name_their_cells_witness :
  Forall (fun s => named_cell 2
                     [single_cell 2 2 0 0 2; single_cell 2 2 1 1 1;
                      single_cell 2 2 0 1 3; blank 2 2] s = Some (value s) /\
                   F64.eqb (value s) F64.zero = false)
         (ordered_spikes
            (Outcome [Spike 1 (F64.of_Z 3) 2; Spike 0 (F64.of_Z 2) 0;
                      Spike 3 (F64.of_Z 1) 1] [])).
Proof.
  apply (spikes_name_their_cells 2 2 no_correlation
           [single_cell 2 2 0 0 2; single_cell 2 2 1 1 1;
            single_cell 2 2 0 1 3; blank 2 2] one _ ltac:(lia) ltac:(lia)
           zero_kernel_no_correlation valid_images_scenario eq_refl).
  vm_compute. reflexivity.
Defined.

(** X23. Without cross-talk no cell has two spikes. For four valid maps and
    all-zero kernels, the pairs (layer, index) of the spikes of a run that
    returns are all different. *)
Theorem no_cell_has_two_spikes (H W : Z) (correlations : Z -> Z -> ndarray)
    (spike_images : list ndarray) (spikes_per_unit : float)
    (out : outcome) :
  0 < H -> 0 < W ->
  (forall a b, zero_kernel (correlations a b)) ->
  valid_images H W spike_images -> length spike_images = 4%nat ->
  focal correlations spike_images spikes_per_unit = Ok out ->
  NoDup (map key (ordered_spikes out)).
Proof.
  intros H_pos W_pos Hzero Hvalid Hfour Hrun.
  destruct (focal_start H W correlations spike_images spikes_per_unit out
              Hvalid Hrun)
    as (max_cycles & tile & cycles & _ & _ & Hfill & Hloop).
  rewrite Hfour in Hloop.
  destruct (exhaustive_search H W H_pos W_pos correlations Hzero spike_images
              Hvalid Hfour _ _ _ _ _ _
              (invariant_start H W H_pos W_pos spike_images Hvalid Hfour
                 tile Hfill) Hloop) as (_ & Hnodup & _).
  exact Hnodup.
Qed.

Lemma no_cell_has_two_spikes_witness :
  NoDup (map key (ordered_spikes
                    (Outcome [Spike 1 (F64.of_Z 3) 2; Spike 0 (F64.of_Z 2) 0;
                              Spike 3 (F64.of_Z 1) 1] []))).
Proof.
  apply (no_cell_has_two_spikes 2 2 no_correlation
           [single_cell 2 2 0 0 2; single_cell 2 2 1 1 1;
            single_cell 2 2 0 1 3; blank 2 2] one _ ltac:(lia) ltac:(lia)
           zero_kernel_no_correlation valid_images_scenario eq_refl).
  vm_compute. reflexivity.
Defined.

(** X24. Without cross-talk the break of line 110 means exhaustion. For four
    valid maps and all-zero kernels, a run that wrote the message to
    [sys.stderr] has returned a spike for every non-zero cell of every map,
    with the layer, the index and the value of that cell. *)
Theorem break_means_every_cell_was_emitted (H W : Z)
    (correlations : Z -> Z -> ndarray) (spike_images : list ndarray)
    (spikes_per_unit : float) (out : outcome) :
  0 < H -> 0 < W ->
  (forall a b, zero_kernel (correlations a b)) ->
  valid_images H W spike_images -> length spike_images = 4%nat ->
  focal correlations spike_images spikes_per_unit = Ok out ->
  stderr out = [wrong_max_value] ->
  forall (c : nat) (image : ndarray) (r w : nat) (x : float),
    spike_images !! c = Some image -> get2 image r w = Some x ->
    F64.eqb x F64.zero = false ->
    Spike (Z.of_nat r * W + Z.of_nat w) x (Z.of_nat c) ∈ ordered_spikes out.
Proof.
  intros H_pos W_pos Hzero Hvalid Hfour Hrun Hbreak c image r w x Himage Hx
    Hnz.
  destruct (focal_start H W correlations spike_images spikes_per_unit out
              Hvalid Hrun)
    as (max_cycles & tile & cycles & _ & _ & Hfill & Hloop).
  rewrite Hfour in Hloop.
  destruct (exhaustive_search H W H_pos W_pos correlations Hzero spike_images
              Hvalid Hfour _ _ _ _ _ _
              (invariant_start H W H_pos W_pos spike_images Hvalid Hfour
                 tile Hfill) Hloop) as (_ & _ & Hall).
  pose proof (lookup_lt_Some _ _ _ Himage) as Hc.
  destruct (Hall Hbreak (Z.of_nat c) image r w x ltac:(lia)
              ltac:(rewrite Nat2Z.id; assumption) Hx Hnz)
    as ([li v ch] & Hs & Hch & Hli & Hv).
  cbn [channel local_index value] in Hch, Hli, Hv. subst. exact Hs.
Qed.

Lemma valid_images_two_cells :
  valid_images 2 2 [single_cell 2 2 0 0 2; blank 2 2; single_cell 2 2 0 1 1;
                    blank 2 2].
Proof.
  repeat constructor; try reflexivity;
    apply (all_cells_Forall (fun x => finite x = true));
    repeat constructor.
Defined.

Lemma break_means_every_cell_was_emitted_witness :
  Spike (Z.of_nat 0 * 2 + Z.of_nat 1) one (Z.of_nat 2)
  ∈ ordered_spikes (Outcome [Spike 0 two 0; Spike 1 one 2] [wrong_max_value]).
Proof.
  apply (break_means_every_cell_was_emitted 2 2 no_correlation
           [single_cell 2 2 0 0 2; blank 2 2; single_cell 2 2 0 1 1;
            blank 2 2] two
           (Outcome [Spike 0 two 0; Spike 1 one 2] [wrong_max_value])
           ltac:(lia) ltac:(lia) zero_kernel_no_correlation
           valid_images_two_cells eq_refl ltac:(vm_compute; reflexivity)
           eq_refl 2%nat (single_cell 2 2 0 1 1) 0%nat 1%nat one
           eq_refl eq_refl eq_refl).
Defined.

(** X25. Without cross-talk a fraction in [0, 1] is always served. For four
    valid maps, all-zero kernels and [spikes_per_unit] in [0, 1], a run that
    returns never meets the break of line 110: nothing is written to
    [sys.stderr], and the list holds exactly as many spikes as the budget
    [numpy.int(spikes_per_unit * total)]. *)
Theorem fraction_is_served (H W : Z) (correlations : Z -> Z -> ndarray)
    (spike_images : list ndarray) (spikes_per_unit : float)
    (out : outcome) :
  0 < H -> 0 < W ->
  (forall a b, zero_kernel (correlations a b)) ->
  valid_images H W spike_images -> length spike_images = 4%nat ->
  valid spikes_per_unit -> nonneg spikes_per_unit = true ->
  F64.leb spikes_per_unit (F64.of_Z 1) = true ->
  total_nonzero spike_images < 2 ^ 53 ->
  focal correlations spike_images spikes_per_unit = Ok out ->
  stderr out = [] /\
  budget spikes_per_unit (total_nonzero spike_images)
  = Ok (Z.of_nat (length (ordered_spikes out))).
Proof.
  intros H_pos W_pos Hzero Hvalid Hfour Hs Hnn Hle Htotal Hrun.
  pose proof (total_nonzero_nonneg spike_images) as Hpos.
  destruct (budget_within_total spikes_per_unit (total_nonzero spike_images)
              Hs Hnn Hle ltac:(lia)) as (b & Hb & Hrange).
  destruct (no_cross_talk_run H W H_pos W_pos correlations Hzero spike_images
              Hvalid Hfour spikes_per_unit out Hrun)
    as (b' & Hb' & Hend & _).
  assert (b' = b) as -> by congruence.
  destruct Hend as [[Herr Hlen]|[Herr Hlen]].
  - split; [assumption|]. rewrite Hb. f_equal. lia.
  - pose proof (break_after_every_cell H W H_pos W_pos correlations Hzero
                  spike_images Hvalid Hfour spikes_per_unit out Hrun Herr).
    lia.
Qed.

Lemma fraction_is_served_witness :
  stderr (Outcome [Spike 1 (F64.of_Z 3) 2; Spike 0 (F64.of_Z 2) 0;
                   Spike 3 (F64.of_Z 1) 1] []) = [] /\
  budget one
         (total_nonzero [single_cell 2 2 0 0 2; single_cell 2 2 1 1 1;
                         single_cell 2 2 0 1 3; blank 2 2])
  = Ok (Z.of_nat
          (length (ordered_spikes
                     (Outcome [Spike 1 (F64.of_Z 3) 2; Spike 0 (F64.of_Z 2) 0;
                               Spike 3 (F64.of_Z 1) 1] [])))).
Proof.
  apply (fraction_is_served 2 2 no_correlation
           [single_cell 2 2 0 0 2; single_cell 2 2 1 1 1;
            single_cell 2 2 0 1 3; blank 2 2] one _ ltac:(lia) ltac:(lia)
           zero_kernel_no_correlation valid_images_scenario eq_refl
           eq_refl eq_refl eq_refl ltac:(vm_compute; reflexivity)).
  vm_compute. reflexivity.
Defined.

(** X26. The whole image, without cross-talk. For four valid maps, all-zero
    kernels and [spikes_per_unit = 1.0], the list of a run that returns has
    one spike for each non-zero cell of the maps and no other: its length is
    the count of the non-zero cells, and every non-zero cell has its spike,
    with its layer, its index and its value. *)
Theorem full_fraction_emits_every_cell (H W : Z)
    (correlations : Z -> Z -> ndarray) (spike_images : list ndarray)
    (out : outcome) :
  0 < H -> 0 < W ->
  (forall a b, zero_kernel (correlations a b)) ->
  valid_images H W spike_images -> length spike_images = 4%nat ->
  total_nonzero spike_images < 2 ^ 53 ->
  focal correlations spike_images (F64.of_Z 1) = Ok out ->
  Z.of_nat (length (ordered_spikes out)) = total_nonzero spike_images /\
  forall (c : nat) (image : ndarray) (r w : nat) (x : float),
    spike_images !! c = Some image -> get2 image r w = Some x ->
    F64.eqb x F64.zero = false ->
    Spike (Z.of_nat r * W + Z.of_nat w) x (Z.of_nat c) ∈ ordered_spikes out.
Proof.
  intros H_pos W_pos Hzero Hvalid Hfour Htotal Hrun.
  pose proof (total_nonzero_nonneg spike_images) as Hpos.
  destruct (no_cross_talk_run H W H_pos W_pos correlations Hzero spike_images
              Hvalid Hfour (F64.of_Z 1) out Hrun)
    as (b & Hb & Hend & _ & Hnamed & Hnodup & _).
  rewrite budget_full in Hb by lia. injection Hb as <-.
  assert (Hlen : Z.of_nat (length (ordered_spikes out))
                 = total_nonzero spike_images).
  { destruct Hend as [[_ Hlen]|[Herr Hlen]]; [lia|].
    pose proof (break_after_every_cell H W H_pos W_pos correlations Hzero
                  spike_images Hvalid Hfour (F64.of_Z 1) out Hrun Herr).
    lia. }
  split; [assumption|].
  intros c image r w x Himage Hx Hnz.
  assert (Hperm : map key (ordered_spikes out) ≡ₚ keys_from 0 spike_images).
  { apply submseteq_length_Permutation.
    - apply NoDup_submseteq; [assumption|].
      exact (spikes_are_keys H W H_pos W_pos correlations Hzero spike_images
               Hvalid Hfour (F64.of_Z 1) out Hrun).
    - rewrite length_map. apply Nat2Z.inj_le.
      rewrite keys_from_length. lia. }
  assert (Hkey : (Z.of_nat c, Z.of_nat r * W + Z.of_nat w)
                 ∈ map key (ordered_spikes out)).
  { rewrite Hperm.
    apply (keys_from_cell H W spike_images _ _ W_pos
             (valid_images_shapes H W spike_images Hvalid)).
    unfold valid_images in Hvalid. rewrite Forall_forall in Hvalid.
    destruct (Hvalid image (list_elem_of_lookup_2 _ _ _ Himage))
      as (Hshape & Hrect & _).
    destruct (get2_bounds image H W r w x Hrect Hshape Hx) as [_ Hw].
    exists c, image, r, w, x. auto 10. }
  apply list_elem_of_fmap in Hkey as ([li v ch] & Hkey & Hs).
  unfold key in Hkey. cbn [channel local_index] in Hkey.
  injection Hkey as <- <-.
  destruct (Hnamed _ Hs) as [Hcell _].
  unfold named_cell in Hcell. cbn [channel local_index value] in Hcell.
  rewrite Nat2Z.id, Himage in Hcell.
  unfold valid_images in Hvalid. rewrite Forall_forall in Hvalid.
  destruct (Hvalid image (list_elem_of_lookup_2 _ _ _ Himage))
    as (Hshape & Hrect & _).
  destruct (get2_bounds image H W r w x Hrect Hshape Hx) as [_ Hw].
  rewrite Z.div_add_l, Z.div_small, Z.add_0_r in Hcell by lia.
  rewrite Z.add_comm, Z.mod_add, Z.mod_small in Hcell by lia.
  rewrite !Nat2Z.id in Hcell.
  assert (v = x) as -> by congruence.
  exact Hs.
Qed.

Lemma full_fraction_emits_every_cell_witness :
  Z.of_nat (length (ordered_spikes
                      (Outcome [Spike 1 (F64.of_Z 3) 2;
                                Spike 0 (F64.of_Z 2) 0;
                                Spike 3 (F64.of_Z 1) 1] [])))
  = total_nonzero [single_cell 2 2 0 0 2; single_cell 2 2 1 1 1;
                   single_cell 2 2 0 1 3; blank 2 2] /\
  forall (c : nat) (image : ndarray) (r w : nat) (x : float),
    [single_cell 2 2 0 0 2; single_cell 2 2 1 1 1;
     single_cell 2 2 0 1 3; blank 2 2] !! c = Some image ->
    get2 image r w = Some x -> F64.eqb x F64.zero = false ->
    Spike (Z.of_nat r * 2 + Z.of_nat w) x (Z.of_nat c)
    ∈ ordered_spikes (Outcome [Spike 1 (F64.of_Z 3) 2;
                               Spike 0 (F64.of_Z 2) 0;
                               Spike 3 (F64.of_Z 1) 1] []).
Proof.
  apply (full_fraction_emits_every_cell 2 2 no_correlation
           [single_cell 2 2 0 0 2; single_cell 2 2 1 1 1;
            single_cell 2 2 0 1 3; blank 2 2] _ ltac:(lia) ltac:(lia)
           zero_kernel_no_correlation valid_images_scenario eq_refl
           ltac:(vm_compute; reflexivity)).
  vm_compute. reflexivity.
Defined.

(** X27. Every exception of [focal], for one to four maps of one shape and
    square kernels of odd side. [ZeroDivisionError] comes from line 98 and
    means exactly one non-zero cell; [ValueError] and [OverflowError] come
    from the conversion of line 82 (a NaN or an infinite product),
    [OverflowError] also from [xrange] for a budget outside a C long;
    [IndexError] is never raised, and nothing is raised by the search or by
    the corrections. *)
Theorem focal_errors_classified (H W : Z) (correlations : Z -> Z -> ndarray)
    (spike_images : list ndarray) (spikes_per_unit : float) :
  0 < H -> 0 < W -> same_shape H W spike_images ->
  (0 < length spike_images <= 4)%nat ->
  (forall a b, square_odd (correlations a b)) ->
  match focal correlations spike_images spikes_per_unit with
  | Ok _ => True
  | Raise ZeroDivisionError => total_nonzero spike_images = 1
  | Raise IndexError => False
  | Raise ValueError =>
      budget spikes_per_unit (total_nonzero spike_images) = Raise ValueError
  | Raise OverflowError =>
      budget spikes_per_unit (total_nonzero spike_images)
        = Raise OverflowError \/
      exists b,
        budget spikes_per_unit (total_nonzero spike_images) = Ok b /\
        (b < - 2 ^ 63 \/ 2 ^ 63 <= b)
  end.
Proof.
  intros H_pos W_pos Hshapes Hlen Hodd.
  rewrite (focal_unfold H W correlations spike_images spikes_per_unit
             Hshapes) by (intros ->; cbn in Hlen; lia).
  destruct (budget spikes_per_unit (total_nonzero spike_images))
    as [b|e] eqn:Hbudget; cbn [bind].
  - destruct (fill_big_image_cells H W H_pos W_pos spike_images Hshapes
                (zeros (H * 2, W * 2)) 0 (composite_zeros H W H_pos W_pos)
                ltac:(lia) ltac:(lia)) as (tile & -> & Hcomp & _).
    cbn [bind]. unfold xrange.
    destruct (Z.leb_spec (- 2 ^ 63) b); cbn [andb bind]; [|right; eauto].
    destruct (Z.ltb_spec b (2 ^ 63)); cbn [bind]; [|right; eauto].
    destruct (Z.eq_dec (total_nonzero spike_images) 1) as [Hone|Hmore].
    + rewrite Hone. destruct (Z.to_nat b) as [|cycles]; [exact I|].
      reflexivity.
    + destruct (focal_loop_returns H W H_pos W_pos correlations
                  (length spike_images) (total_nonzero spike_images)
                  (Z.to_nat b) ltac:(lia) Hmore Hodd 0 tile [] Hcomp)
        as [out ->].
      exact I.
  - unfold budget in Hbudget.
    destruct (F64.mul _ _) as [s|s| |s m e']; cbn [F64.to_int] in Hbudget;
      try discriminate; injection Hbudget as <-; auto.
Qed.

Lemma focal_errors_classified_witness :
  match focal unit_correlation [blank 2 2; single_cell 2 2 1 0 7] two with
  | Ok _ => True
  | Raise ZeroDivisionError =>
      total_nonzero [blank 2 2; single_cell 2 2 1 0 7] = 1
  | Raise IndexError => False
  | Raise ValueError =>
      budget two (total_nonzero [blank 2 2; single_cell 2 2 1 0 7])
        = Raise ValueError
  | Raise OverflowError =>
      budget two (total_nonzero [blank 2 2; single_cell 2 2 1 0 7])
        = Raise OverflowError \/
      exists b,
        budget two (total_nonzero [blank 2 2; single_cell 2 2 1 0 7]) = Ok b /\
        (b < - 2 ^ 63 \/ 2 ^ 63 <= b)
  end.
Proof.
  apply (focal_errors_classified 2 2 unit_correlation
           [blank 2 2; single_cell 2 2 1 0 7] two ltac:(lia) ltac:(lia)
           same_shape_lone_cell);
    [cbn; lia | exact square_odd_unit_correlation].
Defined.

(** X28. The first spike is the maximum of the maps, whatever the kernels:
    for four valid maps, the first spike of a run that returns carries the
    value of the cell that it names, and no non-zero cell of any map holds a
    larger value. *)
Theorem first_spike_is_the_maximum (H W : Z)
    (correlations : Z -> Z -> ndarray) (spike_images : list ndarray)
    (spikes_per_unit : float) (out : outcome) (first : spike) :
  0 < H -> 0 < W ->
  valid_images H W spike_images -> length spike_images = 4%nat ->
  focal correlations spike_images spikes_per_unit = Ok out ->
  ordered_spikes out !! 0%nat = Some first ->
  named_cell W spike_images first = Some (value first) /\
  forall (c : nat) (image : ndarray) (r w : nat) (x : float),
    spike_images !! c = Some image -> get2 image r w = Some x ->
    F64.eqb x F64.zero = false ->
    F64.leb x (value first) = true.
Proof.
  intros H_pos W_pos Hvalid Hfour Hrun Hfirst.
  destruct (focal_start H W correlations spike_images spikes_per_unit out
              Hvalid Hrun)
    as (max_cycles & tile & cycles & _ & _ & Hfill & Hloop).
  destruct (invariant_start H W H_pos W_pos spike_images Hvalid Hfour tile
              Hfill) as (Htile & Hcells & _).
  pose proof Htile as (Hshape & Hrect & Hsearch).
  destruct cycles as [|cycles].
  { cbn [focal_loop] in Hloop. injection Hloop as <-. discriminate. }
  destruct (focal_loop_step H W H_pos W_pos correlations tile
              (conj Hshape Hrect))
    as (idx & v & Hidx & Hv & Hmax & Hstep).
  rewrite Hstep in Hloop. clear Hstep.
  apply bind_Ok in Hloop as (_ & _ & Hloop).
  pose proof (Hsearch _ _ _ Hv) as Hvs.
  destruct (F64.eqb v F64.inf || F64.eqb v F64.neg_inf || F64.eqb v F64.nan)
    eqn:Hbad; [injection Hloop as <-; discriminate|].
  apply orb_false_elim in Hbad as [Hbad _].
  apply orb_false_elim in Hbad as [_ Hninf].
  cbn zeta in Hloop.
  apply bind_Ok in Hloop as (tile1 & _ & Hloop).
  apply focal_loop_extends in Hloop as [rest Hout].
  destruct (spike_position H W H_pos W_pos idx Hidx)
    as (Hsr & Hsc & Hct & HR & HC).
  cbn zeta in Hsr, Hsc, Hct, HR, HC.
  set (single_coords :=
         if ((idx / (W * 2), idx mod (W * 2)).1 <? H) &&
            ((idx / (W * 2), idx mod (W * 2)).2 <? W)
         then (idx / (W * 2), idx mod (W * 2))
         else global_to_single_coords
                (idx / (W * 2), idx mod (W * 2)) (H, W)) in *.
  set (ct := cell_type_from_global_coords
               (idx / (W * 2), idx mod (W * 2)) (H, W)) in *.
  assert (Hhead : ordered_spikes out !! 0%nat
                  = Some (Spike (fst single_coords * W + snd single_coords)
                                v ct))
    by (rewrite Hout; reflexivity).
  rewrite Hhead in Hfirst. injection Hfirst as <-.
  cbn [value channel local_index].
  split.
  - destruct (layer_lookup H W spike_images Hvalid Hfour ct Hct)
      as (image & Himage & Hishape & Hirect & Hifin).
    destruct (get2_in_range image H W (Z.to_nat (fst single_coords))
                (Z.to_nat (snd single_coords)) Hirect Hishape) as [x Hx];
      [lia..|].
    destruct (Hcells ct image _ _ x Hct Himage Hx) as [Hcell|[Hcell _]];
      rewrite !Z2Nat.id, <- HR, <- HC, Hv in Hcell by lia;
      injection Hcell as Hcell; [|subst v; discriminate].
    destruct (sentinel_searchable x v (eq_sym Hcell) Hninf) as [-> _].
    unfold named_cell. cbn [channel local_index value]. rewrite Himage.
    rewrite Z.div_add_l, Z.div_small, Z.add_0_r by lia.
    rewrite Z.add_comm, Z.mod_add, Z.mod_small by lia.
    assumption.
  - intros c image r w x Himage Hx Hnz.
    pose proof (lookup_lt_Some _ _ _ Himage) as Hc.
    destruct (layer_cell H W spike_images Hvalid Hfour (Z.of_nat c) image r w
                x ltac:(lia) ltac:(rewrite Nat2Z.id; assumption) Hx)
      as (_ & _ & Hfin).
    destruct (Hcells (Z.of_nat c) image r w x ltac:(lia)
                ltac:(rewrite Nat2Z.id; assumption) Hx)
      as [Hcell|[_ Hem]].
    + rewrite (sentinel_finite x Hfin Hnz) in Hcell.
      apply (Hmax (searchable_not_nan v Hvs) _ _ _ Hcell).
    + destruct (Hem Hnz) as (s & Hs & _). apply elem_of_nil in Hs.
      contradiction.
Qed.

Lemma first_spike_is_the_maximum_witness :
  named_cell 2 [single_cell 2 2 0 0 5; single_cell 2 2 0 0 9;
                single_cell 2 2 0 1 3; blank 2 2] (Spike 0 (F64.of_Z 9) 1)
  = Some (value (Spike 0 (F64.of_Z 9) 1)) /\
  forall (c : nat) (image : ndarray) (r w : nat) (x : float),
    [single_cell 2 2 0 0 5; single_cell 2 2 0 0 9;
     single_cell 2 2 0 1 3; blank 2 2] !! c = Some image ->
    get2 image r w = Some x -> F64.eqb x F64.zero = false ->
    F64.leb x (value (Spike 0 (F64.of_Z 9) 1)) = true.
Proof.
  apply (first_spike_is_the_maximum 2 2 unit_correlation
           [single_cell 2 2 0 0 5; single_cell 2 2 0 0 9;
            single_cell 2 2 0 1 3; blank 2 2] one
           (Outcome [Spike 0 (F64.of_Z 9) 1; Spike 1 (F64.of_Z 3) 2;
                     Spike 0 (F64.of_Z (-4)) 0] [])
           (Spike 0 (F64.of_Z 9) 1) ltac:(lia) ltac:(lia)
           valid_images_suppression eq_refl ltac:(vm_compute; reflexivity)
           eq_refl).
Defined.
